(** * logdog: the watchdog state machine, the monitor loop that feeds it,
      and the incremental log reader

    A shallow embedding of [state_machine.py]; of the rule loops, the
    reader and the status of [log_monitor.py]; of the notifications and
    the delivery with fallback of [notifier.py]; and of the rule and
    state lines of [config.py].

    Modelling conventions.
    - A [datetime] is an integer number of microseconds (the resolution of
      Python's [datetime]).  Every method that calls [datetime.now()]
      receives the instant as an argument [now]; the calls made while one
      event or one sweep is processed are taken at the same instant.
    - [(a - b).total_seconds() * 1000] is computed as Python computes it,
      in binary64 floating point: the correctly rounded quotient of the
      microseconds by [10**6], then the rounded product by [1000.0]
      ([SpecFloat]'s operations with precision 53).  The comparison of the
      float with the integer [timeout_ms] and [int(...)] of the float are
      exact.
    - [WatchdogState] objects are mutable and shared between the two
      dictionaries [states] and [active_states] and the tuples returned by
      [check_timeouts].  They live in an object store ([objects]) and are
      named by their index in it; dictionaries and tuples hold references.
    - A Python [dict] iterates in insertion order; it is an association
      list here, because the order of iteration is the order of the
      notifications. *)

From Stdlib Require Import ZArith String Ascii List Bool Lia.
From Stdlib Require Import SpecFloat.
From stdpp Require Import base list strings.
Import ListNotations.

Local Set Warnings "-clear-no-such-hyp".
Local Open Scope string_scope.
Local Open Scope list_scope.
Local Open Scope Z_scope.

(* ===================================================================== *)
(** ** Insertion-ordered dictionaries with string keys                    *)
(* ===================================================================== *)

Section dict.
Context {V : Type}.

(** [d.get(k)] / [d[k]] / [k in d] *)
Fixpoint dict_get (d : list (string * V)) (k : string) : option V :=
  match d with
  | [] => None
  | (k', v) :: d' => if String.eqb k' k then Some v else dict_get d' k
  end.

(** [d[k] = v]: an existing key keeps its place, a new key goes last. *)
Fixpoint dict_set (d : list (string * V)) (k : string) (v : V)
  : list (string * V) :=
  match d with
  | [] => [(k, v)]
  | (k', v') :: d' =>
      if String.eqb k' k then (k', v) :: d'
      else (k', v') :: dict_set d' k v
  end.

(** [del d[k]] *)
Fixpoint dict_del (d : list (string * V)) (k : string)
  : list (string * V) :=
  match d with
  | [] => []
  | (k', v') :: d' =>
      if String.eqb k' k then dict_del d' k
      else (k', v') :: dict_del d' k
  end.

Definition dict_keys (d : list (string * V)) : list string := map fst d.
End dict.

(* ===================================================================== *)
(** ** state_machine.py                                                   *)
(* ===================================================================== *)

Definition datetime := Z.

Record WatchdogTransition := mkTransition {
  target_node : string;
  timeout_ms : Z;
  transition_description : string
}.

Record WatchdogState := mkState {
  name : string;
  start_node : string;
  transitions : list WatchdogTransition;
  description : string;
  is_active : bool;
  last_activation_time : option datetime;
  current_transition_index : nat
}.

(** The second component of a [state_history] entry.  The source builds it
    with an f-string; the constructor is the fixed text and its argument
    the interpolated value ([TIMEOUT_after] keeps the elapsed time in
    microseconds rather than its one-decimal rendering). *)
Inductive HistoryEvent :=
| RESET_by (trigger_node : string)
| ACTIVATED_by (trigger_node : string)
| TRANSITION_to (next_target : string)
| COMPLETED_by (node_name : string)
| TIMEOUT_after (elapsed_us : Z).

(** A reference to a [WatchdogState] object: its index in the store. *)
Abbreviation ref := nat.

Record WatchdogStateMachine := mkMachine {
  objects : list WatchdogState;
  states : list (string * ref);
  active_states : list (string * ref);
  state_history : list (string * HistoryEvent * datetime)
}.

(** [WatchdogStateMachine.__init__] *)
Definition init : WatchdogStateMachine := mkMachine [] [] [] [].

(** Field assignments; on the object behind a reference [r] they are
    [alter (set_... v) r (objects sm)]. *)
Definition set_last_activation_time (v : option datetime) (st : WatchdogState) :=
  mkState (name st) (start_node st) (transitions st) (description st)
          (is_active st) v (current_transition_index st).

Definition set_is_active (v : bool) (st : WatchdogState) :=
  mkState (name st) (start_node st) (transitions st) (description st)
          v (last_activation_time st) (current_transition_index st).

Definition set_current_transition_index (v : nat) (st : WatchdogState) :=
  mkState (name st) (start_node st) (transitions st) (description st)
          (is_active st) (last_activation_time st) v.

Definition with_objects (o : list WatchdogState) (sm : WatchdogStateMachine) :=
  mkMachine o (states sm) (active_states sm) (state_history sm).

Definition with_active_states (a : list (string * ref)) (sm : WatchdogStateMachine) :=
  mkMachine (objects sm) (states sm) a (state_history sm).

Definition history_append (e : string * HistoryEvent * datetime)
           (sm : WatchdogStateMachine) :=
  mkMachine (objects sm) (states sm) (active_states sm) (state_history sm ++ [e]).

(** [add_state]: the new object is allocated in the store and
    [states[state.name]] made to point to it. *)
Definition add_state (sm : WatchdogStateMachine) (state : WatchdogState)
  : WatchdogStateMachine :=
  mkMachine (objects sm ++ [state])
            (dict_set (states sm) (name state) (length (objects sm)))
            (active_states sm) (state_history sm).

(** The three assignments of the activation branch of [activate_state]. *)
Definition activated (now : datetime) (st : WatchdogState) : WatchdogState :=
  set_current_transition_index 0
    (set_last_activation_time (Some now) (set_is_active true st)).

(** [activate_state(state_name, trigger_node)].  A reference held by a
    dictionary always points into the store; the [None] branch of the
    store lookup is not reachable from [init] and [add_state]. *)
Definition activate_state (sm : WatchdogStateMachine)
           (state_name trigger_node : string) (now : datetime)
  : WatchdogStateMachine * bool :=
  match dict_get (states sm) state_name with
  | None => (sm, false)
  | Some r =>
      match objects sm !! r with
      | None => (sm, false)
      | Some state =>
          if negb (String.eqb trigger_node (start_node state)) then (sm, false)
          else if is_active state then
            (history_append (state_name, RESET_by trigger_node, now)
               (with_objects
                  (alter (set_last_activation_time (Some now)) r (objects sm))
                  sm),
             true)
          else
            (history_append (state_name, ACTIVATED_by trigger_node, now)
               (with_active_states
                  (dict_set (active_states sm) state_name r)
                  (with_objects
                     (alter (activated now) r (objects sm))
                     sm)),
             true)
      end
  end.

(** The three assignments of [_deactivate_state]. *)
Definition deactivated (st : WatchdogState) : WatchdogState :=
  set_current_transition_index 0
    (set_last_activation_time None (set_is_active false st)).

(** [_deactivate_state(state_name, reason)] *)
Definition deactivate_state (sm : WatchdogStateMachine)
           (state_name : string) (reason : HistoryEvent) (now : datetime)
  : WatchdogStateMachine :=
  match dict_get (active_states sm) state_name with
  | None => sm
  | Some r =>
      history_append (state_name, reason, now)
        (with_active_states
           (dict_del (active_states sm) state_name)
           (with_objects (alter deactivated r (objects sm)) sm))
  end.

(** [check_transition(state_name, node_name)]; the result is
    [Optional[Tuple[bool, str]]]. *)
Definition check_transition (sm : WatchdogStateMachine)
           (state_name node_name : string) (now : datetime)
  : WatchdogStateMachine * option (bool * string) :=
  match dict_get (active_states sm) state_name with
  | None => (sm, None)
  | Some r =>
      match objects sm !! r with
      | None => (sm, None)
      | Some state =>
          match transitions state !! current_transition_index state with
          | None => (sm, None)
          | Some current_transition =>
              if String.eqb node_name (target_node current_transition) then
                let state1 :=
                  set_current_transition_index
                    (S (current_transition_index state)) state in
                let sm1 :=
                  with_objects
                    (alter (set_current_transition_index
                              (S (current_transition_index state)))
                           r (objects sm))
                    sm in
                match transitions state1 !! current_transition_index state1 with
                | None =>
                    (deactivate_state sm1 state_name (COMPLETED_by node_name) now,
                     Some (true,
                           ("Rule '" ++ state_name
                            ++ "' completed successfully")%string))
                | Some next_transition =>
                    (history_append
                       (state_name, TRANSITION_to (target_node next_transition), now)
                       (with_objects
                          (alter (set_last_activation_time (Some now)) r
                                 (objects sm1))
                          sm1),
                     Some (false,
                           ("Rule '" ++ state_name
                            ++ "' moved to next transition: "
                            ++ target_node next_transition)%string))
                end
              else (sm, None)
          end
      end
  end.

(** Python's [float(n)] for the integers used below, as a binary64
    number with an integer mantissa. *)
Definition float_of_int (n : Z) : spec_float :=
  match n with
  | Z0 => S754_zero false
  | Zpos m => S754_finite false m 0
  | Zneg m => S754_finite true m 0
  end.

(** [timedelta.total_seconds()]: the microseconds divided by [10**6],
    rounded once to the nearest binary64 number. *)
Definition total_seconds (td : Z) : spec_float :=
  SFdiv 53 1024 (float_of_int td) (float_of_int 1000000).

(** [(now - last).total_seconds() * 1000] *)
Definition elapsed_ms (td : Z) : spec_float :=
  SFmul 53 1024 (total_seconds td) (float_of_int 1000).

(** The value [m * 2 ^ e] of a finite float.  The elapsed time of two
    datetimes is finite (a [timedelta] is below 10^9 days); zero stands
    for the other floats, which are not reached. *)
Definition dyadic (x : spec_float) : Z * Z :=
  match x with
  | S754_finite s m e => (if s then Zneg m else Zpos m, e)
  | _ => (0, 0)
  end.

(** [x > n] for a float [x] and an integer [n]: Python compares the two
    values exactly. *)
Definition float_gt_int (x : spec_float) (n : Z) : bool :=
  let '(m, e) := dyadic x in
  if 0 <=? e then n <? m * 2 ^ e else n * 2 ^ (- e) <? m.

(** [int(x)]: truncation towards zero. *)
Definition int_of_float (x : spec_float) : Z :=
  let '(m, e) := dyadic x in
  if 0 <=? e then m * 2 ^ e else Z.quot m (2 ^ (- e)).

(** [elapsed > current_transition.timeout_ms], for the elapsed
    microseconds [elapsed_us]. *)
Definition timed_out (elapsed_us : Z) (t : WatchdogTransition) : bool :=
  float_gt_int (elapsed_ms elapsed_us) (timeout_ms t).

(** [int(elapsed)] *)
Definition int_ms (elapsed_us : Z) : Z := int_of_float (elapsed_ms elapsed_us).

(** The body of the [for] loop of [check_timeouts] for one item of the
    snapshot [list(self.active_states.items())]. *)
Definition check_timeouts_step (now : datetime)
           (acc : WatchdogStateMachine * list (string * ref * Z))
           (item : string * ref)
  : WatchdogStateMachine * list (string * ref * Z) :=
  let '(sm, timeouts) := acc in
  let '(state_name, r) := item in
  match objects sm !! r with
  | None => acc
  | Some state =>
      match last_activation_time state,
            transitions state !! current_transition_index state with
      | Some last, Some current_transition =>
          let elapsed_us := now - last in
          if timed_out elapsed_us current_transition then
            (deactivate_state sm state_name (TIMEOUT_after elapsed_us) now,
             timeouts ++ [(state_name, r, int_ms elapsed_us)])
          else acc
      | _, _ => acc
      end
  end.

(** [check_timeouts()] *)
Definition check_timeouts (sm : WatchdogStateMachine) (now : datetime)
  : WatchdogStateMachine * list (string * ref * Z) :=
  fold_left (check_timeouts_step now) (active_states sm) (sm, []).

(** [get_state_status(state_name)].  The dictionary it returns, with the
    keys that are set only on some paths as options.  [elapsed_ms] is
    [int(elapsed)]. *)
Record StateStatus := mkStatus {
  status_name : string;
  status_start_node : string;
  status_description : string;
  status_is_active : bool;
  status_transitions : list (string * Z * string);
  status_current_transition_index : option nat;
  status_current_target : option string;
  status_current_timeout : option Z;
  status_elapsed_ms : option Z;
  status_remaining_ms : option Z
}.

Definition get_state_status (sm : WatchdogStateMachine)
           (state_name : string) (now : datetime) : option StateStatus :=
  match dict_get (states sm) state_name with
  | None => None
  | Some r =>
      match objects sm !! r with
      | None => None
      | Some state =>
          let current :=
            if is_active state
            then transitions state !! current_transition_index state
            else None in
          let elapsed :=
            match current, last_activation_time state with
            | Some _, Some last => Some (int_ms (now - last))
            | _, _ => None
            end in
          Some (mkStatus
                  (name state) (start_node state) (description state)
                  (is_active state)
                  (map (fun t => (target_node t, timeout_ms t,
                                  transition_description t))
                       (transitions state))
                  (if is_active state
                   then Some (current_transition_index state) else None)
                  (option_map target_node current)
                  (option_map timeout_ms current)
                  elapsed
                  (match current, elapsed with
                   | Some current_transition, Some e =>
                       Some (Z.max 0 (timeout_ms current_transition - e))
                   | _, _ => None
                   end))
      end
  end.

(* ===================================================================== *)
(** ** notifier.py: the two state notifications                           *)
(* ===================================================================== *)

(** What [send_notification] is given: the message, field by field. *)
Inductive Notification :=
| StateCompleted (state_name start node_name descr : string) (time : datetime)
| StateTimeout (state_name start : string)
               (waiting_for : option string) (timeout : option Z)
               (elapsed_ms : Z) (descr : string) (time : datetime).

(** [send_state_completed(state_name, state, node_name)]: reads the object
    as it is when the notification is built. *)
Definition send_state_completed (sm : WatchdogStateMachine)
           (state_name : string) (state : ref) (node_name : string)
           (now : datetime) : list Notification :=
  match objects sm !! state with
  | None => []
  | Some st =>
      [StateCompleted state_name (start_node st) node_name (description st) now]
  end.

(** [send_state_timeout(state_name, state, elapsed_ms)] *)
Definition send_state_timeout (sm : WatchdogStateMachine)
           (state_name : string) (state : ref) (elapsed_ms : Z)
           (now : datetime) : list Notification :=
  match objects sm !! state with
  | None => []
  | Some st =>
      let current_transition :=
        transitions st !! current_transition_index st in
      [StateTimeout state_name (start_node st)
                    (option_map target_node current_transition)
                    (option_map timeout_ms current_transition)
                    elapsed_ms (description st) now]
  end.

(* ===================================================================== *)
(** ** log_monitor.py: feeding the state machine                          *)
(* ===================================================================== *)

(** First loop of [_check_state_machine_rules]: [activate_state] for every
    key of [states]. *)
Fixpoint trigger_loop (items : list (string * ref)) (sm : WatchdogStateMachine)
         (node_name : string) (now : datetime) : WatchdogStateMachine :=
  match items with
  | [] => sm
  | (state_name, _) :: rest =>
      trigger_loop rest (fst (activate_state sm state_name node_name now))
                   node_name now
  end.

Definition trigger (sm : WatchdogStateMachine) (node_name : string)
           (now : datetime) : WatchdogStateMachine :=
  trigger_loop (states sm) sm node_name now.

(** Body of the second loop, for one item [(state_name, state)] of the
    copy returned by [get_active_states()]. *)
Definition advance_body (sm : WatchdogStateMachine) (item : string * ref)
           (node_name : string) (now : datetime)
  : WatchdogStateMachine * list Notification :=
  let '(state_name, state) := item in
  let '(sm1, result) := check_transition sm state_name node_name now in
  (sm1,
   match result with
   | Some (true, _) => send_state_completed sm1 state_name state node_name now
   | _ => []
   end).

Fixpoint advance_loop (items : list (string * ref)) (sm : WatchdogStateMachine)
         (node_name : string) (now : datetime)
  : WatchdogStateMachine * list Notification :=
  match items with
  | [] => (sm, [])
  | item :: rest =>
      let '(sm1, sent) := advance_body sm item node_name now in
      let '(sm2, out) := advance_loop rest sm1 node_name now in
      (sm2, sent ++ out)
  end.

Definition advance (sm : WatchdogStateMachine) (node_name : string)
           (now : datetime) : WatchdogStateMachine * list Notification :=
  advance_loop (active_states sm) sm node_name now.

(** [_check_state_machine_rules(node_name, log_line)] *)
Definition check_state_machine_rules (sm : WatchdogStateMachine)
           (node_name : string) (now : datetime)
  : WatchdogStateMachine * list Notification :=
  advance (trigger sm node_name now) node_name now.

(** The state-machine part of [_check_timeouts]: the notifications are
    sent once [check_timeouts] has returned. *)
Fixpoint send_timeouts (sm : WatchdogStateMachine)
         (timeouts : list (string * ref * Z)) (now : datetime)
  : list Notification :=
  match timeouts with
  | [] => []
  | (state_name, state, elapsed_ms) :: rest =>
      send_state_timeout sm state_name state elapsed_ms now
      ++ send_timeouts sm rest now
  end.

Definition sweep (sm : WatchdogStateMachine) (now : datetime)
  : WatchdogStateMachine * list Notification :=
  let '(sm', timeouts) := check_timeouts sm now in
  (sm', send_timeouts sm' timeouts now).

(** One step of the engine as the monitor loop drives it. *)
Inductive Event :=
| Node (node_name : string) (now : datetime)
| Tick (now : datetime).

Definition step (sm : WatchdogStateMachine) (e : Event)
  : WatchdogStateMachine * list Notification :=
  match e with
  | Node n now => check_state_machine_rules sm n now
  | Tick now => sweep sm now
  end.

Fixpoint run (sm : WatchdogStateMachine) (es : list Event)
  : WatchdogStateMachine * list Notification :=
  match es with
  | [] => (sm, [])
  | e :: es' =>
      let '(sm1, out1) := step sm e in
      let '(sm2, out2) := run sm1 es' in
      (sm2, out1 ++ out2)
  end.

(** The rule of the scenarios: start "A", then "B" within 100 ms, then "C"
    within 200 ms. *)
Definition rule_R : WatchdogState :=
  mkState "R" "A"
          [mkTransition "B" 100 "Transition to B";
           mkTransition "C" 200 "Final transition to C"]
          "two steps" false None 0.

(** A heartbeat rule: start "X", single step back to "X". *)
Definition rule_H : WatchdogState :=
  mkState "H" "X" [mkTransition "X" 1000 "Final transition to X"]
          "heartbeat" false None 0.

Definition machine_R : WatchdogStateMachine := add_state init rule_R.
Definition machine_H : WatchdogStateMachine := add_state init rule_H.


(* ===================================================================== *)
(** ** log_monitor.py: the incremental reader                             *)
(* ===================================================================== *)

(** The log is a UTF-8 file opened as text.  It is the list of its
    characters, taken among the code points below 256: those below 128
    are encoded on one byte, the others on two.  The handle
    [self.log_file] is its position, the byte offset that [tell()]
    returns and [seek()] takes.  [read()] decodes the bytes from the
    position on, which fails ([UnicodeDecodeError]) when the position is
    inside a character, and translates the line ends ("\r\n" and "\r"
    become "\n").  Errors of the file system are outside the model. *)
Module Reader.

Definition line := list ascii.

Definition newline : ascii := "010"%char.

Definition carriage_return : ascii := "013"%char.

Definition is_newline (c : ascii) : bool := Ascii.eqb c newline.

(** [str.isspace] on one character (code points below 256). *)
Definition isspace (c : ascii) : bool :=
  let n := nat_of_ascii c in
  ((9 <=? n) && (n <=? 13) || (28 <=? n) && (n <=? 32)
   || (n =? 133) || (n =? 160))%nat.

Fixpoint lstrip (s : line) : line :=
  match s with
  | [] => []
  | c :: s' => if isspace c then lstrip s' else s
  end.

(** [str.strip()] *)
Definition strip (s : line) : line := rev (lstrip (rev (lstrip s))).

(** Truth value of [line.strip()]. *)
Definition keep (s : line) : bool :=
  match strip s with [] => false | _ => true end.

(** [str.split('\n')]: never empty; the last element is what follows the
    last newline. *)
Fixpoint split (s : list ascii) : list line :=
  match s with
  | [] => [[]]
  | c :: s' =>
      if is_newline c then [] :: split s'
      else match split s' with
           | [] => [[c]]
           | l :: ls => (c :: l) :: ls
           end
  end.

(** [str.endswith('\n')] *)
Definition endswith_newline (s : list ascii) : bool :=
  match rev s with
  | c :: _ => is_newline c
  | [] => false
  end.

(** The number of bytes of a character, and of a text, in the file. *)
Definition utf8_length (c : ascii) : nat :=
  if (nat_of_ascii c <? 128)%nat then 1%nat else 2%nat.

Definition byte_length (s : list ascii) : nat :=
  fold_right (fun c n => (utf8_length c + n)%nat) 0%nat s.

(** What the decoder makes of the bytes of [file] from the byte offset
    [p] on: the characters from there, or [None] (it raises) when [p]
    falls on the second byte of a character. *)
Fixpoint decode_from (p : nat) (file : list ascii) : option (list ascii) :=
  match file with
  | [] => Some []
  | c :: file' =>
      if (p =? 0)%nat then Some file
      else if (utf8_length c <=? p)%nat
           then decode_from (p - utf8_length c) file'
           else None
  end.

(** The translation of line ends that a file opened with [open(path, 'r')]
    applies to what it decodes. *)
Fixpoint translate (s : list ascii) : list ascii :=
  match s with
  | [] => []
  | c :: s' =>
      if Ascii.eqb c carriage_return then
        match s' with
        | c' :: s'' =>
            if is_newline c' then newline :: translate s''
            else newline :: translate s'
        | [] => [newline]
        end
      else c :: translate s'
  end.

(** [_read_new_log_lines()].  [file] is the content of the log file at
    the time of the call; [log_file] is [self.log_file], [None] or the
    open handle, which is its position.  Returns the lines and the handle
    after the call.  [seek(0, SEEK_END)] moves the handle before the
    early return.  When [read()] raises, the [except] branch prints and
    the method returns no line; the bytes up to the end have been read
    by then, which is where the handle stands.  The position is moved
    back by [len(incomplete_line)], a number of characters. *)
Definition read_new_log_lines (file : list ascii) (log_file : option nat)
  : list line * option nat :=
  match log_file with
  | None => ([], None)
  | Some current_position =>
      let end_position := byte_length file in
      if (end_position <=? current_position)%nat
      then ([], Some end_position)
      else
        match decode_from current_position file with
        | None => ([], Some end_position)
        | Some decoded =>
            let new_content := translate decoded in
            match new_content with
            | [] => ([], Some end_position)
            | _ :: _ =>
                let lines := split new_content in
                if negb (endswith_newline new_content)
                   && (1 <? length lines)%nat
                then
                  let incomplete_line := List.last lines [] in
                  (List.filter keep (List.removelast lines),
                   Some (end_position - length incomplete_line)%nat)
                else (List.filter keep lines, Some end_position)
            end
        end
  end.

(** A text made of the newline-terminated lines [ls] followed by the
    unterminated rest [t]. *)
Definition join (ls : list line) (t : line) : list ascii :=
  concat (map (fun l => l ++ [newline]) ls) ++ t.

Definition no_newline (l : line) : Prop := Forall (fun c => is_newline c = false) l.

(** A text without carriage return, which the translation of line ends
    leaves as it is; a text of one-byte characters. *)
Definition no_cr (s : list ascii) : Prop :=
  Forall (fun c => Ascii.eqb c carriage_return = false) s.

Definition one_byte (s : list ascii) : Prop :=
  Forall (fun c => utf8_length c = 1%nat) s.

Definition text (s : string) : list ascii := list_ascii_of_string s.

End Reader.

(* ===================================================================== *)
(** ** Vocabulary of the statements                                    *)
(* ===================================================================== *)

(** What holds of a machine built with [add_state] and driven by the
    monitor: both dictionaries have distinct keys; [states] points to
    objects carrying their key as name; [active_states] is the part of
    [states] whose objects are flagged active; and an object flagged
    active is the one [active_states] holds for its name, so that two
    live objects never stand for the same rule. *)
Record wf (sm : WatchdogStateMachine) : Prop := mk_wf {
  wf_states_keys : NoDup (dict_keys (states sm));
  wf_active_keys : NoDup (dict_keys (active_states sm));
  wf_states_obj : ∀ n r, dict_get (states sm) n = Some r →
                         ∃ st, objects sm !! r = Some st ∧ name st = n;
  wf_active_states : ∀ n r, dict_get (active_states sm) n = Some r →
                            dict_get (states sm) n = Some r;
  wf_active_obj : ∀ n r, dict_get (active_states sm) n = Some r →
                         ∃ st, objects sm !! r = Some st ∧ is_active st = true;
  wf_live : ∀ r st, objects sm !! r = Some st → is_active st = true →
                    dict_get (active_states sm) (name st) = Some r
}.

(** The part of the history that concerns one rule. *)
Definition history_of (n : string)
           (h : list (string * HistoryEvent * datetime))
  : list (string * HistoryEvent * datetime) :=
  List.filter (fun e => String.eqb (fst (fst e)) n) h.

(** The rule a notification is about. *)
Definition notified_name (x : Notification) : string :=
  match x with
  | StateCompleted n _ _ _ _ => n
  | StateTimeout n _ _ _ _ _ _ => n
  end.

Definition notifications_of (n : string) (out : list Notification)
  : list Notification :=
  List.filter (fun x => String.eqb (notified_name x) n) out.

(** The elapsed time a notification carries, if it carries one. *)
Definition carried_elapsed_ms (x : Notification) : option Z :=
  match x with
  | StateCompleted _ _ _ _ _ => None
  | StateTimeout _ _ _ _ e _ _ => Some e
  end.

(** The target a timeout notification names. *)
Definition expected_target (x : Notification) : option string :=
  match x with
  | StateCompleted _ _ _ _ _ => None
  | StateTimeout _ _ w _ _ _ _ => w
  end.

(** [same_rule n sm sm']: nothing that concerns rule [n] differs between
    [sm] and [sm']. *)
Definition same_rule (n : string) (sm sm' : WatchdogStateMachine) : Prop :=
  states sm' = states sm
  ∧ (∀ r, dict_get (states sm) n = Some r →
          objects sm' !! r = objects sm !! r)
  ∧ dict_get (active_states sm') n = dict_get (active_states sm) n
  ∧ history_of n (state_history sm') = history_of n (state_history sm).

(** The rules a list returned by [check_timeouts] reports. *)
Definition timeout_names (ts : list (string * ref * Z)) : list string :=
  map (fun t => fst (fst t)) ts.

(** The entries of such a list that report rule [n]. *)
Definition timeouts_of (n : string) (ts : list (string * ref * Z))
  : list (string * ref * Z) :=
  List.filter (fun t => String.eqb (fst (fst t)) n) ts.

(** An object the loop of [check_timeouts] passes over at instant [now]:
    no activation time, no pending step, or a step within its timeout. *)
Definition within_timeout (now : datetime) (st : WatchdogState) : bool :=
  match last_activation_time st,
        transitions st !! current_transition_index st with
  | Some last, Some t => negb (timed_out (now - last) t)
  | _, _ => true
  end.

(** The active set holds a rule name once, and two objects flagged active
    under one name are one object. *)
Definition at_most_one_instance (sm : WatchdogStateMachine) : Prop :=
  NoDup (dict_keys (active_states sm))
  ∧ ∀ r1 r2 st1 st2,
      objects sm !! r1 = Some st1 → objects sm !! r2 = Some st2 →
      is_active st1 = true → is_active st2 = true →
      name st1 = name st2 → r1 = r2.

(** Rule R once "A" has been seen at instant 0: the machine, and the
    object of the rule in it. *)
Definition machine_R_waiting_B : WatchdogStateMachine :=
  fst (run machine_R [Node "A" 0]).

Definition rule_R_waiting_B : WatchdogState :=
  mkState "R" "A"
          [mkTransition "B" 100 "Transition to B";
           mkTransition "C" 200 "Final transition to C"]
          "two steps" true (Some 0) 0.

(** A notification of completion, as opposed to any other. *)
Definition is_completion (x : Notification) : Prop :=
  match x with
  | StateCompleted _ _ _ _ _ => True
  | StateTimeout _ _ _ _ _ _ _ => False
  end.

(** Rule R once "A" then "B" have been seen: it waits for "C". *)
Definition machine_R_waiting_C : WatchdogStateMachine :=
  fst (run machine_R [Node "A" 0; Node "B" 50000]).

Definition rule_R_waiting_C : WatchdogState :=
  mkState "R" "A"
          [mkTransition "B" 100 "Transition to B";
           mkTransition "C" 200 "Final transition to C"]
          "two steps" true (Some 50000) 1.

(** A rule whose single step waits for its own start node [s], with no
    instance running; [d] is its description. *)
Definition idle_heartbeat (s d : string) (st : WatchdogState) : Prop :=
  is_active st = false ∧ start_node st = s ∧ description st = d
  ∧ ∃ t, transitions st = [t] ∧ target_node t = s.

(** What one event adds to the history of such a rule [n], and what it
    has the notifier sent about it. *)
Definition heartbeat_history (n s : string) (e : Event)
  : list (string * HistoryEvent * datetime) :=
  match e with
  | Node x now =>
      if String.eqb x s
      then [(n, ACTIVATED_by x, now); (n, COMPLETED_by x, now)] else []
  | Tick _ => []
  end.

Definition heartbeat_notifications (n s d : string) (e : Event)
  : list Notification :=
  match e with
  | Node x now =>
      if String.eqb x s then [StateCompleted n s x d now] else []
  | Tick _ => []
  end.

(** Two objects that stand for the same rule definition: the fields the
    loader sets and the engine never assigns. *)
Definition same_definition (st st' : WatchdogState) : Prop :=
  name st' = name st ∧ start_node st' = start_node st
  ∧ transitions st' = transitions st ∧ description st' = description st.

(** [keeps_rules sm sm']: the registry, the rule definitions and the
    history already written are in [sm'] as they are in [sm]. *)
Definition keeps_rules (sm sm' : WatchdogStateMachine) : Prop :=
  states sm' = states sm
  ∧ length (objects sm') = length (objects sm)
  ∧ (∀ r st, objects sm !! r = Some st →
             ∃ st', objects sm' !! r = Some st' ∧ same_definition st st')
  ∧ ∃ h, state_history sm' = state_history sm ++ h.

(** An object in a state the engine leaves it in: it has steps; active,
    it waits for one of them and its clock is set; inactive, its index
    and clock are reset. *)
Definition steady_state (st : WatchdogState) : Prop :=
  transitions st ≠ []
  ∧ if is_active st
    then (current_transition_index st < length (transitions st))%nat
         ∧ last_activation_time st ≠ None
    else current_transition_index st = 0%nat
         ∧ last_activation_time st = None.

Definition steady (sm : WatchdogStateMachine) : Prop :=
  ∀ r st, objects sm !! r = Some st → steady_state st.

(** The events that walk the steps [ts] in order, at the instants
    [times]; what they add to the history of rule [n]: a TRANSITION to
    the following target for every step but the last, COMPLETED for the
    last; and what they have notified for it. *)
Definition chain_events (ts : list WatchdogTransition) (times : list datetime)
  : list Event :=
  zip_with (fun t now => Node (target_node t) now) ts times.

Fixpoint chain_history (n : string) (ts : list WatchdogTransition)
         (times : list datetime)
  : list (string * HistoryEvent * datetime) :=
  match ts, times with
  | [t], now :: _ => [(n, COMPLETED_by (target_node t), now)]
  | _ :: ((t' :: _) as rest), now :: times' =>
      (n, TRANSITION_to (target_node t'), now) :: chain_history n rest times'
  | _, _ => []
  end.

Fixpoint chain_notifications (n s d : string) (ts : list WatchdogTransition)
         (times : list datetime) : list Notification :=
  match ts, times with
  | [t], now :: _ => [StateCompleted n s (target_node t) d now]
  | _ :: ((_ :: _) as rest), _ :: times' =>
      chain_notifications n s d rest times'
  | _, _ => []
  end.

(* ===================================================================== *)
(** ** The legacy rules: config.py, log_monitor.py, notifier.py           *)
(* ===================================================================== *)

(** A [WatchdogRule] object is reached through [config.rules] only, and is
    assigned in place by the two loops below; the dictionary holds the
    objects themselves here.  A notification is the message given to
    [send_notification], field by field; elapsed times, formatted with one
    decimal in the source, are kept in microseconds. *)
Module Legacy.

Record WatchdogRule := mkRule {
  name : string;
  start_node : string;
  timeout_ms : Z;
  end_node : string;
  description : string;
  last_start_time : option datetime;
  is_active : bool
}.

(** [WatchdogRule.__init__] *)
Definition new_rule (name start_node : string) (timeout_ms : Z)
           (end_node description : string) : WatchdogRule :=
  mkRule name start_node timeout_ms end_node description None false.

Definition set_last_start_time (v : option datetime) (rule : WatchdogRule) :=
  mkRule (name rule) (start_node rule) (timeout_ms rule) (end_node rule)
         (description rule) v (is_active rule).

Definition set_is_active (v : bool) (rule : WatchdogRule) :=
  mkRule (name rule) (start_node rule) (timeout_ms rule) (end_node rule)
         (description rule) (last_start_time rule) v.

(** [rule.description or 'N/A'] *)
Definition or_NA (d : string) : string :=
  if String.eqb d EmptyString then "N/A" else d.

Inductive Alert :=
| RuleActivated (rule_name descr start : string) (timeout : Z) (time : datetime)
| RuleCompleted (rule_name end_ : string) (elapsed_us timeout : Z)
                (time : datetime)
| TimeoutAlert (rule_name descr start end_ : string) (timeout elapsed_us : Z)
               (last_start : option datetime) (time : datetime).

(** [send_rule_activated], [send_rule_completed], [send_timeout_alert] *)
Definition send_rule_activated (rule_name : string) (rule : WatchdogRule)
           (now : datetime) : Alert :=
  RuleActivated rule_name (or_NA (description rule)) (start_node rule)
                (timeout_ms rule) now.

Definition send_rule_completed (rule_name : string) (rule : WatchdogRule)
           (elapsed_us : Z) (now : datetime) : Alert :=
  RuleCompleted rule_name (end_node rule) elapsed_us (timeout_ms rule) now.

Definition send_timeout_alert (rule_name : string) (rule : WatchdogRule)
           (elapsed_us : Z) (now : datetime) : Alert :=
  TimeoutAlert rule_name (or_NA (description rule)) (start_node rule)
               (end_node rule) (timeout_ms rule) elapsed_us
               (last_start_time rule) now.

(** The body of the loop of [_check_legacy_rules] for one rule.  [None]
    is the [TypeError] of [current_time - rule.last_start_time] when the
    rule is active without a start time; it is raised before the rule is
    assigned. *)
Definition check_rule (rule_name : string) (rule : WatchdogRule)
           (node_name : string) (now : datetime)
  : option (WatchdogRule * list Alert) :=
  if String.eqb (start_node rule) (end_node rule)
     && String.eqb node_name (start_node rule)
  then
    if is_active rule
    then Some (set_last_start_time (Some now) rule, [])
    else Some (set_last_start_time (Some now) (set_is_active true rule), [])
  else if negb (String.eqb (start_node rule) (end_node rule)) then
    if String.eqb node_name (start_node rule) && negb (is_active rule) then
      let rule' := set_last_start_time (Some now) (set_is_active true rule) in
      Some (rule', [send_rule_activated rule_name rule' now])
    else if String.eqb node_name (end_node rule) && is_active rule then
      match last_start_time rule with
      | None => None
      | Some last =>
          Some (set_last_start_time None (set_is_active false rule),
                [send_rule_completed rule_name rule (now - last) now])
      end
    else Some (rule, [])
  else Some (rule, []).

(** [_check_legacy_rules(node_name, log_line)]: the rules after the call,
    the notifications sent, and whether the call raised (the rules after
    the one that raises are not visited). *)
Fixpoint check_legacy_rules (rules : list (string * WatchdogRule))
         (node_name : string) (now : datetime)
  : list (string * WatchdogRule) * list Alert * bool :=
  match rules with
  | [] => ([], [], false)
  | (rule_name, rule) :: rest =>
      match check_rule rule_name rule node_name now with
      | None => (rules, [], true)
      | Some (rule', sent) =>
          let '(rest', out, raised) := check_legacy_rules rest node_name now in
          ((rule_name, rule') :: rest', sent ++ out, raised)
      end
  end.

(** [elapsed_ms > rule.timeout_ms], for the elapsed microseconds
    [elapsed_us]; [elapsed_ms] is the float
    [total_seconds() * 1000]. *)
Definition timed_out (elapsed_us : Z) (rule : WatchdogRule) : bool :=
  float_gt_int (elapsed_ms elapsed_us) (timeout_ms rule).

(** The body of the first loop of [_check_timeouts] for one rule. *)
Definition check_rule_timeout (rule_name : string) (rule : WatchdogRule)
           (now : datetime) : WatchdogRule * list Alert :=
  match is_active rule, last_start_time rule with
  | true, Some last =>
      if timed_out (now - last) rule then
        (set_last_start_time None (set_is_active false rule),
         [send_timeout_alert rule_name rule (now - last) now])
      else (rule, [])
  | _, _ => (rule, [])
  end.

(** The first loop of [_check_timeouts]. *)
Fixpoint check_timeouts (rules : list (string * WatchdogRule)) (now : datetime)
  : list (string * WatchdogRule) * list Alert :=
  match rules with
  | [] => ([], [])
  | (rule_name, rule) :: rest =>
      let '(rule', sent) := check_rule_timeout rule_name rule now in
      let '(rest', out) := check_timeouts rest now in
      ((rule_name, rule') :: rest', sent ++ out)
  end.

(** The rule a notification is about. *)
Definition alert_name (a : Alert) : string :=
  match a with
  | RuleActivated n _ _ _ _ => n
  | RuleCompleted n _ _ _ _ => n
  | TimeoutAlert n _ _ _ _ _ _ _ => n
  end.

Definition alerts_of (n : string) (out : list Alert) : list Alert :=
  List.filter (fun a => String.eqb (alert_name a) n) out.

(** What the code keeps of a rule: active, it has a start time. *)
Definition timed (rule : WatchdogRule) : Prop :=
  is_active rule = true → last_start_time rule ≠ None.

Definition all_timed (rules : list (string * WatchdogRule)) : Prop :=
  Forall (fun kv => timed (snd kv)) rules.

(** One step of the legacy side as the monitor loop drives it. *)
Definition step (rules : list (string * WatchdogRule)) (e : Event)
  : list (string * WatchdogRule) * list Alert * bool :=
  match e with
  | Node node_name now => check_legacy_rules rules node_name now
  | Tick now => (check_timeouts rules now, false)
  end.

(** Two rules as the loader makes them: a heartbeat on "X" and a job
    from "S" to "E". *)
Definition demo_rules : list (string * WatchdogRule) :=
  [("beat", new_rule "beat" "X" 1000 "X" "heartbeat");
   ("job", new_rule "job" "S" 500 "E" "a job")].

(** The job rule, started at instant 0. *)
Definition job_started : WatchdogRule :=
  mkRule "job" "S" 500 "E" "a job" (Some 0) true.

End Legacy.

(* ===================================================================== *)
(** ** notifier.py: delivery with fallback                                *)
(* ===================================================================== *)

(** The fields of [WatchdogConfig] the notifier reads are [None] or a
    string.  What the two HTTP senders answer is not part of the program:
    [Transport] gives, for the credentials a sender was built with and a
    message, what its [send_message] returns ([False] also when the call
    raises, which [send_message] catches). *)
Module Notifier.

Record Settings := mkSettings {
  bot_token : option string;
  chat_id : option string;
  webhook_key : option string;
  default_ext_notify : option string
}.

(** Truth value of a field. *)
Definition truthy (v : option string) : bool :=
  match v with
  | Some s => negb (String.eqb s EmptyString)
  | None => false
  end.

(** [x and y], [x or y] on such values. *)
Definition py_and (x y : option string) : option string :=
  if truthy x then y else x.

Definition py_or (x y : option string) : option string :=
  if truthy x then x else y.

(** [config.is_notification_configured()]: the value, not its truth. *)
Definition is_notification_configured (c : Settings) : option string :=
  py_or (py_and (bot_token c) (chat_id c)) (webhook_key c).

(** [config.get_available_notifiers()] *)
Definition get_available_notifiers (c : Settings) : list string :=
  (if truthy (bot_token c) && truthy (chat_id c) then ["telegram"] else [])
  ++ (if truthy (webhook_key c) then ["wechat"] else []).

(** The [send_message] of the two platforms, as functions of the
    credentials the sender was built with and of the message.  A call
    that raises counts as [False]: the loop of [send_notification] goes
    on to the next platform in both cases. *)
Record Transport := mkTransport {
  telegram_send : string → string → string → bool;
  wechat_send : string → string → bool
}.

(** [WatchdogNotifier]: the two senders it has built so far, each with
    the credentials it was built with. *)
Record WatchdogNotifier := mkNotifier {
  telegram_notifier : option (string * string);
  wechat_notifier : option string
}.

(** [_get_telegram_notifier()], [_get_wechat_notifier()]: the notifier
    after the call; the sender returned is its field. *)
Definition get_telegram_notifier (w : WatchdogNotifier) (c : Settings)
  : WatchdogNotifier :=
  match telegram_notifier w, bot_token c, chat_id c with
  | None, Some b, Some i =>
      if truthy (Some b) && truthy (Some i)
      then mkNotifier (Some (b, i)) (wechat_notifier w) else w
  | _, _, _ => w
  end.

Definition get_wechat_notifier (w : WatchdogNotifier) (c : Settings)
  : WatchdogNotifier :=
  match wechat_notifier w, webhook_key c with
  | None, Some k =>
      if truthy (Some k)
      then mkNotifier (telegram_notifier w) (Some k) else w
  | _, _ => w
  end.

Definition mem (p : string) (l : list string) : bool :=
  existsb (String.eqb p) l.

(** The order in which [send_notification] tries the platforms. *)
Definition try_order (c : Settings) : list string :=
  let available_platforms := get_available_notifiers c in
  let first :=
    match default_ext_notify c with
    | Some d =>
        if truthy (Some d) && mem d available_platforms then [d] else []
    | None => []
    end in
  fold_left (fun order platform =>
               if mem platform order then order else order ++ [platform])
            available_platforms first.

(** The loop of [send_notification] over the platforms to try: the
    notifier afterwards, the platforms whose [send_message] was called, in
    order, and the result. *)
Fixpoint try_platforms (T : Transport) (c : Settings) (w : WatchdogNotifier)
         (message : string) (order : list string)
  : WatchdogNotifier * list string * bool :=
  match order with
  | [] => (w, [], false)
  | platform :: rest =>
      if String.eqb platform "telegram" then
        let w1 := get_telegram_notifier w c in
        match telegram_notifier w1 with
        | Some (b, i) =>
            if telegram_send T b i message then (w1, [platform], true)
            else
              let '(w2, tried, ok) := try_platforms T c w1 message rest in
              (w2, platform :: tried, ok)
        | None => try_platforms T c w1 message rest
        end
      else if String.eqb platform "wechat" then
        let w1 := get_wechat_notifier w c in
        match wechat_notifier w1 with
        | Some k =>
            if wechat_send T k message then (w1, [platform], true)
            else
              let '(w2, tried, ok) := try_platforms T c w1 message rest in
              (w2, platform :: tried, ok)
        | None => try_platforms T c w1 message rest
        end
      else try_platforms T c w message rest
  end.

(** [send_notification(message)] *)
Definition send_notification (T : Transport) (c : Settings)
           (w : WatchdogNotifier) (message : string)
  : WatchdogNotifier * list string * bool :=
  match get_available_notifiers c with
  | [] => (w, [], false)
  | _ :: _ => try_platforms T c w message (try_order c)
  end.

(** What the sender of a platform answers, with the credentials it has
    or would be built with. *)
Definition delivers (T : Transport) (c : Settings) (w : WatchdogNotifier)
           (message : string) (platform : string) : bool :=
  if String.eqb platform "telegram" then
    match telegram_notifier (get_telegram_notifier w c) with
    | Some (b, i) => telegram_send T b i message
    | None => false
    end
  else if String.eqb platform "wechat" then
    match wechat_notifier (get_wechat_notifier w c) with
    | Some k => wechat_send T k message
    | None => false
    end
  else false.

(** The platforms up to the first that delivers, it included. *)
Fixpoint until_delivered (d : string → bool) (order : list string)
  : list string :=
  match order with
  | [] => []
  | p :: rest => if d p then [p] else p :: until_delivered d rest
  end.

End Notifier.

(* ===================================================================== *)
(** ** config.py: the rule and state lines of the configuration file      *)
(* ===================================================================== *)

Module Config.

Section int.
(** Python's [int] on a string; [None] is its [ValueError]. *)
Variable int : string → option Z.

(** [_parse_rule_config(key, value, line_num)], from [parts] on (the
    value without its braces, split at the commas, every part stripped).
    [rules] is [self.rules]. *)
Definition parse_rule_config (rules : list (string * Legacy.WatchdogRule))
           (key : string) (parts : list string)
  : list (string * Legacy.WatchdogRule) :=
  if (length parts <? 3)%nat then rules
  else
    match parts with
    | start_node :: p :: end_node :: rest =>
        match int p with
        | None => rules
        | Some timeout_ms =>
            let description :=
              match rest with d :: _ => d | [] => EmptyString end in
            dict_set rules key
                     (Legacy.new_rule key start_node timeout_ms end_node
                                      description)
        end
    | _ => rules
    end.

(** The [while] loop of [_parse_state_config]; [rest] is [parts[i:]], and
    the loop runs while it has two parts or more. *)
Fixpoint parse_transitions (rest : list string) : list WatchdogTransition :=
  match rest with
  | p :: end_node :: rest' =>
      match int p with
      | None => []
      | Some timeout_ms =>
          match rest' with
          | next :: _ =>
              match int next with
              | Some _ =>
                  mkTransition end_node timeout_ms
                               ("Transition to " ++ end_node)%string
                  :: parse_transitions rest'
              | None =>
                  [mkTransition end_node timeout_ms
                                ("Final transition to " ++ end_node)%string]
              end
          | [] =>
              [mkTransition end_node timeout_ms
                            ("Final transition to " ++ end_node)%string]
          end
      end
  | _ => []
  end.

(** [WatchdogState.__init__] *)
Definition new_state (name start_node : string)
           (transitions : list WatchdogTransition) (description : string)
  : WatchdogState :=
  mkState name start_node transitions description false None 0.

(** [_parse_state_config(key, value, line_num)], from [parts] on. *)
Definition parse_state_config (sm : WatchdogStateMachine)
           (key : string) (parts : list string) : WatchdogStateMachine :=
  if (length parts <? 3)%nat then sm
  else
    match parts with
    | [] => sm
    | start_node :: rest =>
        let transitions := parse_transitions rest in
        let desc_start_idx := (1 + length transitions * 2)%nat in
        let description :=
          match parts !! desc_start_idx with
          | Some d => d
          | None => EmptyString
          end in
        match transitions with
        | [] => sm
        | _ :: _ =>
            add_state sm (new_state key start_node transitions description)
        end
    end.

(** The dispatch of [load_config] for one key-value line: the section it
    stands in, its key and the parts of its value.  The lines of the
    sections "notification" and "monitoring" set other fields. *)
Definition load_line
           (cfg : list (string * Legacy.WatchdogRule) * WatchdogStateMachine)
           (l : option string * string * list string)
  : list (string * Legacy.WatchdogRule) * WatchdogStateMachine :=
  let '(current_section, key, parts) := l in
  match current_section with
  | Some s =>
      if String.eqb s "notification" then cfg
      else if String.eqb s "monitoring" then cfg
      else if String.eqb s "rules"
      then (parse_rule_config (fst cfg) key parts, snd cfg)
      else if String.eqb s "states"
      then (fst cfg, parse_state_config (snd cfg) key parts)
      else cfg
  | None => cfg
  end.

(** The rules and the machine of a fresh [WatchdogConfig] after the
    key-value lines [ls]. *)
Definition load (ls : list (option string * string * list string))
  : list (string * Legacy.WatchdogRule) * WatchdogStateMachine :=
  fold_left load_line ls ([], init).

(** A state line written as the format asks: the steps, each with the
    text of its timeout, the timeout and the node. *)
Definition step_parts (steps : list (string * Z * string)) : list string :=
  concat (map (fun s => [fst (fst s); snd s]) steps).

(** The last step is labelled final unless a number follows it. *)
Definition last_is_final (tail : list string) : bool :=
  match tail with
  | [] => true
  | d :: _ => match int d with Some _ => false | None => true end
  end.

Fixpoint labelled (final : bool) (steps : list (string * Z * string))
  : list WatchdogTransition :=
  match steps with
  | [] => []
  | [s] =>
      [mkTransition (snd s) (snd (fst s))
                    ((if final then "Final transition to "
                      else "Transition to ") ++ snd s)%string]
  | s :: steps' =>
      mkTransition (snd s) (snd (fst s)) ("Transition to " ++ snd s)%string
      :: labelled final steps'
  end.
End int.

(** An [int] for the examples: it accepts the non-empty strings of
    decimal digits, on which it agrees with Python's. *)
Fixpoint digits (s : string) (acc : Z) : option Z :=
  match s with
  | EmptyString => Some acc
  | String c s' =>
      let n := nat_of_ascii c in
      if ((48 <=? n) && (n <=? 57))%nat
      then digits s' (10 * acc + Z.of_nat (n - 48))
      else None
  end.

Definition int10 (s : string) : option Z :=
  match s with
  | EmptyString => None
  | _ => digits s 0
  end.

End Config.

(* ===================================================================== *)
(** ** log_monitor.py: log source and status                              *)
(* ===================================================================== *)

Module Monitor.

(** [_prepare_log_source()]: [file] is the text of the file at
    [log_file_path], [None] when it does not exist.  Returns
    [self.log_file] and the result. *)
Definition prepare_log_source (log_file_path : option string)
           (enable_stdout_capture : bool) (file : option (list ascii))
  : option nat * bool :=
  if Notifier.truthy log_file_path then
    match file with
    | Some content => (Some (Reader.byte_length content), true)
    | None => (None, false)
    end
  else if enable_stdout_capture then (None, false)
  else (None, false).

(** The polls of [_monitor_loop] over the successive contents of the log
    file: the lines of each poll and the handle afterwards. *)
Fixpoint polls (log_file : option nat) (files : list (list ascii))
  : list (list Reader.line) * option nat :=
  match files with
  | [] => ([], log_file)
  | file :: files' =>
      let '(new_lines, log_file') := Reader.read_new_log_lines file log_file in
      let '(out, log_file'') := polls log_file' files' in
      (new_lines :: out, log_file'')
  end.

(** [get_status()] *)
Record Status := mkStatus {
  running : bool;
  total_legacy_rules : nat;
  total_state_rules : nat;
  active_legacy_rules : nat;
  active_state_rules : nat;
  active_legacy_rule_names : list string;
  active_state_rule_names : list string;
  log_source : string;
  notification_available : option string
}.

Definition get_status (is_running : bool)
           (rules : list (string * Legacy.WatchdogRule))
           (sm : WatchdogStateMachine) (log_file_path : option string)
           (c : Notifier.Settings) : Status :=
  let active_rules :=
    map fst (List.filter (fun kv => Legacy.is_active (snd kv)) rules) in
  let active_states := dict_keys (active_states sm) in
  mkStatus is_running (length rules) (length (states sm))
           (length active_rules) (length active_states)
           active_rules active_states
           (match log_file_path with
            | Some p => if Notifier.truthy log_file_path then p
                        else "stdout capture"
            | None => "stdout capture"
            end)
           (Notifier.is_notification_configured c).

(** The [state_details] that [get_detailed_status()] adds. *)
Definition state_details (sm : WatchdogStateMachine) (now : datetime)
  : list (string * option StateStatus) :=
  map (fun kv => (fst kv, get_state_status sm (fst kv) now)) (states sm).

End Monitor.

(** What loading keeps of the machine: the engine's invariant, rules with
    steps, nothing active and nothing in the history; and of the legacy
    rules: distinct names, each rule under its own name, inactive and
    without a start time. *)
Definition fresh (sm : WatchdogStateMachine) : Prop :=
  wf sm ∧ steady sm ∧ active_states sm = [] ∧ state_history sm = [].

Definition as_loaded (rules : list (string * Legacy.WatchdogRule)) : Prop :=
  NoDup (dict_keys rules)
  ∧ Forall (fun kv => Legacy.name (snd kv) = fst kv
                      ∧ Legacy.is_active (snd kv) = false
                      ∧ Legacy.last_start_time (snd kv) = None) rules.

(** A log that is only appended to: every content extends the one
    before. *)
Fixpoint grows (file : list ascii) (files : list (list ascii)) : Prop :=
  match files with
  | [] => True
  | file' :: files' => file `prefix_of` file' ∧ grows file' files'
  end.

(** The lines a poll makes of the text it has consumed. *)
Definition lines_of (consumed : list ascii) : list Reader.line :=
  List.filter Reader.keep (Reader.split consumed).

(* ===================================================================== *)
(** ** Facts about dictionaries                                           *)
(* ===================================================================== *)

Section dict_facts.
Context {V : Type}.
Implicit Types (d : list (string * V)) (k : string) (v : V).

Lemma dict_get_set_eq d k v : dict_get (dict_set d k v) k = Some v.
Proof.
  induction d as [|[k' v'] d IH]; simpl.
  - by rewrite String.eqb_refl.
  - destruct (String.eqb k' k) eqn:E; simpl; by rewrite E.
Qed.

Lemma dict_get_set_ne d k k' v :
  k ≠ k' → dict_get (dict_set d k v) k' = dict_get d k'.
Proof.
  intros Hne. induction d as [|[k0 v0] d IH]; simpl.
  - destruct (String.eqb k k') eqn:E; [|done].
    apply String.eqb_eq in E. done.
  - destruct (String.eqb k0 k) eqn:E; simpl.
    + apply String.eqb_eq in E. subst k0.
      destruct (String.eqb k k') eqn:E'; [|done].
      apply String.eqb_eq in E'. done.
    + by rewrite IH.
Qed.

Lemma dict_get_del_eq d k : dict_get (dict_del d k) k = None.
Proof.
  induction d as [|[k' v'] d IH]; simpl; [done|].
  destruct (String.eqb k' k) eqn:E; simpl; [done|]. by rewrite E.
Qed.

Lemma dict_get_del_ne d k k' :
  k ≠ k' → dict_get (dict_del d k) k' = dict_get d k'.
Proof.
  intros Hne. induction d as [|[k0 v0] d IH]; simpl; [done|].
  destruct (String.eqb k0 k) eqn:E; simpl.
  - apply String.eqb_eq in E. subst k0.
    destruct (String.eqb k k') eqn:E'; [|done].
    apply String.eqb_eq in E'. done.
  - by rewrite IH.
Qed.

Lemma dict_get_None d k : dict_get d k = None ↔ k ∉ dict_keys d.
Proof.
  induction d as [|[k' v'] d IH]; simpl.
  - split; [intros _; apply not_elem_of_nil | done].
  - rewrite not_elem_of_cons. destruct (String.eqb k' k) eqn:E.
    + apply String.eqb_eq in E. split; [done | intros [? _]; congruence].
    + apply String.eqb_neq in E. rewrite IH. split; [by intros ? | by intros [_ ?]].
Qed.

Lemma dict_get_Some_elem d k v : dict_get d k = Some v → (k, v) ∈ d.
Proof.
  induction d as [|[k' v'] d IH]; simpl; [done|].
  destruct (String.eqb k' k) eqn:E.
  - apply String.eqb_eq in E. intros [= ->]. subst. apply list_elem_of_here.
  - intros H. apply list_elem_of_further. auto.
Qed.

Lemma dict_get_Some_key d k v : dict_get d k = Some v → k ∈ dict_keys d.
Proof.
  intros H%dict_get_Some_elem. change k with (fst (k, v)).
  by apply list_elem_of_fmap_2.
Qed.

Lemma dict_get_elem d k v :
  NoDup (dict_keys d) → (k, v) ∈ d → dict_get d k = Some v.
Proof.
  induction d as [|[k' v'] d IH]; simpl; intros Hnd Hin.
  - by apply elem_of_nil in Hin.
  - apply NoDup_cons in Hnd as [Hk Hnd].
    apply elem_of_cons in Hin as [[= -> ->]|Hin].
    + by rewrite String.eqb_refl.
    + destruct (String.eqb k' k) eqn:E; [|auto].
      apply String.eqb_eq in E. subst k'. exfalso. apply Hk.
      change k with (fst (k, v)). by apply list_elem_of_fmap_2.
Qed.

Lemma dict_keys_del d k x :
  x ∈ dict_keys (dict_del d k) ↔ x ∈ dict_keys d ∧ x ≠ k.
Proof.
  induction d as [|[k' v'] d IH]; simpl.
  - split; [by intros ?%elem_of_nil | by intros [?%elem_of_nil _]].
  - destruct (String.eqb k' k) eqn:E.
    + apply String.eqb_eq in E. subst k'. rewrite IH, elem_of_cons.
      naive_solver.
    + apply String.eqb_neq in E. simpl. rewrite !elem_of_cons, IH.
      naive_solver.
Qed.

Lemma dict_keys_del_NoDup d k :
  NoDup (dict_keys d) → NoDup (dict_keys (dict_del d k)).
Proof.
  induction d as [|[k' v'] d IH]; simpl; [done|].
  intros [Hk Hnd]%NoDup_cons. destruct (String.eqb k' k); [auto|].
  simpl. apply NoDup_cons. split; [|auto].
  rewrite dict_keys_del. naive_solver.
Qed.

Lemma dict_keys_set d k v x :
  x ∈ dict_keys (dict_set d k v) ↔ x ∈ dict_keys d ∨ x = k.
Proof.
  induction d as [|[k' v'] d IH]; simpl.
  - rewrite elem_of_cons. naive_solver.
  - destruct (String.eqb k' k) eqn:E; simpl.
    + apply String.eqb_eq in E. subst k'. rewrite !elem_of_cons.
      naive_solver.
    + rewrite !elem_of_cons, IH. naive_solver.
Qed.

Lemma dict_keys_set_NoDup d k v :
  NoDup (dict_keys d) → NoDup (dict_keys (dict_set d k v)).
Proof.
  induction d as [|[k' v'] d IH]; simpl.
  - intros _. apply NoDup_singleton.
  - intros [Hk Hnd]%NoDup_cons. destruct (String.eqb k' k) eqn:E; simpl.
    + apply NoDup_cons. done.
    + apply String.eqb_neq in E. apply NoDup_cons. split; [|auto].
      rewrite dict_keys_set. naive_solver.
Qed.
End dict_facts.

(* ===================================================================== *)
(** ** The invariant of the engine                                        *)
(* ===================================================================== *)

Section invariant.
Implicit Types (sm : WatchdogStateMachine) (n : string) (r : ref)
         (st : WatchdogState) (f : WatchdogState → WatchdogState).

Lemma wf_init : wf init.
Proof.
  constructor; simpl; try done; apply NoDup_nil_2.
Qed.

Lemma wf_ref_inj sm n n' r :
  wf sm → dict_get (states sm) n = Some r →
  dict_get (states sm) n' = Some r → n = n'.
Proof.
  intros Hwf H1 H2.
  destruct (wf_states_obj _ Hwf _ _ H1) as (st1 & Hl1 & <-).
  destruct (wf_states_obj _ Hwf _ _ H2) as (st2 & Hl2 & <-).
  congruence.
Qed.

Lemma wf_history sm e : wf sm → wf (history_append e sm).
Proof. intros []. by constructor. Qed.

(** Assigning fields other than [name] and [is_active]. *)
Lemma wf_update sm r f :
  (∀ st, name (f st) = name st) →
  (∀ st, is_active (f st) = is_active st) →
  wf sm → wf (with_objects (alter f r (objects sm)) sm).
Proof.
  intros Hname Hact [K1 K2 HS HA HO HL]. constructor; simpl; try done.
  - intros n r0 Hg. destruct (HS _ _ Hg) as (st & Hl & Hn).
    destruct (decide (r = r0)) as [->|Hne].
    + exists (f st). rewrite list_lookup_alter_eq, Hl. simpl.
      by rewrite Hname.
    + exists st. by rewrite list_lookup_alter_ne.
  - intros n r0 Hg. destruct (HO _ _ Hg) as (st & Hl & Hn).
    destruct (decide (r = r0)) as [->|Hne].
    + exists (f st). rewrite list_lookup_alter_eq, Hl. simpl.
      by rewrite Hact.
    + exists st. by rewrite list_lookup_alter_ne.
  - intros r0 st0 Hl Ha. destruct (decide (r = r0)) as [->|Hne].
    + rewrite list_lookup_alter_eq in Hl.
      destruct (objects sm !! r0) as [st|] eqn:E; simplify_eq/=.
      rewrite Hname. apply HL; [done|]. by rewrite <- Hact.
    + rewrite list_lookup_alter_ne in Hl by done. by apply HL.
Qed.

(** The activation branch: the flag is raised and the key inserted. *)
Lemma wf_activate sm n r st f :
  (∀ st, name (f st) = name st) →
  (∀ st, is_active (f st) = true) →
  wf sm → dict_get (states sm) n = Some r →
  objects sm !! r = Some st → is_active st = false →
  wf (with_active_states (dict_set (active_states sm) n r)
        (with_objects (alter f r (objects sm)) sm)).
Proof.
  intros Hname Hact Hwf Hg Hl Hin.
  pose proof (fun a b c => wf_ref_inj sm a b c Hwf) as Hinj.
  destruct Hwf as [K1 K2 HS HA HO HL]. constructor; simpl; try done.
  - by apply dict_keys_set_NoDup.
  - intros n0 r0 Hg0. destruct (HS _ _ Hg0) as (st0 & Hl0 & Hn0).
    destruct (decide (r = r0)) as [->|Hne].
    + exists (f st0). rewrite list_lookup_alter_eq, Hl0. simpl.
      by rewrite Hname.
    + exists st0. by rewrite list_lookup_alter_ne.
  - intros n0 r0. destruct (decide (n = n0)) as [->|Hne].
    + rewrite dict_get_set_eq. congruence.
    + rewrite dict_get_set_ne by done. apply HA.
  - intros n0 r0. destruct (decide (n = n0)) as [->|Hne].
    + rewrite dict_get_set_eq. intros [= <-]. exists (f st).
      rewrite list_lookup_alter_eq, Hl. done.
    + rewrite dict_get_set_ne by done. intros Hg0.
      destruct (HO _ _ Hg0) as (st0 & Hl0 & Ha0). exists st0.
      split; [|done]. rewrite list_lookup_alter_ne; [done|].
      intros ->. congruence.
  - intros r0 st0 Hl0 Ha0. destruct (decide (r = r0)) as [->|Hne].
    + rewrite list_lookup_alter_eq, Hl in Hl0. simplify_eq/=.
      rewrite Hname. destruct (HS _ _ Hg) as (st' & Hl' & Hn').
      rewrite Hl in Hl'. injection Hl' as <-. rewrite Hn'.
      apply dict_get_set_eq.
    + rewrite list_lookup_alter_ne in Hl0 by done.
      pose proof (HL _ _ Hl0 Ha0) as Hg0.
      rewrite dict_get_set_ne; [done|]. intros Heq.
      rewrite <- Heq in Hg0. apply Hne. apply HA in Hg0. congruence.
Qed.

(** The deactivation: the flag is lowered and the key deleted. *)
Lemma wf_deactivate sm n r f :
  (∀ st, name (f st) = name st) →
  (∀ st, is_active (f st) = false) →
  wf sm → dict_get (active_states sm) n = Some r →
  wf (with_active_states (dict_del (active_states sm) n)
        (with_objects (alter f r (objects sm)) sm)).
Proof.
  intros Hname Hact Hwf Hg.
  pose proof (fun a b c => wf_ref_inj sm a b c Hwf) as Hinj.
  destruct Hwf as [K1 K2 HS HA HO HL]. constructor; simpl; try done.
  - by apply dict_keys_del_NoDup.
  - intros n0 r0 Hg0. destruct (HS _ _ Hg0) as (st0 & Hl0 & Hn0).
    destruct (decide (r = r0)) as [->|Hne].
    + exists (f st0). rewrite list_lookup_alter_eq, Hl0. simpl.
      by rewrite Hname.
    + exists st0. by rewrite list_lookup_alter_ne.
  - intros n0 r0. destruct (decide (n = n0)) as [->|Hne].
    + by rewrite dict_get_del_eq.
    + rewrite dict_get_del_ne by done. apply HA.
  - intros n0 r0. destruct (decide (n = n0)) as [->|Hne].
    + by rewrite dict_get_del_eq.
    + rewrite dict_get_del_ne by done. intros Hg0.
      destruct (HO _ _ Hg0) as (st0 & Hl0 & Ha0). exists st0.
      split; [|done]. rewrite list_lookup_alter_ne; [done|].
      intros ->. apply Hne. apply (Hinj n n0 r0); auto.
  - intros r0 st0 Hl0 Ha0. destruct (decide (r = r0)) as [->|Hne].
    + rewrite list_lookup_alter_eq in Hl0.
      destruct (objects sm !! r0) as [st|] eqn:E; simplify_eq/=.
      by rewrite Hact in Ha0.
    + rewrite list_lookup_alter_ne in Hl0 by done.
      pose proof (HL _ _ Hl0 Ha0) as Hg0.
      rewrite dict_get_del_ne; [done|]. intros Heq.
      rewrite <- Heq in Hg0. congruence.
Qed.
End invariant.

(* ===================================================================== *)
(** ** Each operation keeps the invariant and touches one rule only       *)
(* ===================================================================== *)

Lemma same_rule_refl n sm : same_rule n sm sm.
Proof. by repeat split. Qed.

Lemma same_rule_trans n sm1 sm2 sm3 :
  same_rule n sm1 sm2 → same_rule n sm2 sm3 → same_rule n sm1 sm3.
Proof.
  intros (S1 & O1 & A1 & H1) (S2 & O2 & A2 & H2). repeat split.
  - congruence.
  - intros r Hr. rewrite O2 by congruence. by apply O1.
  - congruence.
  - congruence.
Qed.

Lemma history_of_app n h1 h2 :
  history_of n (h1 ++ h2) = history_of n h1 ++ history_of n h2.
Proof. apply List.filter_app. Qed.

Lemma history_of_other n m e t h :
  m ≠ n → history_of n (h ++ [(m, e, t)]) = history_of n h.
Proof.
  intros Hne. rewrite history_of_app. simpl.
  destruct (String.eqb m n) eqn:E.
  - apply String.eqb_eq in E. done.
  - apply app_nil_r.
Qed.

Lemma history_of_own n e t h :
  history_of n (h ++ [(n, e, t)]) = history_of n h ++ [(n, e, t)].
Proof. rewrite history_of_app. simpl. by rewrite String.eqb_refl. Qed.

Section operations.
Implicit Types (sm : WatchdogStateMachine) (n m node : string) (r : ref)
         (now : datetime).

Lemma activate_state_states sm m node now :
  states (fst (activate_state sm m node now)) = states sm.
Proof.
  unfold activate_state.
  destruct (dict_get (states sm) m) as [r|]; [|done].
  destruct (objects sm !! r) as [st|]; [|done].
  destruct (negb _); [done|]. by destruct (is_active st).
Qed.

Lemma activate_state_wf sm m node now :
  wf sm → wf (fst (activate_state sm m node now)).
Proof.
  intros Hwf. unfold activate_state.
  destruct (dict_get (states sm) m) as [r|] eqn:Hg; [|done].
  destruct (objects sm !! r) as [st|] eqn:Hl; [|done].
  destruct (negb _); [done|].
  destruct (is_active st) eqn:Ha; simpl; apply wf_history.
  - by apply wf_update.
  - by eapply wf_activate.
Qed.

Lemma activate_state_other sm n m node now :
  wf sm → m ≠ n → same_rule n sm (fst (activate_state sm m node now)).
Proof.
  intros Hwf Hne. unfold activate_state.
  destruct (dict_get (states sm) m) as [r|] eqn:Hg;
    [|apply same_rule_refl].
  destruct (objects sm !! r) as [st|] eqn:Hl; [|apply same_rule_refl].
  destruct (negb _); [apply same_rule_refl|].
  assert (∀ r', dict_get (states sm) n = Some r' → r ≠ r') as Hr.
  { intros r' Hg' ->. apply Hne. by eapply wf_ref_inj. }
  destruct (is_active st); simpl; repeat split; simpl.
  - intros r' Hg'. apply list_lookup_alter_ne. auto.
  - by apply history_of_other.
  - intros r' Hg'. apply list_lookup_alter_ne. auto.
  - by apply dict_get_set_ne.
  - by apply history_of_other.
Qed.

Lemma deactivate_state_states sm m reason now :
  states (deactivate_state sm m reason now) = states sm.
Proof.
  unfold deactivate_state.
  by destruct (dict_get (active_states sm) m).
Qed.

Lemma deactivate_state_wf sm m reason now :
  wf sm → wf (deactivate_state sm m reason now).
Proof.
  intros Hwf. unfold deactivate_state.
  destruct (dict_get (active_states sm) m) as [r|] eqn:Hg; [|done].
  apply wf_history. by apply wf_deactivate.
Qed.

Lemma deactivate_state_other sm n m reason now :
  wf sm → m ≠ n → same_rule n sm (deactivate_state sm m reason now).
Proof.
  intros Hwf Hne. unfold deactivate_state.
  destruct (dict_get (active_states sm) m) as [r|] eqn:Hg;
    [|apply same_rule_refl].
  repeat split; simpl.
  - intros r' Hg'. apply list_lookup_alter_ne. intros ->.
    apply Hne. eapply wf_ref_inj; eauto. by apply wf_active_states.
  - by apply dict_get_del_ne.
  - by apply history_of_other.
Qed.

Lemma check_transition_states sm m node now :
  states (fst (check_transition sm m node now)) = states sm.
Proof.
  unfold check_transition.
  destruct (dict_get (active_states sm) m) as [r|]; [|done].
  destruct (objects sm !! r) as [st|]; [|done].
  destruct (transitions st !! _); [|done].
  destruct (String.eqb _ _); [|done].
  destruct (transitions _ !! _); simpl; [done|].
  by rewrite deactivate_state_states.
Qed.

Lemma check_transition_wf sm m node now :
  wf sm → wf (fst (check_transition sm m node now)).
Proof.
  intros Hwf. unfold check_transition.
  destruct (dict_get (active_states sm) m) as [r|] eqn:Hg; [|done].
  destruct (objects sm !! r) as [st|] eqn:Hl; [|done].
  destruct (transitions st !! _); [|done].
  destruct (String.eqb _ _); [|done].
  set (sm1 := with_objects _ sm).
  assert (wf sm1) as Hwf1 by by apply wf_update.
  destruct (transitions _ !! _); cbn [fst].
  - apply wf_history. by apply wf_update.
  - by apply deactivate_state_wf.
Qed.

Lemma check_transition_other sm n m node now :
  wf sm → m ≠ n → same_rule n sm (fst (check_transition sm m node now)).
Proof.
  intros Hwf Hne. unfold check_transition.
  destruct (dict_get (active_states sm) m) as [r|] eqn:Hg;
    [|apply same_rule_refl].
  destruct (objects sm !! r) as [st|] eqn:Hl; [|apply same_rule_refl].
  destruct (transitions st !! _); [|apply same_rule_refl].
  destruct (String.eqb _ _); [|apply same_rule_refl].
  assert (∀ r', dict_get (states sm) n = Some r' → r ≠ r') as Hr.
  { intros r' Hg' ->. apply Hne. eapply wf_ref_inj; eauto.
    by apply wf_active_states. }
  set (sm1 := with_objects _ sm).
  assert (same_rule n sm sm1) as Hs1.
  { repeat split; simpl. intros r' Hg'. apply list_lookup_alter_ne. auto. }
  assert (wf sm1) as Hwf1 by by apply wf_update.
  destruct (transitions _ !! _); cbn [fst].
  - eapply same_rule_trans; [exact Hs1|]. repeat split; simpl.
    + intros r' Hg'. apply list_lookup_alter_ne. auto.
    + by apply history_of_other.
  - eapply same_rule_trans; [exact Hs1|].
    by apply deactivate_state_other.
Qed.
End operations.

Section locality.
Implicit Types (sm : WatchdogStateMachine) (n m node : string) (r : ref)
         (now : datetime).

(** What [activate_state] does to rule [n] depends on rule [n] only. *)
Lemma activate_state_congr sm sm1 n node now :
  same_rule n sm sm1 →
  same_rule n (fst (activate_state sm n node now))
              (fst (activate_state sm1 n node now))
  ∧ snd (activate_state sm1 n node now) = snd (activate_state sm n node now).
Proof.
  intros Hsame. pose proof Hsame as (HS & HO & HA & HH).
  unfold activate_state. rewrite HS.
  destruct (dict_get (states sm) n) as [r|] eqn:Hg; [|by split].
  rewrite (HO _ eq_refl).
  destruct (objects sm !! r) as [st|] eqn:Hl; [|by split].
  destruct (negb _); [by split|].
  destruct (is_active st); simpl; repeat split; simpl; try done.
  - intros r' Hg'. assert (r' = r) as -> by congruence.
    rewrite !list_lookup_alter_eq. by rewrite HO.
  - rewrite !history_of_own. by rewrite HH.
  - intros r' Hg'. assert (r' = r) as -> by congruence.
    rewrite !list_lookup_alter_eq. by rewrite HO.
  - by rewrite !dict_get_set_eq.
  - rewrite !history_of_own. by rewrite HH.
Qed.

Lemma deactivate_state_congr sm sm1 n reason now :
  wf sm → same_rule n sm sm1 →
  same_rule n (deactivate_state sm n reason now)
              (deactivate_state sm1 n reason now).
Proof.
  intros Hwf Hsame. pose proof Hsame as (HS & HO & HA & HH).
  unfold deactivate_state. rewrite HA.
  destruct (dict_get (active_states sm) n) as [r|] eqn:Hg; [|done].
  pose proof (wf_active_states _ Hwf _ _ Hg) as Hgs.
  repeat split; simpl; try done.
  - intros r' Hg'. assert (r' = r) as -> by congruence.
    rewrite !list_lookup_alter_eq. by rewrite HO.
  - by rewrite !dict_get_del_eq.
  - rewrite !history_of_own. by rewrite HH.
Qed.

(** The same for [check_transition]. *)
Lemma check_transition_congr sm sm1 n node now :
  wf sm → same_rule n sm sm1 →
  same_rule n (fst (check_transition sm n node now))
              (fst (check_transition sm1 n node now))
  ∧ snd (check_transition sm1 n node now) = snd (check_transition sm n node now).
Proof.
  intros Hwf Hsame. pose proof Hsame as (HS & HO & HA & HH).
  unfold check_transition. rewrite HA.
  destruct (dict_get (active_states sm) n) as [r|] eqn:Hg; [|by split].
  pose proof (wf_active_states _ Hwf _ _ Hg) as Hgs.
  rewrite (HO _ Hgs).
  destruct (objects sm !! r) as [st|] eqn:Hl; [|by split].
  destruct (transitions st !! _); [|by split].
  destruct (String.eqb _ _); [|by split].
  set (f := set_current_transition_index _).
  assert (same_rule n (with_objects (alter f r (objects sm)) sm)
                      (with_objects (alter f r (objects sm1)) sm1)) as Hs1.
  { repeat split; simpl; try congruence. intros r' Hg'.
    assert (r' = r) as -> by congruence.
    rewrite !list_lookup_alter_eq. by rewrite HO. }
  destruct (transitions _ !! _); cbn [fst snd]; (split; [|done]).
  - repeat split; simpl; try congruence.
    + intros r' Hg'. assert (r' = r) as -> by congruence.
      rewrite !list_lookup_alter_eq. by rewrite HO.
    + rewrite !history_of_own. by rewrite HH.
  - apply deactivate_state_congr; [|done]. by apply wf_update.
Qed.

Lemma trigger_loop_states items sm node now :
  states (trigger_loop items sm node now) = states sm.
Proof.
  revert sm. induction items as [|[m x] items IH]; intros sm; simpl; [done|].
  by rewrite IH, activate_state_states.
Qed.

Lemma trigger_loop_wf items sm node now :
  wf sm → wf (trigger_loop items sm node now).
Proof.
  revert sm. induction items as [|[m x] items IH]; intros sm Hwf; simpl;
    [done|]. by apply IH, activate_state_wf.
Qed.

Lemma trigger_loop_untouched items sm n node now :
  wf sm → n ∉ dict_keys items →
  same_rule n sm (trigger_loop items sm node now).
Proof.
  revert sm. induction items as [|[m x] items IH]; intros sm Hwf Hn; simpl.
  - apply same_rule_refl.
  - simpl in Hn. apply not_elem_of_cons in Hn as [Hne Hn].
    apply (same_rule_trans n sm (fst (activate_state sm m node now))).
    + apply activate_state_other; [done|congruence].
    + apply IH; [|done]. by apply activate_state_wf.
Qed.

(** The first loop does to rule [n] what [activate_state] does for [n]. *)
Lemma trigger_loop_own items sm n node now :
  wf sm → NoDup (dict_keys items) → n ∈ dict_keys items →
  same_rule n (fst (activate_state sm n node now))
              (trigger_loop items sm node now).
Proof.
  revert sm. induction items as [|[m x] items IH]; intros sm Hwf Hnd Hin.
  - by apply elem_of_nil in Hin.
  - simpl in *. apply NoDup_cons in Hnd as [Hm Hnd].
    destruct (decide (m = n)) as [->|Hne].
    + apply trigger_loop_untouched; [|done]. by apply activate_state_wf.
    + apply elem_of_cons in Hin as [->|Hin]; [done|].
      apply (same_rule_trans n _
               (fst (activate_state (fst (activate_state sm m node now))
                                    n node now))).
      * apply activate_state_congr. by apply activate_state_other.
      * apply IH; auto using activate_state_wf.
Qed.

Lemma trigger_own sm n r node now :
  wf sm → dict_get (states sm) n = Some r →
  same_rule n (fst (activate_state sm n node now)) (trigger sm node now).
Proof.
  intros Hwf Hg. apply trigger_loop_own; [done|by apply wf_states_keys|].
  by eapply dict_get_Some_key.
Qed.

Lemma trigger_wf sm node now : wf sm → wf (trigger sm node now).
Proof. apply trigger_loop_wf. Qed.
End locality.

Section advance_locality.
Implicit Types (sm : WatchdogStateMachine) (n m node : string) (r : ref)
         (now : datetime).

Lemma notifications_of_app n out1 out2 :
  notifications_of n (out1 ++ out2)
  = notifications_of n out1 ++ notifications_of n out2.
Proof. apply List.filter_app. Qed.

Lemma send_state_completed_other sm n m r node now :
  m ≠ n → notifications_of n (send_state_completed sm m r node now) = [].
Proof.
  intros Hne. unfold send_state_completed.
  destruct (objects sm !! r); [|done]. simpl.
  destruct (String.eqb m n) eqn:E; [|done].
  apply String.eqb_eq in E. done.
Qed.

Lemma send_state_completed_own sm n r node now :
  notifications_of n (send_state_completed sm n r node now)
  = send_state_completed sm n r node now.
Proof.
  unfold send_state_completed.
  destruct (objects sm !! r); [|done]. simpl. by rewrite String.eqb_refl.
Qed.

Lemma advance_body_fst sm m r node now :
  fst (advance_body sm (m, r) node now)
  = fst (check_transition sm m node now).
Proof. unfold advance_body. by destruct (check_transition sm m node now). Qed.

Lemma advance_body_snd sm m r node now :
  snd (advance_body sm (m, r) node now)
  = match snd (check_transition sm m node now) with
    | Some (true, _) =>
        send_state_completed (fst (check_transition sm m node now)) m r node now
    | _ => []
    end.
Proof. unfold advance_body. by destruct (check_transition sm m node now). Qed.

Lemma advance_body_other sm n m r node now :
  wf sm → m ≠ n →
  same_rule n sm (fst (advance_body sm (m, r) node now))
  ∧ notifications_of n (snd (advance_body sm (m, r) node now)) = [].
Proof.
  intros Hwf Hne. rewrite advance_body_fst, advance_body_snd. split.
  - by apply check_transition_other.
  - destruct (snd (check_transition sm m node now)) as [[[] ?]|]; try done.
    by apply send_state_completed_other.
Qed.

Lemma advance_body_congr sm sm1 n r node now :
  wf sm → same_rule n sm sm1 → dict_get (states sm) n = Some r →
  same_rule n (fst (advance_body sm (n, r) node now))
              (fst (advance_body sm1 (n, r) node now))
  ∧ snd (advance_body sm1 (n, r) node now)
    = snd (advance_body sm (n, r) node now).
Proof.
  intros Hwf Hsame Hg.
  destruct (check_transition_congr sm sm1 n node now Hwf Hsame) as [Hs Hr].
  rewrite !advance_body_fst, !advance_body_snd. split; [done|].
  rewrite Hr.
  destruct (snd (check_transition sm n node now)) as [[[] ?]|]; try done.
  unfold send_state_completed. destruct Hs as (_ & HO & _).
  rewrite HO; [done|]. by rewrite check_transition_states.
Qed.

Lemma advance_loop_fst_snd items sm node now item :
  advance_loop (item :: items) sm node now
  = (fst (advance_loop items (fst (advance_body sm item node now)) node now),
     snd (advance_body sm item node now)
     ++ snd (advance_loop items (fst (advance_body sm item node now)) node now)).
Proof.
  simpl. destruct (advance_body sm item node now) as [sm1 sent]. simpl.
  by destruct (advance_loop items sm1 node now).
Qed.

Lemma advance_loop_states items sm node now :
  states (fst (advance_loop items sm node now)) = states sm.
Proof.
  revert sm. induction items as [|[m x] items IH]; intros sm; [done|].
  rewrite advance_loop_fst_snd. cbn [fst].
  by rewrite IH, advance_body_fst, check_transition_states.
Qed.

Lemma advance_loop_wf items sm node now :
  wf sm → wf (fst (advance_loop items sm node now)).
Proof.
  revert sm. induction items as [|[m x] items IH]; intros sm Hwf; [done|].
  rewrite advance_loop_fst_snd. cbn [fst]. apply IH.
  rewrite advance_body_fst. by apply check_transition_wf.
Qed.

Lemma advance_loop_untouched items sm n node now :
  wf sm → n ∉ dict_keys items →
  same_rule n sm (fst (advance_loop items sm node now))
  ∧ notifications_of n (snd (advance_loop items sm node now)) = [].
Proof.
  revert sm. induction items as [|[m x] items IH]; intros sm Hwf Hn.
  - split; [apply same_rule_refl | done].
  - simpl in Hn. apply not_elem_of_cons in Hn as [Hne Hn].
    rewrite advance_loop_fst_snd. cbn [fst snd].
    destruct (advance_body_other sm n m x node now Hwf) as [Hs1 Hn1];
      [congruence|].
    destruct (IH (fst (advance_body sm (m, x) node now))) as [Hs2 Hn2];
      [|done|].
    { rewrite advance_body_fst. by apply check_transition_wf. }
    split.
    + by eapply same_rule_trans.
    + by rewrite notifications_of_app, Hn1, Hn2.
Qed.

(** The second loop does to rule [n] what its body does for [n]. *)
Lemma advance_loop_own items sm n r node now :
  wf sm → NoDup (dict_keys items) → (n, r) ∈ items →
  dict_get (states sm) n = Some r →
  same_rule n (fst (advance_body sm (n, r) node now))
              (fst (advance_loop items sm node now))
  ∧ notifications_of n (snd (advance_loop items sm node now))
    = snd (advance_body sm (n, r) node now).
Proof.
  revert sm. induction items as [|[m x] items IH];
    intros sm Hwf Hnd Hin Hg.
  - by apply elem_of_nil in Hin.
  - simpl in Hnd. apply NoDup_cons in Hnd as [Hm Hnd].
    rewrite advance_loop_fst_snd. cbn [fst snd].
    assert (wf (fst (advance_body sm (m, x) node now))) as Hwf1.
    { rewrite advance_body_fst. by apply check_transition_wf. }
    apply elem_of_cons in Hin as [[= <- <-]|Hin].
    + destruct (advance_loop_untouched items
                  (fst (advance_body sm (n, r) node now)) n node now)
        as [Hs Hn]; [done..|].
      split; [done|]. rewrite notifications_of_app, Hn, app_nil_r.
      rewrite advance_body_snd.
      destruct (snd (check_transition sm n node now)) as [[[] ?]|]; try done.
      apply send_state_completed_own.
    + assert (m ≠ n) as Hne.
      { intros ->. apply Hm. change n with (fst (n, r)).
        by apply list_elem_of_fmap_2. }
      destruct (advance_body_other sm n m x node now Hwf Hne) as [Hs1 Hn1].
      destruct (IH (fst (advance_body sm (m, x) node now))) as [Hs2 Hn2];
        [done..| |].
      { rewrite advance_body_fst, check_transition_states. done. }
      destruct (advance_body_congr sm _ n r node now Hwf Hs1 Hg) as [Hs3 Hn3].
      split.
      * by eapply same_rule_trans.
      * rewrite notifications_of_app, Hn1, Hn2. simpl. done.
Qed.
Lemma advance_loop_sends_completions items sm node now :
  Forall is_completion (snd (advance_loop items sm node now)).
Proof.
  revert sm. induction items as [|[m x] items IH]; intros sm.
  - constructor.
  - rewrite advance_loop_fst_snd. cbn [snd]. apply Forall_app. split; [|apply IH].
    rewrite advance_body_snd.
    destruct (snd (check_transition sm m node now)) as [[[] ?]|];
      try constructor.
    unfold send_state_completed.
    destruct (objects _ !! x); repeat constructor.
Qed.
End advance_locality.

(* ===================================================================== *)
(** ** The sweep                                                          *)
(* ===================================================================== *)

Section sweep_facts.
Implicit Types (sm : WatchdogStateMachine) (n m : string) (r : ref)
         (now : datetime) (ts : list (string * ref * Z)).

Lemma check_timeouts_step_cases now sm ts n r :
  check_timeouts_step now (sm, ts) (n, r) = (sm, ts)
  ∨ ∃ elapsed_us,
      check_timeouts_step now (sm, ts) (n, r)
      = (deactivate_state sm n (TIMEOUT_after elapsed_us) now,
         ts ++ [(n, r, int_ms elapsed_us)]).
Proof.
  unfold check_timeouts_step.
  destruct (objects sm !! r) as [st|]; [|by left].
  destruct (last_activation_time st) as [last|]; [|by left].
  destruct (transitions st !! _) as [t|]; [|by left].
  destruct (timed_out _ t); [|by left]. right. by eexists.
Qed.

Lemma dict_keys_del_sublist {V} (d : list (string * V)) k :
  dict_keys (dict_del d k) `sublist_of` dict_keys d.
Proof.
  induction d as [|[k' v'] d IH]; simpl; [constructor|].
  destruct (String.eqb k' k); simpl; by constructor.
Qed.

Lemma deactivate_state_keys sm n reason now :
  dict_keys (active_states (deactivate_state sm n reason now))
    `sublist_of` dict_keys (active_states sm)
  ∧ n ∉ dict_keys (active_states (deactivate_state sm n reason now)).
Proof.
  unfold deactivate_state.
  destruct (dict_get (active_states sm) n) as [r|] eqn:Hg; simpl.
  - split; [apply dict_keys_del_sublist|].
    rewrite dict_keys_del. by intros [_ ?].
  - split; [done|]. by apply dict_get_None.
Qed.

(** What one pass of the loop of [check_timeouts] reports: rules of the
    snapshot, in its order, each no longer among the active ones. *)
Lemma check_timeouts_loop items now sm ts :
  ∃ rep,
    snd (fold_left (check_timeouts_step now) items (sm, ts)) = ts ++ rep
    ∧ timeout_names rep `sublist_of` dict_keys items
    ∧ dict_keys (active_states
                   (fst (fold_left (check_timeouts_step now) items (sm, ts))))
        `sublist_of` dict_keys (active_states sm)
    ∧ ∀ n, n ∈ timeout_names rep →
           n ∉ dict_keys (active_states
                  (fst (fold_left (check_timeouts_step now) items (sm, ts)))).
Proof.
  revert sm ts. induction items as [|[n r] items IH]; intros sm ts;
    cbn [fold_left].
  - exists []. rewrite app_nil_r.
    split; [done|]. split; [apply sublist_nil_l|]. split; [done|].
    by intros n ?%elem_of_nil.
  - destruct (check_timeouts_step_cases now sm ts n r) as [->|[e ->]].
    + destruct (IH sm ts) as (rep & H1 & H2 & H3 & H4).
      exists rep. repeat split; try done. by constructor.
    + destruct (deactivate_state_keys sm n (TIMEOUT_after e) now) as [K1 K2].
      destruct (IH (deactivate_state sm n (TIMEOUT_after e) now)
                   (ts ++ [(n, r, int_ms e)])) as (rep & H1 & H2 & H3 & H4).
      exists ((n, r, int_ms e) :: rep). repeat split.
      * by rewrite H1, <- app_assoc.
      * simpl. by constructor.
      * by etrans.
      * intros x [->|Hx]%elem_of_cons; [|by apply H4].
        intros Hin. apply K2. by eapply sublist_subseteq.
Qed.

Lemma check_timeouts_names sm now :
  timeout_names (snd (check_timeouts sm now))
    `sublist_of` dict_keys (active_states sm)
  ∧ dict_keys (active_states (fst (check_timeouts sm now)))
      `sublist_of` dict_keys (active_states sm)
  ∧ ∀ n, n ∈ timeout_names (snd (check_timeouts sm now)) →
         n ∉ dict_keys (active_states (fst (check_timeouts sm now))).
Proof.
  unfold check_timeouts.
  destruct (check_timeouts_loop (active_states sm) now sm [])
    as (rep & H1 & H2 & H3 & H4).
  rewrite H1. done.
Qed.

Lemma send_timeouts_names sm ts now :
  map notified_name (send_timeouts sm ts now) `sublist_of` timeout_names ts.
Proof.
  induction ts as [|[[n r] e] ts IH]; simpl; [constructor|].
  rewrite map_app. unfold send_state_timeout.
  destruct (objects sm !! r); simpl; by constructor.
Qed.

Lemma check_timeouts_step_wf now sm ts item :
  wf sm → wf (fst (check_timeouts_step now (sm, ts) item)).
Proof.
  intros Hwf. destruct item as [n r].
  destruct (check_timeouts_step_cases now sm ts n r) as [->|[e ->]];
    [done|]. by apply deactivate_state_wf.
Qed.

Lemma check_timeouts_loop_wf items now sm ts :
  wf sm → wf (fst (fold_left (check_timeouts_step now) items (sm, ts))).
Proof.
  revert sm ts. induction items as [|item items IH]; intros sm ts Hwf;
    cbn [fold_left]; [done|].
  pose proof (check_timeouts_step_wf now sm ts item Hwf) as Hwf1.
  destruct (check_timeouts_step now (sm, ts) item) as [sm1 ts1].
  by apply IH.
Qed.

Lemma check_timeouts_wf sm now : wf sm → wf (fst (check_timeouts sm now)).
Proof. apply check_timeouts_loop_wf. Qed.

Lemma check_timeouts_loop_untouched items now sm ts n :
  wf sm → n ∉ dict_keys items →
  same_rule n sm (fst (fold_left (check_timeouts_step now) items (sm, ts))).
Proof.
  revert sm ts. induction items as [|[m r] items IH]; intros sm ts Hwf Hn;
    cbn [fold_left].
  - apply same_rule_refl.
  - simpl in Hn. apply not_elem_of_cons in Hn as [Hne Hn].
    destruct (check_timeouts_step_cases now sm ts m r) as [->|[e ->]].
    + by apply IH.
    + apply (same_rule_trans n sm
               (deactivate_state sm m (TIMEOUT_after e) now)).
      * apply deactivate_state_other; [done|congruence].
      * apply IH; [|done]. by apply deactivate_state_wf.
Qed.

Lemma sweep_fst sm now : fst (sweep sm now) = fst (check_timeouts sm now).
Proof. unfold sweep. by destruct (check_timeouts sm now). Qed.

Lemma sweep_snd sm now :
  snd (sweep sm now)
  = send_timeouts (fst (check_timeouts sm now))
                  (snd (check_timeouts sm now)) now.
Proof. unfold sweep. by destruct (check_timeouts sm now). Qed.

Lemma notifications_of_absent n out :
  n ∉ map notified_name out → notifications_of n out = [].
Proof.
  induction out as [|x out IH]; simpl; [done|].
  intros [Hne Hn]%not_elem_of_cons.
  destruct (String.eqb (notified_name x) n) eqn:E; [|auto].
  apply String.eqb_eq in E. congruence.
Qed.

(** A sweep leaves a rule without active instance alone. *)
Lemma sweep_untouched sm n now :
  wf sm → dict_get (active_states sm) n = None →
  same_rule n sm (fst (sweep sm now))
  ∧ notifications_of n (snd (sweep sm now)) = [].
Proof.
  intros Hwf Hn. apply dict_get_None in Hn.
  rewrite sweep_fst, sweep_snd. split.
  - by apply check_timeouts_loop_untouched.
  - apply notifications_of_absent. intros Hin. apply Hn.
    destruct (check_timeouts_names sm now) as (H1 & _).
    eapply sublist_subseteq; [exact H1|].
    eapply sublist_subseteq; [apply send_timeouts_names|done].
Qed.

Lemma sweep_wf sm now : wf sm → wf (fst (sweep sm now)).
Proof. rewrite sweep_fst. apply check_timeouts_wf. Qed.
End sweep_facts.

Section sweep_own.
Variables (n : string) (r : ref) (st : WatchdogState) (last : datetime)
          (t : WatchdogTransition) (now : datetime).

Hypothesis Hlast : last_activation_time st = Some last.
Hypothesis Hstep : transitions st !! current_transition_index st = Some t.
Hypothesis Hout : timed_out (now - last) t = true.

Lemma timeouts_of_app ts1 ts2 :
  timeouts_of n (ts1 ++ ts2) = timeouts_of n ts1 ++ timeouts_of n ts2.
Proof. apply List.filter_app. Qed.


Lemma send_timeouts_of sm ts :
  notifications_of n (send_timeouts sm ts now)
  = send_timeouts sm (timeouts_of n ts) now.
Proof.
  induction ts as [|[[m x] e] ts IH]; simpl; [done|].
  rewrite notifications_of_app, IH.
  destruct (String.eqb m n) eqn:E; simpl; unfold send_state_timeout;
    destruct (objects sm !! x); simpl; by rewrite ?E.
Qed.



End sweep_own.

Section sweep_again.
Implicit Types (sm : WatchdogStateMachine) (n m : string) (r : ref)
         (ts : list (string * ref * Z)).
Variable now : datetime.

Lemma check_timeouts_step_within sm ts n r st :
  objects sm !! r = Some st → within_timeout now st = true →
  check_timeouts_step now (sm, ts) (n, r) = (sm, ts).
Proof.
  intros Hobj. unfold within_timeout, check_timeouts_step. rewrite Hobj.
  destruct (last_activation_time st); [|done].
  destruct (transitions st !! _); [|done]. by intros ->%negb_true_iff.
Qed.







End sweep_again.

(* ===================================================================== *)
(** ** Building and driving a machine                                     *)
(* ===================================================================== *)

Section driving.
Implicit Types (sm : WatchdogStateMachine) (n m node : string) (r : ref)
         (now : datetime).

(** Loading a rule: the rule is new, or replaces one that is not
    running, and comes inactive (the default of the dataclass, which the
    loader keeps). *)
Lemma add_state_wf sm state :
  wf sm → is_active state = false →
  dict_get (active_states sm) (name state) = None →
  wf (add_state sm state).
Proof.
  intros Hwf Hin Hna.
  destruct Hwf as [K1 K2 HS HA HO HL]. constructor; simpl; try done.
  - by apply dict_keys_set_NoDup.
  - intros n r. destruct (decide (name state = n)) as [<-|Hne].
    + rewrite dict_get_set_eq. intros [= <-]. exists state.
      split; [|done]. rewrite lookup_app_r by done.
      by rewrite Nat.sub_diag.
    + rewrite dict_get_set_ne by done. intros Hg.
      destruct (HS _ _ Hg) as (st & Hl & Hn). exists st. split; [|done].
      rewrite lookup_app_l; [done|]. by eapply lookup_lt_Some.
  - intros n r Hg. rewrite dict_get_set_ne; [by apply HA|].
    intros <-. congruence.
  - intros n r Hg. destruct (HO _ _ Hg) as (st & Hl & Ha). exists st.
    split; [|done]. rewrite lookup_app_l; [done|]. by eapply lookup_lt_Some.
  - intros r st Hl Ha. destruct (decide (r < length (objects sm))%nat).
    + rewrite lookup_app_l in Hl by done. by apply HL.
    + rewrite lookup_app_r in Hl by lia.
      destruct (r - length (objects sm))%nat; simpl in Hl; [|done].
      congruence.
Qed.

Lemma check_state_machine_rules_wf sm node now :
  wf sm → wf (fst (check_state_machine_rules sm node now)).
Proof. intros Hwf. apply advance_loop_wf. by apply trigger_wf. Qed.

Lemma step_wf sm e : wf sm → wf (fst (step sm e)).
Proof.
  destruct e; simpl; [apply check_state_machine_rules_wf | apply sweep_wf].
Qed.

Lemma run_cons sm e es :
  run sm (e :: es)
  = (fst (run (fst (step sm e)) es),
     snd (step sm e) ++ snd (run (fst (step sm e)) es)).
Proof.
  simpl. destruct (step sm e) as [sm1 out1]. simpl.
  by destruct (run sm1 es).
Qed.

Lemma run_wf es sm : wf sm → wf (fst (run sm es)).
Proof.
  revert sm. induction es as [|e es IH]; intros sm Hwf; [done|].
  rewrite run_cons. cbn [fst]. by apply IH, step_wf.
Qed.

Lemma wf_machine_R : wf machine_R.
Proof. apply add_state_wf; [apply wf_init|done..]. Qed.

Lemma wf_machine_H : wf machine_H.
Proof. apply add_state_wf; [apply wf_init|done..]. Qed.
End driving.

(* ===================================================================== *)
(** ** At most one instance per rule                                      *)
(* ===================================================================== *)

Lemma wf_at_most_one_instance sm : wf sm → at_most_one_instance sm.
Proof.
  intros Hwf. split; [by apply wf_active_keys|].
  intros r1 r2 st1 st2 H1 H2 A1 A2 Hn.
  pose proof (wf_live _ Hwf _ _ H1 A1) as G1.
  pose proof (wf_live _ Hwf _ _ H2 A2) as G2.
  congruence.
Qed.

(** C7. Trigger ([activate_state]), advance ([check_transition]), sweep
    ([check_timeouts]) and the removal of an instance
    ([_deactivate_state]) each keep the invariant of the engine, and so
    does every sequence of events the monitor feeds it; under the
    invariant no rule name has two active instances. *)
Theorem one_active_instance_per_rule (sm : WatchdogStateMachine) :
  wf sm →
  at_most_one_instance sm
  ∧ (∀ n node now, wf (fst (activate_state sm n node now)))
  ∧ (∀ n node now, wf (fst (check_transition sm n node now)))
  ∧ (∀ now, wf (fst (check_timeouts sm now)))
  ∧ (∀ n reason now, wf (deactivate_state sm n reason now))
  ∧ (∀ es, wf (fst (run sm es)) ∧ at_most_one_instance (fst (run sm es))).
Proof.
  intros Hwf. split; [by apply wf_at_most_one_instance|].
  split; [intros; by apply activate_state_wf|].
  split; [intros; by apply check_transition_wf|].
  split; [intros; by apply check_timeouts_wf|].
  split; [intros; by apply deactivate_state_wf|].
  intros es. pose proof (run_wf es sm Hwf) as Hr.
  split; [done|]. by apply wf_at_most_one_instance.
Qed.

Lemma one_active_instance_per_rule_witness :
  at_most_one_instance
    (fst (run machine_R [Node "A" 0; Node "A" 20000; Node "B" 50000;
                         Tick 300000; Node "A" 400000])).
Proof.
  destruct (one_active_instance_per_rule machine_R wf_machine_R)
    as (_ & _ & _ & _ & _ & H).
  exact (proj2 (H [Node "A" 0; Node "A" 20000; Node "B" 50000;
                   Tick 300000; Node "A" 400000])).
Defined.

(* ===================================================================== *)
(** ** Events that concern no rule                                        *)
(* ===================================================================== *)

Section frame.
Variables (sm : WatchdogStateMachine) (node : string) (now : datetime).

Hypothesis no_start :
  ∀ n r st, dict_get (states sm) n = Some r → objects sm !! r = Some st →
            start_node st ≠ node.

Hypothesis no_target :
  ∀ n r st t, dict_get (active_states sm) n = Some r →
              objects sm !! r = Some st →
              transitions st !! current_transition_index st = Some t →
              target_node t ≠ node.

Lemma activate_state_miss n : activate_state sm n node now = (sm, false).
Proof using no_start.
  unfold activate_state.
  destruct (dict_get (states sm) n) as [r|] eqn:Hg; [|done].
  destruct (objects sm !! r) as [st|] eqn:Hl; [|done].
  destruct (String.eqb node (start_node st)) eqn:E; [|done].
  apply String.eqb_eq in E. exfalso. by eapply no_start.
Qed.

Lemma check_transition_miss n : check_transition sm n node now = (sm, None).
Proof using no_target.
  unfold check_transition.
  destruct (dict_get (active_states sm) n) as [r|] eqn:Hg; [|done].
  destruct (objects sm !! r) as [st|] eqn:Hl; [|done].
  destruct (transitions st !! _) as [t|] eqn:Ht; [|done].
  destruct (String.eqb node (target_node t)) eqn:E; [|done].
  apply String.eqb_eq in E. exfalso. by eapply no_target.
Qed.

Lemma trigger_loop_miss items : trigger_loop items sm node now = sm.
Proof using no_start.
  induction items as [|[n x] items IH]; simpl; [done|].
  by rewrite activate_state_miss.
Qed.

Lemma advance_loop_miss items : advance_loop items sm node now = (sm, []).
Proof using no_target.
  induction items as [|[n x] items IH]; simpl; [done|].
  rewrite check_transition_miss. by rewrite IH.
Qed.

(** C9. An event whose node is the start node of no rule and the
    current target of no active instance leaves the engine as it was,
    objects, active set and history, and sends nothing. *)
Theorem unrelated_event_changes_nothing :
  check_state_machine_rules sm node now = (sm, [])
  ∧ trigger sm node now = sm
  ∧ advance sm node now = (sm, []).
Proof using no_start no_target.
  unfold check_state_machine_rules, trigger, advance.
  rewrite trigger_loop_miss. by rewrite advance_loop_miss.
Qed.
End frame.

Lemma unrelated_event_changes_nothing_witness :
  check_state_machine_rules
    (fst (run machine_R [Node "A" 0])) "Z" 10000
  = (fst (run machine_R [Node "A" 0]), []).
Proof.
  apply unrelated_event_changes_nothing;
    set (sm := fst (run machine_R [Node "A" 0]));
    vm_compute in sm; subst sm; cbn [states active_states objects].
  - intros n r st Hg%dict_get_Some_elem%list_elem_of_singleton Hl.
    injection Hg as -> ->. injection Hl as <-. done.
  - intros n r st t Hg%dict_get_Some_elem%list_elem_of_singleton Hl Ht.
    injection Hg as -> ->. injection Hl as <-. injection Ht as <-. done.
Defined.

(* ===================================================================== *)
(** ** Trigger: activation and reset                                      *)
(* ===================================================================== *)

Section trigger_facts.
Variables (sm : WatchdogStateMachine) (n : string) (r : ref)
          (st : WatchdogState) (now : datetime).

Hypothesis Hwf : wf sm.
Hypothesis Hstates : dict_get (states sm) n = Some r.
Hypothesis Hobj : objects sm !! r = Some st.

Lemma activate_state_reset :
  is_active st = true →
  activate_state sm n (start_node st) now
  = (history_append (n, RESET_by (start_node st), now)
       (with_objects
          (alter (set_last_activation_time (Some now)) r (objects sm)) sm),
     true).
Proof using Hstates Hobj.
  intros Ha. unfold activate_state.
  by rewrite Hstates, Hobj, String.eqb_refl, Ha.
Qed.

Lemma activate_state_fresh :
  is_active st = false →
  activate_state sm n (start_node st) now
  = (history_append (n, ACTIVATED_by (start_node st), now)
       (with_active_states (dict_set (active_states sm) n r)
          (with_objects (alter (activated now) r (objects sm)) sm)),
     true).
Proof using Hstates Hobj.
  intros Ha. unfold activate_state.
  by rewrite Hstates, Hobj, String.eqb_refl, Ha.
Qed.

(** C6. When the start node of a rule comes while its instance is
    active, the first loop of the monitor resets the instance in place:
    the same object, under the same and only key of the active set,
    has its activation time equal to [now], its step index untouched,
    its flag still set and its definition as before, and the rule's
    history grows by one RESET entry and nothing else.
    The loop sends no notification (it has none to return), and what
    the processing of the event sends after it are notifications of
    completion: no activation is notified. *)
Theorem trigger_resets_in_place :
  is_active st = true →
  objects (trigger sm (start_node st) now) !! r
  = Some (set_last_activation_time (Some now) st)
  ∧ current_transition_index (set_last_activation_time (Some now) st)
    = current_transition_index st
  ∧ last_activation_time (set_last_activation_time (Some now) st) = Some now
  ∧ is_active (set_last_activation_time (Some now) st) = true
  ∧ (∃ st', objects (trigger sm (start_node st) now) !! r = Some st'
            ∧ last_activation_time st' = Some now
            ∧ current_transition_index st' = current_transition_index st
            ∧ is_active st' = true ∧ same_definition st st')
  ∧ dict_get (active_states (trigger sm (start_node st) now)) n = Some r
  ∧ at_most_one_instance (trigger sm (start_node st) now)
  ∧ history_of n (state_history (trigger sm (start_node st) now))
    = history_of n (state_history sm)
      ++ [(n, RESET_by (start_node st), now)]
  ∧ Forall is_completion
           (snd (check_state_machine_rules sm (start_node st) now)).
Proof using Hwf Hstates Hobj.
  intros Ha.
  destruct (trigger_own sm n r (start_node st) now Hwf Hstates)
    as (HS & HO & HA & HH).
  rewrite activate_state_reset in HS, HO, HA, HH by done. simpl in *.
  assert (objects (trigger sm (start_node st) now) !! r
          = Some (set_last_activation_time (Some now) st)) as Hnew.
  { rewrite (HO r Hstates), list_lookup_alter_eq, Hobj. done. }
  split; [done|]. split; [done|]. split; [done|]. split; [done|].
  split; [by exists (set_last_activation_time (Some now) st)|].
  split; [|split; [|split]]; [| | |apply advance_loop_sends_completions].
  - rewrite HA. destruct (wf_states_obj _ Hwf _ _ Hstates) as (st' & Hl' & Hn').
    rewrite Hobj in Hl'. injection Hl' as <-. rewrite <- Hn'.
    by apply (wf_live _ Hwf).
  - apply wf_at_most_one_instance. by apply trigger_wf.
  - by rewrite HH, history_of_own.
Qed.
End trigger_facts.

Lemma wf_machine_R_waiting_B : wf machine_R_waiting_B.
Proof. apply run_wf, wf_machine_R. Qed.

(** Rule R, activated at 0 and waiting for "B", sees "A" again at 20 ms:
    the clock of its object reads 20 ms afterwards. *)
Lemma trigger_resets_in_place_witness :
  objects (trigger machine_R_waiting_B "A" 20000) !! 0%nat
  = Some (mkState "R" "A"
                  [mkTransition "B" 100 "Transition to B";
                   mkTransition "C" 200 "Final transition to C"]
                  "two steps" true (Some 20000) 0)
  ∧ history_of "R" (state_history (trigger machine_R_waiting_B "A" 20000))
    = [("R", ACTIVATED_by "A", 0); ("R", RESET_by "A", 20000)].
Proof.
  pose proof (trigger_resets_in_place machine_R_waiting_B "R" 0%nat
                rule_R_waiting_B 20000 wf_machine_R_waiting_B
                eq_refl eq_refl eq_refl)
    as (H1 & _ & _ & _ & _ & _ & _ & H2 & _).
  split; [exact H1 | exact H2].
Defined.

(** The first loop on a rule without instance. *)
Lemma trigger_fresh (sm : WatchdogStateMachine) (n : string) (r : ref)
      (st : WatchdogState) (now : datetime) :
  wf sm → dict_get (states sm) n = Some r → objects sm !! r = Some st →
  is_active st = false →
  objects (trigger sm (start_node st) now) !! r = Some (activated now st)
  ∧ dict_get (active_states (trigger sm (start_node st) now)) n = Some r
  ∧ history_of n (state_history (trigger sm (start_node st) now))
    = history_of n (state_history sm) ++ [(n, ACTIVATED_by (start_node st), now)].
Proof.
  intros Hwf Hstates Hobj Ha.
  destruct (trigger_own sm n r (start_node st) now Hwf Hstates)
    as (HS & HO & HA & HH).
  rewrite (activate_state_fresh sm n r st now Hstates Hobj Ha)
    in HS, HO, HA, HH.
  simpl in *. repeat split.
  - by rewrite (HO r Hstates), list_lookup_alter_eq, Hobj.
  - by rewrite HA, dict_get_set_eq.
  - by rewrite HH, history_of_own.
Qed.

(** C5, as the code has it. When the start node of a rule comes while the
    rule has no instance, the first loop of the monitor flags the rule's
    object active with step index 0 and activation time [now], enters it
    in the active set and appends ACTIVATED to the rule's history.  No
    activation is notified: whatever the processing of the event sends
    is a notification of completion. *)
Theorem trigger_activates_without_callback
        (sm : WatchdogStateMachine) (n : string) (r : ref)
        (st : WatchdogState) (now : datetime) :
  wf sm → dict_get (states sm) n = Some r → objects sm !! r = Some st →
  is_active st = false →
  objects (trigger sm (start_node st) now) !! r = Some (activated now st)
  ∧ is_active (activated now st) = true
  ∧ current_transition_index (activated now st) = 0%nat
  ∧ last_activation_time (activated now st) = Some now
  ∧ dict_get (active_states (trigger sm (start_node st) now)) n = Some r
  ∧ history_of n (state_history (trigger sm (start_node st) now))
    = history_of n (state_history sm) ++ [(n, ACTIVATED_by (start_node st), now)]
  ∧ Forall is_completion
           (snd (check_state_machine_rules sm (start_node st) now)).
Proof.
  intros Hwf Hstates Hobj Ha.
  destruct (trigger_fresh sm n r st now Hwf Hstates Hobj Ha) as (H1 & H2 & H3).
  repeat split; try done. apply advance_loop_sends_completions.
Qed.

Lemma trigger_activates_without_callback_witness :
  objects (trigger machine_R "A" 0) !! 0%nat = Some (activated 0 rule_R)
  ∧ Forall is_completion (snd (check_state_machine_rules machine_R "A" 0)).
Proof.
  pose proof (trigger_activates_without_callback machine_R "R" 0%nat rule_R 0
                wf_machine_R eq_refl eq_refl eq_refl)
    as (H1 & _ & _ & _ & _ & _ & H2).
  split; [exact H1 | exact H2].
Defined.

(** C5 as stated fails: "A" activates rule R (ACTIVATED is the whole
    history afterwards, the rule is in the active set) and the notifier
    is given nothing. *)
Lemma activation_callback_counterexample :
  state_history (fst (check_state_machine_rules machine_R "A" 0))
  = [("R", ACTIVATED_by "A", 0)]
  ∧ active_states (fst (check_state_machine_rules machine_R "A" 0))
    = [("R", 0%nat)]
  ∧ snd (check_state_machine_rules machine_R "A" 0) = [].
Proof. by vm_compute. Qed.

(* ===================================================================== *)
(** ** Advance: completion                                                *)
(* ===================================================================== *)

Section completion.
Variables (sm : WatchdogStateMachine) (n : string) (r : ref)
          (st : WatchdogState) (t : WatchdogTransition) (now : datetime).

Hypothesis Hwf : wf sm.
Hypothesis Hactive : dict_get (active_states sm) n = Some r.
Hypothesis Hobj : objects sm !! r = Some st.
Hypothesis Hstep : transitions st !! current_transition_index st = Some t.
Hypothesis Hlast : length (transitions st) = S (current_transition_index st).

Lemma check_transition_completes :
  check_transition sm n (target_node t) now
  = (deactivate_state
       (with_objects
          (alter (set_current_transition_index
                    (S (current_transition_index st))) r (objects sm)) sm)
       n (COMPLETED_by (target_node t)) now,
     Some (true, ("Rule '" ++ n ++ "' completed successfully")%string)).
Proof using Hactive Hobj Hstep Hlast.
  unfold check_transition. rewrite Hactive, Hobj, Hstep, String.eqb_refl.
  cbn [transitions current_transition_index set_current_transition_index].
  rewrite (lookup_ge_None_2 (transitions st)) by lia. done.
Qed.

Lemma advance_body_completes :
  advance_body sm (n, r) (target_node t) now
  = (history_append (n, COMPLETED_by (target_node t), now)
       (with_active_states (dict_del (active_states sm) n)
          (with_objects
             (alter deactivated r
                (alter (set_current_transition_index
                          (S (current_transition_index st))) r (objects sm)))
             sm)),
     [StateCompleted n (start_node st) (target_node t) (description st) now]).
Proof using Hactive Hobj Hstep Hlast.
  unfold advance_body. rewrite check_transition_completes.
  unfold deactivate_state. cbn [active_states with_objects objects].
  rewrite Hactive. unfold send_state_completed.
  cbn [objects history_append with_active_states with_objects].
  rewrite !list_lookup_alter_eq, Hobj. done.
Qed.

(** The second loop on an instance whose last step comes. *)
Lemma advance_last_step :
  dict_get (active_states (fst (advance sm (target_node t) now))) n = None
  ∧ objects (fst (advance sm (target_node t) now)) !! r
    = Some (deactivated st)
  ∧ history_of n (state_history (fst (advance sm (target_node t) now)))
    = history_of n (state_history sm)
      ++ [(n, COMPLETED_by (target_node t), now)]
  ∧ notifications_of n (snd (advance sm (target_node t) now))
    = [StateCompleted n (start_node st) (target_node t) (description st) now].
Proof using Hwf Hactive Hobj Hstep Hlast.
  pose proof (wf_active_states _ Hwf _ _ Hactive) as Hstates.
  destruct (advance_loop_own (active_states sm) sm n r (target_node t) now)
    as [(HS & HO & HA & HH) HN];
    [done|by apply wf_active_keys|by apply dict_get_Some_elem|done|].
  rewrite advance_body_completes in HS, HO, HA, HH, HN. simpl in *.
  fold (advance sm (target_node t) now) in *.
  split; [|split; [|split]].
  - by rewrite HA, dict_get_del_eq.
  - by rewrite (HO r Hstates), !list_lookup_alter_eq, Hobj.
  - by rewrite HH, history_of_own.
  - done.
Qed.
End completion.

(** C4, as the code has it. When the node an active instance waits for
    comes and it was the last step of the rule, the second loop of the
    monitor takes the rule out of the active set, resets its object
    (inactive, no activation time, step index 0), appends COMPLETED to
    the rule's history and sends one notification for the rule: a
    completion carrying the rule name, its start node, the node that
    completed it, its description and the instant.  The notification
    carries no elapsed time. *)
Theorem advance_completes
        (sm : WatchdogStateMachine) (n : string) (r : ref)
        (st : WatchdogState) (t : WatchdogTransition) (now : datetime) :
  wf sm → dict_get (active_states sm) n = Some r →
  objects sm !! r = Some st →
  transitions st !! current_transition_index st = Some t →
  length (transitions st) = S (current_transition_index st) →
  dict_get (active_states (fst (advance sm (target_node t) now))) n = None
  ∧ objects (fst (advance sm (target_node t) now)) !! r
    = Some (deactivated st)
  ∧ history_of n (state_history (fst (advance sm (target_node t) now)))
    = history_of n (state_history sm)
      ++ [(n, COMPLETED_by (target_node t), now)]
  ∧ notifications_of n (snd (advance sm (target_node t) now))
    = [StateCompleted n (start_node st) (target_node t) (description st) now]
  ∧ Forall (fun x => carried_elapsed_ms x = None)
           (notifications_of n (snd (advance sm (target_node t) now))).
Proof.
  intros Hwf Hactive Hobj Hstep Hlast.
  destruct (advance_last_step sm n r st t now Hwf Hactive Hobj Hstep Hlast)
    as (H1 & H2 & H3 & H4).
  repeat split; try done. rewrite H4. by repeat constructor.
Qed.

Lemma wf_machine_R_waiting_C : wf machine_R_waiting_C.
Proof. apply run_wf, wf_machine_R. Qed.

Lemma advance_completes_witness :
  dict_get (active_states (fst (advance machine_R_waiting_C "C" 150000))) "R"
  = None
  ∧ notifications_of "R" (snd (advance machine_R_waiting_C "C" 150000))
    = [StateCompleted "R" "A" "C" "two steps" 150000].
Proof.
  pose proof (advance_completes machine_R_waiting_C "R" 0%nat
                rule_R_waiting_C
                (mkTransition "C" 200 "Final transition to C") 150000
                wf_machine_R_waiting_C eq_refl eq_refl eq_refl eq_refl)
    as (H1 & _ & _ & H2 & _).
  split; [exact H1 | exact H2].
Defined.

(** C4 as stated fails: "A" at 0, "B" at 50 ms and "C" at 150 ms complete
    rule R, and the one notification sent carries no elapsed time (150 ms
    since the activation, or any other). *)
Lemma completion_elapsed_counterexample :
  snd (run machine_R [Node "A" 0; Node "B" 50000; Node "C" 150000])
  = [StateCompleted "R" "A" "C" "two steps" 150000]
  ∧ map carried_elapsed_ms
        (snd (run machine_R [Node "A" 0; Node "B" 50000; Node "C" 150000]))
    = [None].
Proof. by vm_compute. Qed.

(* ===================================================================== *)
(** ** Heartbeat rules                                                    *)
(* ===================================================================== *)

Section heartbeat.
Variables (n s d : string) (r : ref).

Lemma inactive_not_in_active_states sm st :
  wf sm → dict_get (states sm) n = Some r → objects sm !! r = Some st →
  is_active st = false → dict_get (active_states sm) n = None.
Proof.
  intros Hwf Hg Hl Ha.
  destruct (dict_get (active_states sm) n) as [r'|] eqn:E; [|done].
  destruct (wf_active_obj _ Hwf _ _ E) as (st' & Hl' & Ha').
  apply (wf_active_states _ Hwf) in E. congruence.
Qed.

Lemma same_rule_view sm sm' st :
  same_rule n sm sm' → dict_get (states sm) n = Some r →
  objects sm !! r = Some st →
  dict_get (states sm') n = Some r ∧ objects sm' !! r = Some st
  ∧ history_of n (state_history sm') = history_of n (state_history sm).
Proof.
  intros (HS & HO & HA & HH) Hg Hl. rewrite HS, (HO r Hg). done.
Qed.

Lemma heartbeat_step sm st e :
  wf sm → dict_get (states sm) n = Some r → objects sm !! r = Some st →
  idle_heartbeat s d st →
  dict_get (states (fst (step sm e))) n = Some r
  ∧ (∃ st', objects (fst (step sm e)) !! r = Some st'
            ∧ idle_heartbeat s d st')
  ∧ history_of n (state_history (fst (step sm e)))
    = history_of n (state_history sm) ++ heartbeat_history n s e
  ∧ notifications_of n (snd (step sm e)) = heartbeat_notifications n s d e.
Proof.
  intros Hwf Hg Hl Hidle.
  pose proof Hidle as (Ha & Hs & Hd & t & Ht & Htt).
  pose proof (inactive_not_in_active_states sm st Hwf Hg Hl Ha) as Hna.
  destruct e as [x now|now]; simpl.
  - unfold check_state_machine_rules.
    destruct (String.eqb x s) eqn:E.
    + apply String.eqb_eq in E. subst x. rewrite <- Hs.
      destruct (trigger_fresh sm n r st now Hwf Hg Hl Ha) as (T1 & T2 & T3).
      pose proof (trigger_wf sm (start_node st) now Hwf) as Hwf1.
      assert (start_node st = target_node t) as Hst by congruence.
      rewrite Hst in *.
      destruct (advance_last_step (trigger sm (target_node t) now) n r
                  (activated now st) t now Hwf1 T2 T1)
        as (A1 & A2 & A3 & A4).
      { simpl. by rewrite Ht. }
      { simpl. by rewrite Ht. }
      split; [|split; [|split]].
      * unfold advance, trigger.
        by rewrite advance_loop_states, trigger_loop_states.
      * exists (deactivated (activated now st)). split; [done|].
        repeat split; simpl; try done; try congruence. by exists t.
      * rewrite A3, T3, <- app_assoc. done.
      * rewrite A4. simpl. congruence.
    + assert (activate_state sm n x now = (sm, false)) as Hmiss.
      { unfold activate_state. rewrite Hg, Hl, Hs, E. done. }
      pose proof (trigger_own sm n r x now Hwf Hg) as Hsame.
      rewrite Hmiss in Hsame. cbn [fst] in Hsame.
      pose proof (trigger_wf sm x now Hwf) as Hwf1.
      destruct (same_rule_view _ _ st Hsame Hg Hl) as (G1 & L1 & H1).
      pose proof (inactive_not_in_active_states _ st Hwf1 G1 L1 Ha) as Hna1.
      destruct (advance_loop_untouched
                  (active_states (trigger sm x now)) (trigger sm x now)
                  n x now Hwf1) as [Hsame2 Hn2].
      { by apply dict_get_None. }
      destruct (same_rule_view _ _ st Hsame2 G1 L1) as (G2 & L2 & H2).
      split; [done|]. split; [by exists st|].
      split; [|done]. unfold advance. by rewrite H2, H1, app_nil_r.
  - destruct (sweep_untouched sm n now Hwf Hna) as [Hsame Hn].
    destruct (same_rule_view _ _ st Hsame Hg Hl) as (G1 & L1 & H1).
    split; [done|]. split; [by exists st|].
    split; [|done]. by rewrite H1, app_nil_r.
Qed.

(** C2: the code does not do what the claim says.  For a rule whose
    single step waits for its own start node and which has no instance,
    whatever events follow: each occurrence of the node activates the
    rule and completes it within the same event (ACTIVATED then
    COMPLETED in its history, one completion notified), because the
    second loop of [_check_state_machine_rules] runs over the instance
    the first loop has just created; no other event touches it, and it
    has no active instance once the events are processed; so it is
    never reset and never times out, which are the only outcomes the
    claim allows, and which the legacy rules with equal start and end
    nodes have. *)
Theorem heartbeat_completes_at_once es sm st :
  wf sm → dict_get (states sm) n = Some r → objects sm !! r = Some st →
  idle_heartbeat s d st →
  dict_get (active_states (fst (run sm es))) n = None
  ∧ history_of n (state_history (fst (run sm es)))
    = history_of n (state_history sm)
      ++ concat (map (heartbeat_history n s) es)
  ∧ notifications_of n (snd (run sm es))
    = concat (map (heartbeat_notifications n s d) es).
Proof.
  revert sm st. induction es as [|e es IH]; intros sm st Hwf Hg Hl Hidle.
  - simpl. rewrite app_nil_r. split; [|done].
    destruct Hidle as (Ha & _).
    by eapply inactive_not_in_active_states.
  - rewrite run_cons. cbn [fst snd map concat].
    destruct (heartbeat_step sm st e Hwf Hg Hl Hidle)
      as (G1 & (st' & L1 & I1) & H1 & N1).
    destruct (IH (fst (step sm e)) st' (step_wf sm e Hwf) G1 L1 I1)
      as (A2 & H2 & N2).
    split; [done|]. split.
    + by rewrite H2, H1, <- app_assoc.
    + by rewrite notifications_of_app, N1, N2.
Qed.
End heartbeat.

Lemma rule_H_idle : idle_heartbeat "X" "heartbeat" rule_H.
Proof.
  repeat split. by exists (mkTransition "X" 1000 "Final transition to X").
Qed.

Lemma heartbeat_completes_at_once_witness :
  dict_get (active_states
              (fst (run machine_H [Node "X" 0; Node "Y" 20000;
                                   Node "X" 50000; Tick 3000000]))) "H"
  = None
  ∧ history_of "H"
      (state_history
         (fst (run machine_H [Node "X" 0; Node "Y" 20000;
                              Node "X" 50000; Tick 3000000])))
    = [("H", ACTIVATED_by "X", 0); ("H", COMPLETED_by "X", 0);
       ("H", ACTIVATED_by "X", 50000); ("H", COMPLETED_by "X", 50000)]
  ∧ notifications_of "H"
      (snd (run machine_H [Node "X" 0; Node "Y" 20000;
                           Node "X" 50000; Tick 3000000]))
    = [StateCompleted "H" "X" "X" "heartbeat" 0; StateCompleted "H" "X" "X" "heartbeat" 50000].
Proof.
  exact (heartbeat_completes_at_once "H" "X" "heartbeat" 0%nat
           [Node "X" 0; Node "Y" 20000; Node "X" 50000; Tick 3000000]
           machine_H rule_H wf_machine_H eq_refl eq_refl rule_H_idle).
Defined.

(** C2 fails on the first event: "X" completes the heartbeat rule H. *)
Lemma heartbeat_completion_counterexample :
  snd (run machine_H [Node "X" 0]) = [StateCompleted "H" "X" "X" "heartbeat" 0]
  ∧ state_history (fst (run machine_H [Node "X" 0]))
    = [("H", ACTIVATED_by "X", 0); ("H", COMPLETED_by "X", 0)].
Proof. by vm_compute. Qed.

(* ===================================================================== *)
(** ** Sweep: what the timeout notification names                         *)
(* ===================================================================== *)

(** C1. Rule R, "A" at 0, "B" at 50 ms, a sweep at 300 ms: the instance
    waits for "C" (200 ms) and times out after 250 ms.  The sweep removes
    it and appends TIMEOUT, and the notification carries the 250 ms; but
    it is built after [_deactivate_state] has set the step index back to
    0, and names the first step: "B", 100 ms. *)
Theorem timeout_after_transition_names_first_step :
  snd (run machine_R [Node "A" 0; Node "B" 50000])  = []
  ∧ transitions rule_R_waiting_C !! current_transition_index rule_R_waiting_C
    = Some (mkTransition "C" 200 "Final transition to C")
  ∧ objects machine_R_waiting_C !! 0%nat = Some rule_R_waiting_C
  ∧ check_timeouts machine_R_waiting_C 300000
    = (mkMachine [rule_R] [("R", 0%nat)] []
                 [("R", ACTIVATED_by "A", 0); ("R", TRANSITION_to "C", 50000);
                  ("R", TIMEOUT_after 250000, 300000)],
       [("R", 0%nat, 250)])
  ∧ snd (sweep machine_R_waiting_C 300000)
    = [StateTimeout "R" "A" (Some "B") (Some 100) 250 "two steps" 300000]
  ∧ map expected_target (snd (sweep machine_R_waiting_C 300000))
    = [Some "B"].
Proof. by vm_compute. Qed.

(* ===================================================================== *)
(** ** Sweeping twice                                                     *)
(* ===================================================================== *)



(* ===================================================================== *)
(** ** The status of a rule                                               *)
(* ===================================================================== *)

(** A float above an integer truncates to that integer or more. *)
Lemma float_gt_int_le (x : spec_float) (n : Z) :
  float_gt_int x n = true → n ≤ int_of_float x.
Proof.
  unfold float_gt_int, int_of_float. destruct (dyadic x) as [m e].
  destruct (Z.leb_spec 0 e) as [He|He]; intros H%Z.ltb_lt; [lia|].
  assert (0 < 2 ^ (- e)) as Hpow by (apply Z.pow_pos_nonneg; lia).
  destruct (Z.le_gt_cases 0 m) as [Hm|Hm].
  - rewrite Z.quot_div_nonneg by lia.
    apply Z.div_le_lower_bound; lia.
  - rewrite <- (Z.opp_involutive m) at 1.
    rewrite Z.quot_opp_l by lia.
    rewrite Z.quot_div_nonneg by lia.
    assert ((- m) / 2 ^ (- e) ≤ - n); [|lia].
    apply Z.div_le_upper_bound; lia.
Qed.

Lemma int_ms_timed_out (elapsed_us : Z) (t : WatchdogTransition) :
  timed_out elapsed_us t = true → timeout_ms t ≤ int_ms elapsed_us.
Proof. apply float_gt_int_le. Qed.

(** The float at work.  After exactly 100 ms a timeout of 100 ms has not
    passed ([100.0 > 100] is false), but after exactly 2007 ms a timeout
    of 2007 ms has ([2.007 * 1000] is [2007.0000000000002]); and 1001 ms
    are reported as 1000 ([1.001 * 1000] is [1000.9999999999999]). *)
Lemma float_test_at_the_timeout :
  timed_out 100000 (mkTransition "B" 100 "Transition to B") = false
  ∧ timed_out 2007000 (mkTransition "B" 2007 "Transition to B") = true
  ∧ int_ms 2007000 = 2007
  ∧ int_ms 1001000 = 1000.
Proof. by vm_compute. Qed.

(** C10. For an active instance that waits for a step and has an
    activation time, [get_state_status] reports [elapsed_ms] as [int()]
    of the float [total_seconds() * 1000] and [remaining_ms] as
    [max(0, timeout_ms - elapsed_ms)] of the reported [elapsed_ms]; once
    the float exceeds the timeout of the step (the test of
    [check_timeouts]), and the instance has not been swept yet, that is
    0.  Whatever the rule, a reported [remaining_ms] is never negative. *)
Theorem remaining_ms_never_negative
        (sm : WatchdogStateMachine) (n : string) (now : datetime) :
  (∀ s rem, get_state_status sm n now = Some s →
            status_remaining_ms s = Some rem → 0 ≤ rem)
  ∧ (∀ r st t last,
        dict_get (states sm) n = Some r → objects sm !! r = Some st →
        is_active st = true →
        transitions st !! current_transition_index st = Some t →
        last_activation_time st = Some last →
        ∃ s, get_state_status sm n now = Some s
             ∧ status_current_target s = Some (target_node t)
             ∧ status_elapsed_ms s = Some (int_ms (now - last))
             ∧ status_remaining_ms s
               = Some (Z.max 0 (timeout_ms t - int_ms (now - last)))
             ∧ (∃ e, status_elapsed_ms s = Some e
                     ∧ status_current_timeout s = Some (timeout_ms t)
                     ∧ status_remaining_ms s
                       = Some (Z.max 0 (timeout_ms t - e)))
             ∧ (timed_out (now - last) t = true →
                status_remaining_ms s = Some 0)).
Proof.
  split.
  - intros s rem. unfold get_state_status.
    destruct (dict_get (states sm) n) as [r|]; [|done].
    destruct (objects sm !! r) as [st|]; [|done].
    intros [= <-]. simpl.
    destruct (if is_active st then _ else _) as [t|]; [|done].
    destruct (last_activation_time st) as [last|]; [|done].
    intros [= <-]. lia.
  - intros r st t last Hg Hl Ha Ht Hlast. unfold get_state_status.
    rewrite Hg, Hl, Ha, Ht, Hlast. eexists. split; [done|]. simpl.
    split; [done|]. split; [done|]. split; [done|].
    split; [by eexists|]. intros Hto%int_ms_timed_out. f_equal. lia.
Qed.

(** Rule R, activated at 0 and waiting for "B" (100 ms), asked for its
    status at 150 ms, before any sweep; and at 1001 ms, where the float
    is [1000.9999999999999] and 1000 is reported. *)
Lemma remaining_ms_never_negative_witness :
  (∃ s, get_state_status machine_R_waiting_B "R" 150000 = Some s
        ∧ status_elapsed_ms s = Some 150
        ∧ status_remaining_ms s = Some 0)
  ∧ (∃ s, get_state_status machine_R_waiting_B "R" 1001000 = Some s
          ∧ status_elapsed_ms s = Some 1000
          ∧ status_remaining_ms s = Some 0).
Proof.
  split.
  - destruct (proj2 (remaining_ms_never_negative machine_R_waiting_B "R"
                       150000)
                0%nat rule_R_waiting_B
                (mkTransition "B" 100 "Transition to B") 0
                eq_refl eq_refl eq_refl eq_refl eq_refl)
      as (s & H1 & _ & H2 & _ & _ & H3).
    exists s. split; [exact H1|]. split; [exact H2|]. exact (H3 eq_refl).
  - destruct (proj2 (remaining_ms_never_negative machine_R_waiting_B "R"
                       1001000)
                0%nat rule_R_waiting_B
                (mkTransition "B" 100 "Transition to B") 0
                eq_refl eq_refl eq_refl eq_refl eq_refl)
      as (s & H1 & _ & H2 & _ & _ & H3).
    exists s. split; [exact H1|]. split; [exact H2|]. exact (H3 eq_refl).
Defined.

(* ===================================================================== *)
(** ** The reader and unterminated lines                                  *)
(* ===================================================================== *)

Section reader_facts.
Import Reader.
Implicit Types (l t : line) (ls : list line) (s file prefix : list ascii).

Lemma split_no_newline l : no_newline l → split l = [l].
Proof.
  induction 1 as [|c l Hc Hl IH]; simpl; [done|]. by rewrite Hc, IH.
Qed.

Lemma split_line l s :
  no_newline l → split (l ++ newline :: s) = l :: split s.
Proof.
  induction 1 as [|c l Hc Hl IH]; simpl; [done|]. by rewrite Hc, IH.
Qed.

Lemma join_cons l ls t : join (l :: ls) t = l ++ newline :: join ls t.
Proof. unfold join. simpl. by rewrite <- !app_assoc. Qed.

Lemma split_join ls t :
  Forall no_newline ls → no_newline t → split (join ls t) = ls ++ [t].
Proof.
  intros Hls Ht. induction Hls as [|l ls Hl Hls IH].
  - by apply split_no_newline.
  - by rewrite join_cons, split_line, IH.
Qed.

Lemma endswith_newline_snoc s c :
  endswith_newline (s ++ [c]) = is_newline c.
Proof. unfold endswith_newline. by rewrite rev_app_distr. Qed.

Lemma join_nil_snoc ls :
  ls ≠ [] → ∃ s, join ls [] = s ++ [newline].
Proof.
  induction ls as [|l ls IH]; [done|]. intros _.
  destruct ls as [|l' ls].
  - exists l. unfold join. simpl. by rewrite !app_nil_r.
  - destruct IH as [s Hs]; [done|]. exists (l ++ newline :: s).
    rewrite join_cons, Hs. by rewrite <- app_assoc.
Qed.

Lemma endswith_newline_join_nil ls :
  ls ≠ [] → endswith_newline (join ls []) = true.
Proof.
  intros [s ->]%join_nil_snoc. by rewrite endswith_newline_snoc.
Qed.

Lemma endswith_newline_join_tail ls t :
  t ≠ [] → no_newline t → endswith_newline (join ls t) = false.
Proof.
  intros Hne Ht. destruct (exists_last Hne) as (t' & c & ->).
  unfold join. rewrite app_assoc, endswith_newline_snoc.
  unfold no_newline in Ht. apply Forall_app in Ht as [_ Hc].
  by inversion Hc.
Qed.

Lemma join_nonempty ls t : ls ≠ [] ∨ t ≠ [] → join ls t ≠ [].
Proof.
  intros [Hls|Ht]; unfold join.
  - destruct ls as [|l ls]; [done|]. simpl. by destruct l.
  - intros [_ ?]%app_eq_nil. done.
Qed.

Lemma join_tail ls t : join ls t = join ls [] ++ t.
Proof. unfold join. by rewrite app_nil_r. Qed.

Lemma keep_nil : keep [] = false.
Proof. done. Qed.

(** Bytes and characters. *)
Lemma utf8_length_pos c : (1 ≤ utf8_length c)%nat.
Proof. unfold utf8_length. destruct (_ <? _)%nat; lia. Qed.

Lemma byte_length_app s1 s2 :
  byte_length (s1 ++ s2) = (byte_length s1 + byte_length s2)%nat.
Proof. induction s1 as [|c s1 IH]; simpl; [done|]. rewrite IH. lia. Qed.

Lemma length_le_byte_length s : (length s ≤ byte_length s)%nat.
Proof.
  induction s as [|c s IH]; simpl; [done|].
  pose proof (utf8_length_pos c). lia.
Qed.

Lemma byte_length_one_byte s : one_byte s → byte_length s = length s.
Proof. induction 1 as [|c s Hc _ IH]; simpl; [done|]. by rewrite Hc, IH. Qed.

Lemma byte_length_nonempty s : s ≠ [] → (0 < byte_length s)%nat.
Proof.
  destruct s as [|c s]; [done|]. intros _. simpl.
  pose proof (utf8_length_pos c). lia.
Qed.

(** Reading from the end of [prefix] decodes what follows it. *)
Lemma decode_from_app prefix s :
  decode_from (byte_length prefix) (prefix ++ s) = Some s.
Proof.
  induction prefix as [|c prefix IH]; simpl.
  - by destruct s.
  - pose proof (utf8_length_pos c).
    destruct (utf8_length c + byte_length prefix =? 0)%nat eqn:E0.
    { apply Nat.eqb_eq in E0. lia. }
    destruct (utf8_length c <=? utf8_length c + byte_length prefix)%nat eqn:E1.
    + rewrite <- IH. f_equal. lia.
    + apply Nat.leb_gt in E1. lia.
Qed.

Lemma translate_no_cr s : no_cr s → translate s = s.
Proof. induction 1 as [|c s Hc _ IH]; simpl; [done|]. by rewrite Hc, IH. Qed.

(** A poll whose new text has at least one newline, or is empty: the
    terminated lines are returned and the handle is moved back from the
    end by the number of characters of the unterminated rest. *)
Lemma read_terminated prefix ls t :
  Forall no_newline ls → no_newline t → no_cr (join ls t) →
  ls ≠ [] ∨ t = [] →
  read_new_log_lines (prefix ++ join ls t) (Some (byte_length prefix))
  = (List.filter keep ls,
     Some (byte_length (prefix ++ join ls t) - length t)%nat).
Proof.
  intros Hls Ht Hcr Hcase. unfold read_new_log_lines.
  destruct ls as [|l0 ls0] eqn:Els.
  - destruct Hcase as [?| ->]; [done|]. unfold join. simpl.
    rewrite !app_nil_r.
    destruct (byte_length prefix <=? byte_length prefix)%nat eqn:E.
    + do 2 f_equal. simpl. lia.
    + apply Nat.leb_gt in E. lia.
  - rewrite <- Els in *. assert (ls ≠ []) as Hne by by rewrite Els.
    clear Els Hcase.
    assert (join ls t ≠ []) as Hj by (apply join_nonempty; by left).
    destruct (byte_length (prefix ++ join ls t) <=? byte_length prefix)%nat
      eqn:E.
    { apply Nat.leb_le in E. rewrite byte_length_app in E.
      pose proof (byte_length_nonempty _ Hj). lia. }
    rewrite decode_from_app, translate_no_cr by done.
    destruct (join ls t) as [|c rest] eqn:Ej; [done|].
    rewrite <- Ej. rewrite split_join by done.
    destruct t as [|c0 t0] eqn:Et.
    + rewrite endswith_newline_join_nil by done. simpl.
      rewrite List.filter_app. simpl. rewrite app_nil_r.
      do 2 f_equal. lia.
    + rewrite <- Et in *. assert (t ≠ []) as Htne by by rewrite Et.
      rewrite endswith_newline_join_tail by done.
      rewrite length_app. simpl length.
      destruct (1 <? length ls + 1)%nat eqn:E1.
      * simpl. by rewrite List.last_last, List.removelast_last.
      * apply Nat.ltb_ge in E1. destruct ls; [done|]. simpl in E1. lia.
Qed.

(** A poll whose new text is one unterminated line: the line is
    returned (unless blank) and the handle stands at the end. *)
Lemma read_single_unterminated prefix t :
  no_newline t → no_cr t → t ≠ [] →
  read_new_log_lines (prefix ++ t) (Some (byte_length prefix))
  = (List.filter keep [t], Some (byte_length (prefix ++ t))).
Proof.
  intros Ht Hcr Hne. unfold read_new_log_lines.
  destruct (byte_length (prefix ++ t) <=? byte_length prefix)%nat eqn:E.
  { apply Nat.leb_le in E. rewrite byte_length_app in E.
    pose proof (byte_length_nonempty _ Hne). lia. }
  rewrite decode_from_app, translate_no_cr by done.
  destruct t as [|c t0] eqn:Et; [done|].
  rewrite <- Et in *. rewrite split_no_newline by done.
  simpl length. rewrite andb_false_r. done.
Qed.

(** Where the unterminated rest begins, when its characters take one
    byte each. *)
Lemma rest_position prefix ls t :
  one_byte t →
  (byte_length (prefix ++ join ls t) - length t)%nat
  = byte_length (prefix ++ join ls []).
Proof.
  intros Ht. rewrite (join_tail ls t), !byte_length_app.
  rewrite (byte_length_one_byte t Ht). lia.
Qed.

Lemma no_cr_join_nil ls t : no_cr (join ls t) → no_cr (join ls []) ∧ no_cr t.
Proof.
  rewrite (join_tail ls t). unfold no_cr. by intros ?%Forall_app.
Qed.
End reader_facts.

(** C3, as the code has it, for a log whose line ends are newlines (no
    carriage return).  The log holds [prefix], already read, then the
    terminated lines [ls], at least one, and an unterminated rest [t]:
    the poll returns the lines of [ls] that are not blank, and not [t].
    When the characters of [t] take one byte each, the handle is moved
    back to the first character of [t], and the next poll reads [t]
    again from there: if the log has grown by [rest] and a newline by
    then, it returns the completed line [t ++ rest], whole; if nothing
    has been appended, it returns [t] as it stands.  When the new text is
    one unterminated line [t] (no newline at all), the poll returns it
    at once and the handle stands at the end of the log. *)
Theorem unterminated_rest_held_back
        (prefix : list ascii) (ls : list Reader.line) (t rest : Reader.line) :
  Forall Reader.no_newline ls → Reader.no_newline t →
  Reader.no_newline rest →
  Reader.no_cr (Reader.join ls t) → Reader.no_cr rest →
  (ls ≠ [] →
   Reader.read_new_log_lines (prefix ++ Reader.join ls t)
                             (Some (Reader.byte_length prefix))
   = (List.filter Reader.keep ls,
      Some (Reader.byte_length (prefix ++ Reader.join ls t) - length t)%nat)
   ∧ (Reader.one_byte t →
      Reader.decode_from
        (Reader.byte_length (prefix ++ Reader.join ls t) - length t)
        (prefix ++ Reader.join ls t) = Some t
      ∧ Reader.read_new_log_lines
          ((prefix ++ Reader.join ls t) ++ rest ++ [Reader.newline])
          (snd (Reader.read_new_log_lines
                  (prefix ++ Reader.join ls t)
                  (Some (Reader.byte_length prefix))))
        = (List.filter Reader.keep [t ++ rest],
           Some (Reader.byte_length ((prefix ++ Reader.join ls t)
                                     ++ rest ++ [Reader.newline])))
      ∧ (t ≠ [] →
         Reader.read_new_log_lines
           (prefix ++ Reader.join ls t)
           (snd (Reader.read_new_log_lines
                   (prefix ++ Reader.join ls t)
                   (Some (Reader.byte_length prefix))))
         = (List.filter Reader.keep [t],
            Some (Reader.byte_length (prefix ++ Reader.join ls t))))))
  ∧ (t ≠ [] →
     Reader.read_new_log_lines (prefix ++ t)
                               (Some (Reader.byte_length prefix))
     = (List.filter Reader.keep [t],
        Some (Reader.byte_length (prefix ++ t)))).
Proof.
  intros Hls Ht Hrest Hcr Hcrest. split.
  - intros Hne. rewrite read_terminated by auto. split; [done|].
    intros Hone. cbn [snd]. rewrite rest_position by done.
    destruct (no_cr_join_nil ls t Hcr) as [Hcr1 Hcr2].
    split; [|split].
    + rewrite (join_tail ls t), app_assoc. apply decode_from_app.
    + assert ((prefix ++ Reader.join ls t) ++ rest ++ [Reader.newline]
              = (prefix ++ Reader.join ls []) ++ Reader.join [t ++ rest] [])
        as Hfile.
      { rewrite (join_tail ls t). unfold Reader.join at 3. simpl.
        rewrite !app_nil_r. by rewrite <- !app_assoc. }
      rewrite Hfile. rewrite read_terminated.
      * do 2 f_equal. simpl. lia.
      * constructor; [|constructor]. unfold Reader.no_newline in *.
        apply Forall_app. by split.
      * constructor.
      * unfold Reader.join. simpl. rewrite !app_nil_r.
        unfold Reader.no_cr in *. rewrite <- app_assoc.
        apply Forall_app. split; [done|]. apply Forall_app.
        split; [done|]. by repeat constructor.
      * by left.
    + intros Htne. rewrite (join_tail ls t), app_assoc.
      by apply read_single_unterminated.
  - intros Hne. apply read_single_unterminated; [done| |done].
    by destruct (no_cr_join_nil ls t Hcr).
Qed.

(** The log "old", "one", "tw": the poll from byte 4 returns "one" and
    puts the handle back at byte 8; polled again as it is, the log gives
    "tw"; polled once "o" and a newline have come, it gives "two". *)
Lemma unterminated_rest_held_back_witness :
  Reader.read_new_log_lines
    (Reader.text "old" ++ Reader.newline
     :: Reader.text "one" ++ Reader.newline :: Reader.text "tw")
    (Some 4%nat)
  = ([Reader.text "one"], Some 8%nat)
  ∧ Reader.read_new_log_lines
      (Reader.text "old" ++ Reader.newline
       :: Reader.text "one" ++ Reader.newline :: Reader.text "tw"
       ++ Reader.text "o" ++ [Reader.newline])
      (Some 8%nat)
    = ([Reader.text "two"], Some 12%nat)
  ∧ Reader.read_new_log_lines
      (Reader.text "old" ++ Reader.newline
       :: Reader.text "one" ++ Reader.newline :: Reader.text "tw")
      (Some 8%nat)
    = ([Reader.text "tw"], Some 10%nat).
Proof.
  destruct (unterminated_rest_held_back
              (Reader.text "old" ++ [Reader.newline])
              [Reader.text "one"] (Reader.text "tw") (Reader.text "o"))
    as [H _].
  - repeat constructor.
  - repeat constructor.
  - repeat constructor.
  - repeat constructor.
  - repeat constructor.
  - destruct H as (H1 & H); [done|].
    destruct H as (_ & H2 & H3); [repeat constructor|].
    split; [exact H1|]. rewrite H1 in H2, H3.
    split; [exact H2|]. by apply H3.
Defined.

(** C3 as stated fails: when the new text is the unterminated "abc", the
    poll returns it and the handle moves to the end; once "def" and a
    newline follow, the next poll returns "def", and the line "abcdef"
    is never returned whole. *)
Lemma single_unterminated_line_counterexample :
  Reader.read_new_log_lines (Reader.text "abc") (Some 0%nat)
  = ([Reader.text "abc"], Some 3%nat)
  ∧ Reader.read_new_log_lines
      (Reader.text "abc" ++ Reader.text "def" ++ [Reader.newline])
      (Some 3%nat)
    = ([Reader.text "def"], Some 7%nat).
Proof. by vm_compute. Qed.

(* ===================================================================== *)
(** ** Further properties of the engine                                   *)
(* ===================================================================== *)

Section keeps.
Implicit Types (sm : WatchdogStateMachine) (n node : string) (r : ref)
         (f : WatchdogState → WatchdogState).

Lemma same_definition_refl st : same_definition st st.
Proof. by repeat split. Qed.

Lemma keeps_rules_refl sm : keeps_rules sm sm.
Proof.
  repeat split; [|by exists []; rewrite app_nil_r].
  intros r st H. exists st. split; [done|apply same_definition_refl].
Qed.

Lemma keeps_rules_trans sm1 sm2 sm3 :
  keeps_rules sm1 sm2 → keeps_rules sm2 sm3 → keeps_rules sm1 sm3.
Proof.
  intros (S1 & L1 & O1 & h1 & H1) (S2 & L2 & O2 & h2 & H2).
  split; [congruence|]. split; [congruence|]. split.
  - intros r st Hl. destruct (O1 r st Hl) as (st1 & Hl1 & D1 & D2 & D3 & D4).
    destruct (O2 r st1 Hl1) as (st2 & Hl2 & E1 & E2 & E3 & E4).
    exists st2. split; [done|]. repeat split; congruence.
  - exists (h1 ++ h2). by rewrite H2, H1, app_assoc.
Qed.

Lemma keeps_rules_alter sm r f :
  (∀ st, same_definition st (f st)) →
  keeps_rules sm (with_objects (alter f r (objects sm)) sm).
Proof.
  intros Hf. split; [done|]. split; [apply length_alter|]. split.
  - intros r0 st Hl. simpl. destruct (decide (r = r0)) as [->|Hne].
    + exists (f st). by rewrite list_lookup_alter_eq, Hl.
    + exists st. rewrite list_lookup_alter_ne by done.
      split; [done|apply same_definition_refl].
  - exists []. simpl. by rewrite app_nil_r.
Qed.

Lemma keeps_rules_active sm a : keeps_rules sm (with_active_states a sm).
Proof.
  repeat split; [|by exists []; simpl; rewrite app_nil_r].
  intros r st H. exists st. split; [done|apply same_definition_refl].
Qed.

Lemma keeps_rules_history sm e : keeps_rules sm (history_append e sm).
Proof.
  repeat split; [|by exists [e]].
  intros r st H. exists st. split; [done|apply same_definition_refl].
Qed.

Lemma keeps_rules_change sm r f a e :
  (∀ st, same_definition st (f st)) →
  keeps_rules sm
    (history_append e
       (with_active_states a (with_objects (alter f r (objects sm)) sm))).
Proof.
  intros Hf. eapply keeps_rules_trans; [by apply (keeps_rules_alter sm r f)|].
  eapply keeps_rules_trans; [apply (keeps_rules_active _ a)|].
  apply keeps_rules_history.
Qed.

Lemma activate_state_keeps sm n node now :
  keeps_rules sm (fst (activate_state sm n node now)).
Proof.
  unfold activate_state.
  destruct (dict_get (states sm) n) as [r|]; [|apply keeps_rules_refl].
  destruct (objects sm !! r) as [st|]; [|apply keeps_rules_refl].
  destruct (negb _); [apply keeps_rules_refl|].
  destruct (is_active st); cbn [fst].
  - eapply keeps_rules_trans; [|apply keeps_rules_history].
    by apply keeps_rules_alter.
  - by apply keeps_rules_change.
Qed.

Lemma deactivate_state_keeps sm n reason now :
  keeps_rules sm (deactivate_state sm n reason now).
Proof.
  unfold deactivate_state.
  destruct (dict_get (active_states sm) n) as [r|]; [|apply keeps_rules_refl].
  by apply keeps_rules_change.
Qed.

Lemma check_transition_keeps sm n node now :
  keeps_rules sm (fst (check_transition sm n node now)).
Proof.
  unfold check_transition.
  destruct (dict_get (active_states sm) n) as [r|]; [|apply keeps_rules_refl].
  destruct (objects sm !! r) as [st|]; [|apply keeps_rules_refl].
  destruct (transitions st !! _); [|apply keeps_rules_refl].
  destruct (String.eqb _ _); [|apply keeps_rules_refl].
  set (sm1 := with_objects _ sm).
  assert (keeps_rules sm sm1) as H1 by by apply keeps_rules_alter.
  destruct (transitions _ !! _); cbn [fst];
    (eapply keeps_rules_trans; [exact H1|]).
  - eapply keeps_rules_trans; [|apply keeps_rules_history].
    by apply keeps_rules_alter.
  - apply deactivate_state_keeps.
Qed.

Lemma trigger_loop_keeps items sm node now :
  keeps_rules sm (trigger_loop items sm node now).
Proof.
  revert sm. induction items as [|[m x] items IH]; intros sm; simpl.
  - apply keeps_rules_refl.
  - eapply keeps_rules_trans; [apply activate_state_keeps|apply IH].
Qed.

Lemma advance_loop_keeps items sm node now :
  keeps_rules sm (fst (advance_loop items sm node now)).
Proof.
  revert sm. induction items as [|[m x] items IH]; intros sm.
  - apply keeps_rules_refl.
  - rewrite advance_loop_fst_snd. cbn [fst].
    eapply keeps_rules_trans; [|apply IH].
    rewrite advance_body_fst. apply check_transition_keeps.
Qed.

Lemma check_timeouts_loop_keeps items now sm ts :
  keeps_rules sm (fst (fold_left (check_timeouts_step now) items (sm, ts))).
Proof.
  revert sm ts. induction items as [|[m x] items IH]; intros sm ts;
    cbn [fold_left].
  - apply keeps_rules_refl.
  - destruct (check_timeouts_step_cases now sm ts m x) as [->|[e ->]];
      [apply IH|].
    eapply keeps_rules_trans; [apply deactivate_state_keeps|apply IH].
Qed.

Lemma step_keeps sm e : keeps_rules sm (fst (step sm e)).
Proof.
  destruct e as [x now|now]; simpl.
  - unfold check_state_machine_rules, advance, trigger.
    eapply keeps_rules_trans; [apply trigger_loop_keeps|].
    apply advance_loop_keeps.
  - rewrite sweep_fst. apply check_timeouts_loop_keeps.
Qed.
End keeps.

(** X1. Whatever events and sweeps the monitor feeds the engine, the
    registry [states] stays as loaded, no object is created or lost, every
    rule keeps its name, start node, steps and description, and the
    history only grows: what was written stays, in place. *)
Theorem run_keeps_rules (sm : WatchdogStateMachine) (es : list Event) :
  keeps_rules sm (fst (run sm es)).
Proof.
  revert sm. induction es as [|e es IH]; intros sm.
  - apply keeps_rules_refl.
  - rewrite run_cons. cbn [fst].
    eapply keeps_rules_trans; [apply step_keeps|apply IH].
Qed.

Section steadiness.
Implicit Types (sm : WatchdogStateMachine) (n node : string) (r : ref)
         (f : WatchdogState → WatchdogState).

Lemma steady_alter sm r f :
  steady sm →
  (∀ st, objects sm !! r = Some st → steady_state st → steady_state (f st)) →
  steady (with_objects (alter f r (objects sm)) sm).
Proof.
  intros Hs Hf r0 st0. simpl. destruct (decide (r = r0)) as [->|Hne].
  - rewrite list_lookup_alter_eq.
    destruct (objects sm !! r0) as [st|] eqn:E; [|done].
    intros [= <-]. apply Hf; [done|]. by eapply Hs.
  - rewrite list_lookup_alter_ne by done. apply Hs.
Qed.

Lemma steady_objects sm sm' :
  objects sm' = objects sm → steady sm → steady sm'.
Proof. intros E Hs r st. rewrite E. apply Hs. Qed.

Lemma steady_history sm e : steady sm → steady (history_append e sm).
Proof. done. Qed.

Lemma steady_active sm a : steady sm → steady (with_active_states a sm).
Proof. done. Qed.

Lemma steady_state_deactivated st :
  transitions st ≠ [] → steady_state (deactivated st).
Proof. by split. Qed.

Lemma activate_state_steady sm n node now :
  steady sm → steady (fst (activate_state sm n node now)).
Proof.
  intros Hs. unfold activate_state.
  destruct (dict_get (states sm) n) as [r|]; [|done].
  destruct (objects sm !! r) as [st|] eqn:Hl; [|done].
  destruct (negb _); [done|].
  destruct (is_active st) eqn:Ha; cbn [fst].
  - apply steady_history, steady_alter; [done|].
    intros st' Hl' [Hne Hst]. assert (st' = st) as -> by congruence.
    split; [done|]. simpl. rewrite Ha in *. by destruct Hst.
  - apply steady_history, steady_active, steady_alter; [done|].
    intros st' Hl' [Hne Hst]. split; [done|]. simpl. split; [|done].
    destruct (transitions st'); [done|simpl; lia].
Qed.

Lemma deactivate_state_steady sm n reason now :
  steady sm → steady (deactivate_state sm n reason now).
Proof.
  intros Hs. unfold deactivate_state.
  destruct (dict_get (active_states sm) n) as [r|]; [|done].
  apply steady_history, steady_active, steady_alter; [done|].
  intros st Hl [Hne _]. by apply steady_state_deactivated.
Qed.

Lemma check_transition_steady sm n node now :
  wf sm → steady sm → steady (fst (check_transition sm n node now)).
Proof.
  intros Hwf Hs. unfold check_transition.
  destruct (dict_get (active_states sm) n) as [r|] eqn:Hg; [|done].
  destruct (objects sm !! r) as [st|] eqn:Hl; [|done].
  destruct (transitions st !! _) as [t|] eqn:Ht; [|done].
  destruct (String.eqb _ _); [|done].
  destruct (wf_active_obj _ Hwf _ _ Hg) as (st' & Hl' & Ha).
  assert (st' = st) as -> by congruence.
  cbn [transitions current_transition_index set_current_transition_index].
  destruct (transitions st !! S _) as [t'|] eqn:Ht'; cbn [fst].
  - apply steady_history.
    apply (steady_objects
             (with_objects
                (alter (set_last_activation_time (Some now)
                        ∘ set_current_transition_index
                            (S (current_transition_index st)))
                       r (objects sm)) sm));
      [simpl; apply list_alter_alter_eq|].
    apply steady_alter; [done|].
    intros st0 Hl0 [Hne _]. assert (st0 = st) as -> by congruence.
    split; [done|]. simpl. rewrite Ha. split; [|done].
    by eapply lookup_lt_Some.
  - unfold deactivate_state. cbn [active_states with_objects objects].
    rewrite Hg. apply steady_history, steady_active.
    apply (steady_objects
             (with_objects
                (alter (deactivated
                        ∘ set_current_transition_index
                            (S (current_transition_index st)))
                       r (objects sm)) sm));
      [simpl; apply list_alter_alter_eq|].
    apply steady_alter; [done|]. intros st0 Hl0 [Hne _].
    by apply steady_state_deactivated.
Qed.

Lemma trigger_loop_steady items sm node now :
  steady sm → steady (trigger_loop items sm node now).
Proof.
  revert sm. induction items as [|[m x] items IH]; intros sm Hs; simpl;
    [done|]. by apply IH, activate_state_steady.
Qed.

Lemma advance_loop_steady items sm node now :
  wf sm → steady sm → steady (fst (advance_loop items sm node now)).
Proof.
  revert sm. induction items as [|[m x] items IH]; intros sm Hwf Hs; [done|].
  rewrite advance_loop_fst_snd. cbn [fst]. rewrite advance_body_fst.
  apply IH; [by apply check_transition_wf|by apply check_transition_steady].
Qed.

Lemma check_timeouts_loop_steady items now sm ts :
  steady sm →
  steady (fst (fold_left (check_timeouts_step now) items (sm, ts))).
Proof.
  revert sm ts. induction items as [|[m x] items IH]; intros sm ts Hs;
    cbn [fold_left]; [done|].
  destruct (check_timeouts_step_cases now sm ts m x) as [->|[e ->]];
    [by apply IH|]. by apply IH, deactivate_state_steady.
Qed.

Lemma step_steady sm e : wf sm → steady sm → steady (fst (step sm e)).
Proof.
  intros Hwf Hs. destruct e as [x now|now]; simpl.
  - unfold check_state_machine_rules, advance, trigger.
    apply advance_loop_steady; [by apply trigger_loop_wf|].
    by apply trigger_loop_steady.
  - rewrite sweep_fst. by apply check_timeouts_loop_steady.
Qed.

Lemma run_steady es sm : wf sm → steady sm → steady (fst (run sm es)).
Proof.
  revert sm. induction es as [|e es IH]; intros sm Hwf Hs; [done|].
  rewrite run_cons. cbn [fst].
  apply IH; [by apply step_wf|by apply step_steady].
Qed.

Lemma add_state_steady sm state :
  steady sm → steady_state state → steady (add_state sm state).
Proof.
  intros Hs Hst r st. simpl.
  destruct (decide (r < length (objects sm))%nat).
  - rewrite lookup_app_l by done. apply Hs.
  - rewrite lookup_app_r by lia.
    destruct (r - length (objects sm))%nat; simpl; [|done]. congruence.
Qed.

Lemma steady_init : steady init.
Proof. by intros r st H. Qed.
End steadiness.

(** X2. If every rule has at least one step and the objects are as the
    loader makes them or the engine leaves them, they stay so through
    every run of events and sweeps: an instance of the active set always
    waits for an existing step ([current_transition_index] is below the
    number of steps) and always has an activation time, and a rule
    without instance has index 0 and no activation time.  So the
    [continue] of [check_timeouts] is never taken for an active
    instance. *)
Theorem run_keeps_instances_steady
        (sm : WatchdogStateMachine) (es : list Event) :
  wf sm → steady sm →
  steady (fst (run sm es))
  ∧ ∀ n r, dict_get (active_states (fst (run sm es))) n = Some r →
           ∃ st t last,
             objects (fst (run sm es)) !! r = Some st
             ∧ is_active st = true
             ∧ transitions st !! current_transition_index st = Some t
             ∧ last_activation_time st = Some last.
Proof.
  intros Hwf Hs. pose proof (run_steady es sm Hwf Hs) as Hs'.
  split; [done|]. intros n r Hg.
  destruct (wf_active_obj _ (run_wf es sm Hwf) _ _ Hg) as (st & Hl & Ha).
  destruct (Hs' r st Hl) as [Hne Hst]. rewrite Ha in Hst.
  destruct Hst as [Hlt Hlast].
  destruct (lookup_lt_is_Some_2 _ _ Hlt) as [t Ht].
  destruct (last_activation_time st) as [last|] eqn:E; [|done].
  by exists st, t, last.
Qed.

Lemma steady_machine_R : steady machine_R.
Proof.
  apply add_state_steady; [apply steady_init|]. by split.
Qed.

Lemma run_keeps_instances_steady_witness :
  steady (fst (run machine_R [Node "A" 0; Node "B" 50000; Tick 100000])).
Proof.
  exact (proj1 (run_keeps_instances_steady machine_R
                  [Node "A" 0; Node "B" 50000; Tick 100000]
                  wf_machine_R steady_machine_R)).
Defined.

Section next_step.
Variables (sm : WatchdogStateMachine) (n : string) (r : ref)
          (st : WatchdogState) (t t' : WatchdogTransition) (now : datetime).

Hypothesis Hwf : wf sm.
Hypothesis Hactive : dict_get (active_states sm) n = Some r.
Hypothesis Hobj : objects sm !! r = Some st.
Hypothesis Hstep : transitions st !! current_transition_index st = Some t.
Hypothesis Hnext :
  transitions st !! S (current_transition_index st) = Some t'.

Lemma advance_body_moves :
  advance_body sm (n, r) (target_node t) now
  = (history_append (n, TRANSITION_to (target_node t'), now)
       (with_objects
          (alter (set_last_activation_time (Some now)) r
             (alter (set_current_transition_index
                       (S (current_transition_index st))) r (objects sm)))
          sm),
     []).
Proof using Hactive Hobj Hstep Hnext.
  unfold advance_body, check_transition.
  rewrite Hactive, Hobj, Hstep, String.eqb_refl.
  cbn [transitions current_transition_index set_current_transition_index].
  by rewrite Hnext.
Qed.

(** The second loop on an instance whose pending step is not the last. *)
Lemma advance_next_step :
  dict_get (active_states (fst (advance sm (target_node t) now))) n = Some r
  ∧ objects (fst (advance sm (target_node t) now)) !! r
    = Some (set_last_activation_time (Some now)
              (set_current_transition_index
                 (S (current_transition_index st)) st))
  ∧ history_of n (state_history (fst (advance sm (target_node t) now)))
    = history_of n (state_history sm)
      ++ [(n, TRANSITION_to (target_node t'), now)]
  ∧ notifications_of n (snd (advance sm (target_node t) now)) = [].
Proof using Hwf Hactive Hobj Hstep Hnext.
  pose proof (wf_active_states _ Hwf _ _ Hactive) as Hstates.
  destruct (advance_loop_own (active_states sm) sm n r (target_node t) now)
    as [(HS & HO & HA & HH) HN];
    [done|by apply wf_active_keys|by apply dict_get_Some_elem|done|].
  rewrite advance_body_moves in HS, HO, HA, HH, HN. simpl in *.
  fold (advance sm (target_node t) now) in *.
  split; [|split; [|split]].
  - by rewrite HA.
  - by rewrite (HO r Hstates), !list_lookup_alter_eq, Hobj.
  - by rewrite HH, history_of_own.
  - done.
Qed.
End next_step.

(** X3. When the node an active instance waits for comes and the rule
    has a further step, the second loop of the monitor moves the instance
    to that step: the index grows by one, the activation time becomes
    [now] (the deadline of the next step runs from here), the instance
    stays in the active set, TRANSITION to the next target is appended to
    the rule's history, and nothing is notified for the rule. *)
Theorem advance_moves_to_next_step
        (sm : WatchdogStateMachine) (n : string) (r : ref)
        (st : WatchdogState) (t t' : WatchdogTransition) (now : datetime) :
  wf sm → dict_get (active_states sm) n = Some r →
  objects sm !! r = Some st →
  transitions st !! current_transition_index st = Some t →
  transitions st !! S (current_transition_index st) = Some t' →
  dict_get (active_states (fst (advance sm (target_node t) now))) n = Some r
  ∧ objects (fst (advance sm (target_node t) now)) !! r
    = Some (set_last_activation_time (Some now)
              (set_current_transition_index
                 (S (current_transition_index st)) st))
  ∧ history_of n (state_history (fst (advance sm (target_node t) now)))
    = history_of n (state_history sm)
      ++ [(n, TRANSITION_to (target_node t'), now)]
  ∧ notifications_of n (snd (advance sm (target_node t) now)) = [].
Proof. apply advance_next_step. Qed.

Lemma advance_moves_to_next_step_witness :
  objects (fst (advance machine_R_waiting_B "B" 50000)) !! 0%nat
  = Some rule_R_waiting_C
  ∧ notifications_of "R" (snd (advance machine_R_waiting_B "B" 50000)) = [].
Proof.
  pose proof (advance_moves_to_next_step machine_R_waiting_B "R" 0%nat
                rule_R_waiting_B
                (mkTransition "B" 100 "Transition to B")
                (mkTransition "C" 200 "Final transition to C") 50000
                wf_machine_R_waiting_B eq_refl eq_refl eq_refl eq_refl)
    as (_ & H1 & _ & H2).
  split; [exact H1 | exact H2].
Defined.

Section in_time.
Variables (sm : WatchdogStateMachine) (n : string) (r : ref)
          (st : WatchdogState) (now : datetime).

Hypothesis Hwf : wf sm.
Hypothesis Hactive : dict_get (active_states sm) n = Some r.
Hypothesis Hobj : objects sm !! r = Some st.

Lemma check_timeouts_loop_within_own items ts :
  within_timeout now st = true →
  ∀ sm0, wf sm0 → same_rule n sm sm0 →
  (∀ x, (n, x) ∈ items → x = r) →
  same_rule n sm (fst (fold_left (check_timeouts_step now) items (sm0, ts)))
  ∧ timeouts_of n (snd (fold_left (check_timeouts_step now) items (sm0, ts)))
    = timeouts_of n ts.
Proof using Hwf Hactive Hobj.
  intros Hw. pose proof (wf_active_states _ Hwf _ _ Hactive) as Hstates.
  revert ts. induction items as [|[m x] items IH];
    intros ts sm0 Hwf0 Hsame Hitems; cbn [fold_left]; [done|].
  assert (∀ x0, (n, x0) ∈ items → x0 = r) as Hitems'.
  { intros x0 Hx. apply Hitems. by apply list_elem_of_further. }
  destruct (decide (m = n)) as [->|Hne].
  - assert (x = r) as -> by (apply Hitems; apply list_elem_of_here).
    rewrite (check_timeouts_step_within now sm0 ts n r st); [by apply IH| |done].
    destruct Hsame as (_ & HO & _). by rewrite (HO r Hstates).
  - destruct (check_timeouts_step_cases now sm0 ts m x) as [->|[e ->]];
      [by apply IH|].
    destruct (IH (ts ++ [(m, x, int_ms e)])
                 (deactivate_state sm0 m (TIMEOUT_after e) now))
      as [Hs Ht]; [by apply deactivate_state_wf| |done|].
    + eapply same_rule_trans; [exact Hsame|].
      by apply deactivate_state_other.
    + split; [done|]. rewrite Ht, timeouts_of_app. simpl.
      destruct (String.eqb m n) eqn:E; [|apply app_nil_r].
      apply String.eqb_eq in E. done.
Qed.

(** X4. A sweep leaves alone an active instance for which the test of
    [check_timeouts] fails, that is, whose elapsed time, as the float
    [total_seconds() * 1000], is not above the timeout of its pending
    step: the instance stays in the active set with its object as it
    was, nothing is added to the rule's history, and no timeout is
    notified for it, whatever happens to the other rules in the same
    sweep.  (At an elapsed time equal to the timeout the float decides:
    see [float_test_at_the_timeout].) *)
Theorem sweep_spares_instance_in_time (t : WatchdogTransition) (last : datetime) :
  last_activation_time st = Some last →
  transitions st !! current_transition_index st = Some t →
  timed_out (now - last) t = false →
  dict_get (active_states (fst (sweep sm now))) n = Some r
  ∧ objects (fst (sweep sm now)) !! r = Some st
  ∧ history_of n (state_history (fst (sweep sm now)))
    = history_of n (state_history sm)
  ∧ notifications_of n (snd (sweep sm now)) = [].
Proof using Hwf Hactive Hobj.
  intros Hlast Hstep Hle.
  assert (within_timeout now st = true) as Hw.
  { unfold within_timeout. rewrite Hlast, Hstep. by rewrite Hle. }
  pose proof (wf_active_states _ Hwf _ _ Hactive) as Hstates.
  destruct (check_timeouts_loop_within_own (active_states sm) [] Hw sm Hwf
              (same_rule_refl n sm)) as [(HS & HO & HA & HH) HT].
  { intros x Hx. apply (dict_get_elem _ _ _ (wf_active_keys _ Hwf)) in Hx.
    congruence. }
  fold (check_timeouts sm now) in *.
  rewrite sweep_fst, sweep_snd. split; [|split; [|split]].
  - by rewrite HA.
  - by rewrite (HO r Hstates).
  - done.
  - by rewrite send_timeouts_of, HT.
Qed.
End in_time.

Lemma sweep_spares_instance_in_time_witness :
  dict_get (active_states (fst (sweep machine_R_waiting_B 100000))) "R"
  = Some 0%nat
  ∧ notifications_of "R" (snd (sweep machine_R_waiting_B 100000)) = [].
Proof.
  pose proof (sweep_spares_instance_in_time machine_R_waiting_B "R" 0%nat
                rule_R_waiting_B 100000
                wf_machine_R_waiting_B eq_refl eq_refl
                (mkTransition "B" 100 "Transition to B") 0
                eq_refl eq_refl) as (H1 & _ & _ & H2).
  - by vm_compute.
  - split; [exact H1 | exact H2].
Defined.

Section one_rule.
Variables (n : string) (r : ref).
Implicit Types (sm : WatchdogStateMachine) (st : WatchdogState)
         (node : string) (now : datetime).

Lemma active_in_active_states sm st :
  wf sm → dict_get (states sm) n = Some r → objects sm !! r = Some st →
  is_active st = true → dict_get (active_states sm) n = Some r.
Proof.
  intros Hwf Hg Hl Ha.
  destruct (wf_states_obj _ Hwf _ _ Hg) as (st' & Hl' & Hn).
  rewrite Hl in Hl'. injection Hl' as <-. rewrite <- Hn.
  by apply (wf_live _ Hwf).
Qed.

(** The first loop, when the node is not the start node of the rule. *)
Lemma trigger_other_node sm st node now :
  wf sm → dict_get (states sm) n = Some r → objects sm !! r = Some st →
  start_node st ≠ node → same_rule n sm (trigger sm node now).
Proof.
  intros Hwf Hg Hl Hne.
  pose proof (trigger_own sm n r node now Hwf Hg) as Hsame.
  assert (activate_state sm n node now = (sm, false)) as Hmiss.
  { unfold activate_state. rewrite Hg, Hl.
    destruct (String.eqb node (start_node st)) eqn:E; [|done].
    apply String.eqb_eq in E. congruence. }
  by rewrite Hmiss in Hsame.
Qed.

(** The second loop, when the node is not the one the rule waits for. *)
Lemma advance_other_node sm st node now :
  wf sm → dict_get (states sm) n = Some r → objects sm !! r = Some st →
  (is_active st = true →
   ∀ t, transitions st !! current_transition_index st = Some t →
        target_node t ≠ node) →
  same_rule n sm (fst (advance sm node now))
  ∧ notifications_of n (snd (advance sm node now)) = [].
Proof.
  intros Hwf Hg Hl Hne. destruct (is_active st) eqn:Ha.
  - pose proof (active_in_active_states sm st Hwf Hg Hl Ha) as Hact.
    destruct (advance_loop_own (active_states sm) sm n r node now)
      as [Hs Hn];
      [done|by apply wf_active_keys|by apply dict_get_Some_elem|done|].
    assert (advance_body sm (n, r) node now = (sm, [])) as Hmiss.
    { unfold advance_body, check_transition. rewrite Hact, Hl.
      destruct (transitions st !! _) as [t|] eqn:Ht; [|done].
      destruct (String.eqb node (target_node t)) eqn:E; [|done].
      apply String.eqb_eq in E. exfalso. by eapply Hne. }
    by rewrite Hmiss in Hs, Hn.
  - apply advance_loop_untouched; [done|]. apply dict_get_None.
    destruct (dict_get (active_states sm) n) as [r'|] eqn:E; [|done].
    destruct (wf_active_obj _ Hwf _ _ E) as (st' & Hl' & Ha').
    apply (wf_active_states _ Hwf) in E. congruence.
Qed.

(** X5. An event whose node is neither the start node of a rule nor the
    node its instance waits for leaves that rule as it was (its object,
    its place in the active set, its part of the history) and notifies
    nothing for it, even when the same event drives other rules. *)
Theorem event_leaves_other_rules_alone sm st node now :
  wf sm → dict_get (states sm) n = Some r → objects sm !! r = Some st →
  start_node st ≠ node →
  (is_active st = true →
   ∀ t, transitions st !! current_transition_index st = Some t →
        target_node t ≠ node) →
  objects (fst (check_state_machine_rules sm node now)) !! r = Some st
  ∧ dict_get (active_states (fst (check_state_machine_rules sm node now))) n
    = dict_get (active_states sm) n
  ∧ history_of n (state_history (fst (check_state_machine_rules sm node now)))
    = history_of n (state_history sm)
  ∧ notifications_of n (snd (check_state_machine_rules sm node now)) = [].
Proof.
  intros Hwf Hg Hl Hstart Htarget.
  pose proof (trigger_other_node sm st node now Hwf Hg Hl Hstart)
    as (S1 & O1 & A1 & H1).
  destruct (advance_other_node (trigger sm node now) st node now)
    as [(S2 & O2 & A2 & H2) N2];
    [by apply trigger_wf|congruence|by rewrite (O1 r Hg)|done|].
  unfold check_state_machine_rules.
  split; [|split; [|split]]; [|congruence..|done].
  rewrite O2 by congruence. by rewrite (O1 r Hg).
Qed.
End one_rule.

(** Rules R and H side by side, R waiting for "B". *)
Lemma wf_machine_RH : wf (fst (run (add_state machine_R rule_H) [Node "A" 0])).
Proof.
  apply run_wf, add_state_wf; [apply wf_machine_R|done..].
Qed.

Lemma event_leaves_other_rules_alone_witness :
  objects (fst (check_state_machine_rules
                  (fst (run (add_state machine_R rule_H) [Node "A" 0]))
                  "X" 10000)) !! 0%nat
  = Some rule_R_waiting_B
  ∧ notifications_of "R"
      (snd (check_state_machine_rules
              (fst (run (add_state machine_R rule_H) [Node "A" 0]))
              "X" 10000)) = [].
Proof.
  pose proof (event_leaves_other_rules_alone "R" 0%nat
                (fst (run (add_state machine_R rule_H) [Node "A" 0]))
                rule_R_waiting_B "X" 10000 wf_machine_RH eq_refl eq_refl)
    as H.
  destruct H as (H1 & _ & _ & H2).
  - discriminate.
  - intros _ t Ht. injection Ht as <-. discriminate.
  - split; [exact H1 | exact H2].
Defined.

Section chain.
Variables (n : string) (r : ref).
Implicit Types (sm : WatchdogStateMachine) (st : WatchdogState)
         (t : WatchdogTransition) (now : datetime).

(** The whole event, for the awaited node of a step that is not the
    last. *)
Lemma event_next_step sm st t t' now :
  wf sm → dict_get (states sm) n = Some r → objects sm !! r = Some st →
  is_active st = true →
  transitions st !! current_transition_index st = Some t →
  transitions st !! S (current_transition_index st) = Some t' →
  start_node st ≠ target_node t →
  objects (fst (check_state_machine_rules sm (target_node t) now)) !! r
  = Some (set_last_activation_time (Some now)
            (set_current_transition_index
               (S (current_transition_index st)) st))
  ∧ history_of n (state_history
                    (fst (check_state_machine_rules sm (target_node t) now)))
    = history_of n (state_history sm)
      ++ [(n, TRANSITION_to (target_node t'), now)]
  ∧ notifications_of n (snd (check_state_machine_rules sm (target_node t) now))
    = [].
Proof.
  intros Hwf Hg Hl Ha Ht Ht' Hne.
  pose proof (trigger_other_node n r sm st (target_node t) now Hwf Hg Hl Hne)
    as (S1 & O1 & A1 & H1).
  pose proof (trigger_wf sm (target_node t) now Hwf) as Hwf1.
  pose proof (active_in_active_states n r sm st Hwf Hg Hl Ha) as Hact.
  destruct (advance_next_step (trigger sm (target_node t) now) n r st t t' now)
    as (_ & B2 & B3 & B4); [done|congruence|by rewrite (O1 r Hg)|done..|].
  unfold check_state_machine_rules. rewrite B3, H1. done.
Qed.

(** The whole event, for the awaited node of the last step. *)
Lemma event_last_step sm st t now :
  wf sm → dict_get (states sm) n = Some r → objects sm !! r = Some st →
  is_active st = true →
  transitions st !! current_transition_index st = Some t →
  length (transitions st) = S (current_transition_index st) →
  start_node st ≠ target_node t →
  dict_get (active_states
              (fst (check_state_machine_rules sm (target_node t) now))) n
  = None
  ∧ history_of n (state_history
                    (fst (check_state_machine_rules sm (target_node t) now)))
    = history_of n (state_history sm)
      ++ [(n, COMPLETED_by (target_node t), now)]
  ∧ notifications_of n (snd (check_state_machine_rules sm (target_node t) now))
    = [StateCompleted n (start_node st) (target_node t) (description st) now].
Proof.
  intros Hwf Hg Hl Ha Ht Hlen Hne.
  pose proof (trigger_other_node n r sm st (target_node t) now Hwf Hg Hl Hne)
    as (S1 & O1 & A1 & H1).
  pose proof (trigger_wf sm (target_node t) now Hwf) as Hwf1.
  pose proof (active_in_active_states n r sm st Hwf Hg Hl Ha) as Hact.
  destruct (advance_last_step (trigger sm (target_node t) now) n r st t now)
    as (B1 & _ & B3 & B4); [done|congruence|by rewrite (O1 r Hg)|done..|].
  unfold check_state_machine_rules. rewrite B3, H1. done.
Qed.

Lemma chain_events_cons t ts now times :
  chain_events (t :: ts) (now :: times)
  = Node (target_node t) now :: chain_events ts times.
Proof. done. Qed.

Lemma drop_cons_inv {A} (l : list A) (i : nat) (x : A) (rest : list A) :
  drop i l = x :: rest → l !! i = Some x ∧ drop (S i) l = rest.
Proof.
  intros H. assert (l !! i = Some x) as Hx.
  { rewrite <- (Nat.add_0_r i), <- lookup_drop, H. done. }
  split; [done|]. rewrite (drop_S _ _ _ Hx) in H. congruence.
Qed.

(** From any step on: the awaited nodes, in order, walk the rest of the
    rule and complete it. *)
Lemma chain_from_step rest :
  ∀ t times sm st,
    wf sm → dict_get (states sm) n = Some r → objects sm !! r = Some st →
    is_active st = true →
    drop (current_transition_index st) (transitions st) = t :: rest →
    start_node st ∉ map target_node (t :: rest) →
    length times = S (length rest) →
    dict_get (active_states (fst (run sm (chain_events (t :: rest) times)))) n
    = None
    ∧ history_of n (state_history
                      (fst (run sm (chain_events (t :: rest) times))))
      = history_of n (state_history sm) ++ chain_history n (t :: rest) times
    ∧ notifications_of n (snd (run sm (chain_events (t :: rest) times)))
      = chain_notifications n (start_node st) (description st)
                            (t :: rest) times.
Proof.
  induction rest as [|t' rest IH];
    intros t times sm st Hwf Hg Hl Ha Hdrop Hstart Hlen.
  - destruct times as [|now [|? ?]]; try done.
    destruct (drop_cons_inv _ _ _ _ Hdrop) as [Ht Hnil].
    assert (length (transitions st) = S (current_transition_index st)) as Hl1.
    { apply (f_equal length) in Hdrop. rewrite length_drop in Hdrop.
      simpl in Hdrop. lia. }
    assert (start_node st ≠ target_node t) as Hne.
    { intros E. apply Hstart. rewrite E. apply list_elem_of_here. }
    destruct (event_last_step sm st t now Hwf Hg Hl Ha Ht Hl1 Hne)
      as (E1 & E2 & E3).
    rewrite chain_events_cons, run_cons.
    cbn [chain_events zip_with run fst snd step chain_history
         chain_notifications].
    by rewrite app_nil_r.
  - destruct times as [|now times]; [done|].
    destruct (drop_cons_inv _ _ _ _ Hdrop) as [Ht Hrest].
    destruct (drop_cons_inv _ _ _ _ Hrest) as [Ht' _].
    assert (start_node st ≠ target_node t) as Hne.
    { intros E. apply Hstart. rewrite E. apply list_elem_of_here. }
    destruct (event_next_step sm st t t' now Hwf Hg Hl Ha Ht Ht' Hne)
      as (E1 & E2 & E3).
    set (sm1 := fst (check_state_machine_rules sm (target_node t) now)) in *.
    assert (wf sm1) as Hwf1 by by apply check_state_machine_rules_wf.
    assert (dict_get (states sm1) n = Some r) as Hg1.
    { unfold sm1, check_state_machine_rules, advance, trigger.
      by rewrite advance_loop_states, trigger_loop_states. }
    destruct (IH t' times sm1 _ Hwf1 Hg1 E1) as (F1 & F2 & F3).
    + by simpl.
    + simpl. done.
    + intros Hin. apply Hstart. by apply list_elem_of_further.
    + simpl in Hlen. lia.
    + rewrite chain_events_cons, run_cons.
      cbn [fst snd step]. fold sm1.
      split; [done|]. split.
      * rewrite F2, E2, <- app_assoc. done.
      * rewrite notifications_of_app, E3, F3. done.
Qed.

(** X6. A rule without instance whose start node is none of its targets:
    its start node followed by its targets in order, at any instants and
    with no sweep in between, takes it through all its steps.  The
    rule's history gains ACTIVATED, one TRANSITION per step but the last
    and COMPLETED; one completion is notified, naming the last target;
    and the rule has no instance afterwards. *)
Theorem nodes_in_order_complete_rule sm st now0 times :
  wf sm → dict_get (states sm) n = Some r → objects sm !! r = Some st →
  is_active st = false → transitions st ≠ [] →
  start_node st ∉ map target_node (transitions st) →
  length times = length (transitions st) →
  dict_get (active_states
              (fst (run sm (Node (start_node st) now0
                            :: chain_events (transitions st) times)))) n
  = None
  ∧ history_of n
      (state_history
         (fst (run sm (Node (start_node st) now0
                       :: chain_events (transitions st) times))))
    = history_of n (state_history sm)
      ++ (n, ACTIVATED_by (start_node st), now0)
         :: chain_history n (transitions st) times
  ∧ notifications_of n
      (snd (run sm (Node (start_node st) now0
                    :: chain_events (transitions st) times)))
    = chain_notifications n (start_node st) (description st)
                          (transitions st) times.
Proof.
  intros Hwf Hg Hl Ha Hne Hstart Hlen.
  destruct (transitions st) as [|t rest] eqn:Hts; [done|].
  destruct (trigger_fresh sm n r st now0 Hwf Hg Hl Ha) as (T1 & T2 & T3).
  pose proof (trigger_wf sm (start_node st) now0 Hwf) as Hwf1.
  assert (dict_get (states (trigger sm (start_node st) now0)) n = Some r)
    as Hg1 by (unfold trigger; by rewrite trigger_loop_states).
  destruct (advance_other_node n r (trigger sm (start_node st) now0)
              (activated now0 st) (start_node st) now0 Hwf1 Hg1 T1)
    as [(S2 & O2 & A2 & H2) N2].
  { intros _ t0 Ht0. simpl in Ht0. rewrite Hts in Ht0. injection Ht0 as <-.
    intros E. apply Hstart. rewrite <- E. apply list_elem_of_here. }
  rewrite run_cons. cbn [fst snd step].
  unfold check_state_machine_rules at 1 2 3.
  set (sm1 := fst (advance (trigger sm (start_node st) now0)
                           (start_node st) now0)) in *.
  destruct (chain_from_step rest t times sm1 (activated now0 st))
    as (F1 & F2 & F3); try done.
  - apply advance_loop_wf, Hwf1.
  - congruence.
  - by rewrite (O2 r Hg1).
  - split; [done|]. split.
    + rewrite F2, H2, T3, <- app_assoc. done.
    + rewrite notifications_of_app, N2. fold sm1.
      unfold check_state_machine_rules. fold sm1. by rewrite F3.
Qed.
End chain.

Lemma nodes_in_order_complete_rule_witness :
  history_of "R"
    (state_history
       (fst (run machine_R [Node "A" 0; Node "B" 50000; Node "C" 150000])))
  = [("R", ACTIVATED_by "A", 0); ("R", TRANSITION_to "C", 50000);
     ("R", COMPLETED_by "C", 150000)]
  ∧ notifications_of "R"
      (snd (run machine_R [Node "A" 0; Node "B" 50000; Node "C" 150000]))
    = [StateCompleted "R" "A" "C" "two steps" 150000].
Proof.
  pose proof (nodes_in_order_complete_rule "R" 0%nat machine_R rule_R 0
                [50000; 150000] wf_machine_R eq_refl eq_refl eq_refl) as H.
  destruct H as (_ & H1 & H2).
  - discriminate.
  - simpl. intros H.
    repeat (apply elem_of_cons in H as [H|H]; [discriminate|]).
    by apply elem_of_nil in H.
  - reflexivity.
  - split; [exact H1 | exact H2].
Defined.

(* ===================================================================== *)
(** ** The legacy rules                                                   *)
(* ===================================================================== *)

Section legacy_facts.
Import Legacy.
Implicit Types (rules : list (string * WatchdogRule)) (rule : WatchdogRule)
         (k node : string) (now : datetime) (out : list Alert).

Lemma alerts_of_app k out1 out2 :
  alerts_of k (out1 ++ out2) = alerts_of k out1 ++ alerts_of k out2.
Proof. apply List.filter_app. Qed.

Lemma check_rule_alerts k rule node now rule' sent :
  check_rule k rule node now = Some (rule', sent) →
  Forall (fun a => alert_name a = k) sent.
Proof.
  unfold check_rule. intros H.
  repeat match type of H with
         | context [if ?b then _ else _] => destruct b
         | context [match ?o with Some _ => _ | None => _ end] => destruct o
         end; simplify_eq; repeat constructor.
Qed.

Lemma check_rule_timeout_alerts k rule now :
  Forall (fun a => alert_name a = k) (snd (check_rule_timeout k rule now)).
Proof.
  unfold check_rule_timeout.
  destruct (is_active rule), (last_start_time rule); simpl;
    try constructor.
  destruct (Legacy.timed_out _ _); repeat constructor.
Qed.

Lemma alerts_of_own k sent :
  Forall (fun a => alert_name a = k) sent → alerts_of k sent = sent.
Proof.
  induction 1 as [|a sent Ha _ IH]; simpl; [done|].
  rewrite Ha, String.eqb_refl. by rewrite IH.
Qed.

Lemma alerts_of_other k m sent :
  m ≠ k → Forall (fun a => alert_name a = m) sent → alerts_of k sent = [].
Proof.
  intros Hne. induction 1 as [|a sent Ha _ IH]; simpl; [done|].
  rewrite Ha. destruct (String.eqb m k) eqn:E; [|done].
  apply String.eqb_eq in E. done.
Qed.

Lemma check_rule_timed k rule node now :
  timed rule →
  ∃ rule' sent, check_rule k rule node now = Some (rule', sent) ∧ timed rule'.
Proof.
  intros Ht. unfold check_rule, timed in *.
  destruct (String.eqb (start_node rule) (end_node rule)
            && String.eqb node (start_node rule)).
  - destruct (is_active rule); eexists _, _; (split; [done|]); done.
  - destruct (negb _); [|by eexists _, _].
    destruct (String.eqb node (start_node rule) && negb (is_active rule));
      [by eexists _, _|].
    destruct (String.eqb node (end_node rule) && is_active rule) eqn:E;
      [|by eexists _, _].
    apply andb_true_iff in E as [_ Ha].
    destruct (last_start_time rule) as [last|] eqn:El; [by eexists _, _|].
    by destruct (Ht Ha).
Qed.

Lemma check_rule_timeout_timed k rule now :
  timed rule → timed (fst (check_rule_timeout k rule now)).
Proof.
  intros Ht. unfold check_rule_timeout.
  destruct (is_active rule) eqn:Ha, (last_start_time rule) eqn:El;
    simpl; try done.
  destruct (Legacy.timed_out _ _); simpl; [done|]. unfold timed. by rewrite El.
Qed.

(** What the loop of [_check_legacy_rules] does to the rule of key [k]
    is what its body does for it. *)
Lemma check_legacy_rules_lookup rules k rule node now :
  all_timed rules → NoDup (dict_keys rules) → dict_get rules k = Some rule →
  ∃ rule' sent,
    check_rule k rule node now = Some (rule', sent)
    ∧ dict_get (fst (fst (check_legacy_rules rules node now))) k = Some rule'
    ∧ alerts_of k (snd (fst (check_legacy_rules rules node now))) = sent.
Proof.
  unfold all_timed.
  induction rules as [|[m rule0] rules IH]; intros Ht Hnd Hg; [done|].
  apply Forall_cons in Ht as [Ht0 Ht]. simpl in Hnd.
  apply NoDup_cons in Hnd as [Hm Hnd]. simpl in Hg |- *.
  destruct (check_rule_timed m rule0 node now Ht0) as (r0' & s0 & E0 & _).
  rewrite E0.
  destruct (check_legacy_rules rules node now) as [[rest' out] raised] eqn:Er.
  simpl in *. pose proof (check_rule_alerts _ _ _ _ _ _ E0) as Hs0.
  destruct (String.eqb m k) eqn:E.
  - apply String.eqb_eq in E. subst m. injection Hg as ->.
    exists r0', s0. split; [done|]. split; [done|].
    rewrite alerts_of_app, (alerts_of_own k s0) by done.
    assert (alerts_of k out = []) as ->; [|apply app_nil_r].
    clear -Hm Er Ht. revert rest' out raised Er.
    induction rules as [|[m r1] rules IH]; intros rest' out raised Er.
    + by injection Er as <- <- <-.
    + simpl in Er, Hm. apply not_elem_of_cons in Hm as [Hne Hm].
      apply Forall_cons in Ht as [Ht1 Ht].
      destruct (check_rule m r1 node now) as [[r1' s1]|] eqn:E1;
        [|by injection Er as <- <- <-].
      destruct (check_legacy_rules rules node now) as [[rest1 out1] raised1].
      injection Er as <- <- <-. rewrite alerts_of_app.
      rewrite (alerts_of_other k m s1);
        [|congruence|by eapply check_rule_alerts].
      by eapply IH.
  - apply String.eqb_neq in E. destruct (IH Ht Hnd Hg) as (r' & s & E1 & G & A).
    exists r', s. split; [done|]. split; [done|].
    rewrite alerts_of_app, (alerts_of_other k m s0), A by done. done.
Qed.

Lemma check_legacy_rules_timed rules node now :
  all_timed rules →
  snd (check_legacy_rules rules node now) = false
  ∧ all_timed (fst (fst (check_legacy_rules rules node now)))
  ∧ dict_keys (fst (fst (check_legacy_rules rules node now)))
    = dict_keys rules.
Proof.
  unfold all_timed. intros Ht.
  induction Ht as [|[m rule] rules Hr Ht IH]; [done|]. simpl in *.
  destruct (check_rule_timed m rule node now Hr) as (r' & s & E & Hr').
  rewrite E.
  destruct (check_legacy_rules rules node now) as [[rest' out] raised].
  simpl in *. destruct IH as (-> & IH2 & ->).
  split; [done|]. split; [by constructor|done].
Qed.

Lemma check_timeouts_timed rules now :
  all_timed rules → all_timed (fst (Legacy.check_timeouts rules now)).
Proof.
  unfold all_timed. intros Ht.
  induction Ht as [|[m rule] rules Hr Ht IH]; [done|]. simpl.
  pose proof (check_rule_timeout_timed m rule now Hr) as Hr'.
  destruct (check_rule_timeout m rule now) as [r' s].
  destruct (Legacy.check_timeouts rules now) as [rest' out].
  simpl in *. constructor; [exact Hr'|exact IH].
Qed.

Lemma check_timeouts_keys rules now :
  dict_keys (fst (Legacy.check_timeouts rules now)) = dict_keys rules.
Proof.
  induction rules as [|[m rule] rules IH]; [done|]. simpl.
  destruct (check_rule_timeout m rule now) as [r' s].
  destruct (Legacy.check_timeouts rules now) as [rest' out].
  simpl in *. by rewrite IH.
Qed.

(** X7. A legacy rule that is active has a start time: the rules are
    made so, and both loops of the monitor keep them so.  Hence the
    subtraction [current_time - rule.last_start_time] of
    [_check_legacy_rules] never raises, the loop visits every rule, and
    it leaves the keys and their order as they were. *)
Theorem legacy_rules_never_raise rules node now :
  all_timed rules →
  snd (check_legacy_rules rules node now) = false
  ∧ all_timed (fst (fst (check_legacy_rules rules node now)))
  ∧ dict_keys (fst (fst (check_legacy_rules rules node now)))
    = dict_keys rules
  ∧ all_timed (fst (Legacy.check_timeouts rules now))
  ∧ dict_keys (fst (Legacy.check_timeouts rules now)) = dict_keys rules.
Proof.
  intros Ht.
  destruct (check_legacy_rules_timed rules node now Ht) as (? & ? & ?).
  repeat split; try done.
  - by apply check_timeouts_timed.
  - apply check_timeouts_keys.
Qed.

Lemma set_is_active_id rule :
  is_active rule = true → set_is_active true rule = rule.
Proof. destruct rule. simpl. by intros ->. Qed.

(** X8. A legacy rule whose start node is its end node is a heartbeat:
    each occurrence of the node leaves the rule active with its start
    time set to [now], whether it was active or not, any other node
    leaves it as it was, and in neither case is anything notified for the
    rule; only the sweep can notify, a timeout. *)
Theorem legacy_heartbeat_restarts_timer rules k rule node now :
  all_timed rules → NoDup (dict_keys rules) → dict_get rules k = Some rule →
  start_node rule = end_node rule →
  dict_get (fst (fst (check_legacy_rules rules node now))) k
  = Some (if String.eqb node (start_node rule)
          then set_last_start_time (Some now) (set_is_active true rule)
          else rule)
  ∧ alerts_of k (snd (fst (check_legacy_rules rules node now))) = [].
Proof.
  intros Ht Hnd Hg Hse.
  destruct (check_legacy_rules_lookup rules k rule node now Ht Hnd Hg)
    as (rule' & sent & E & G & A).
  rewrite G, A. unfold check_rule in E.
  rewrite <- Hse, String.eqb_refl in E. simpl in E.
  destruct (String.eqb node (start_node rule)).
  - destruct (is_active rule) eqn:Ha; injection E as <- <-; [|done].
    by rewrite set_is_active_id.
  - by injection E as <- <-.
Qed.

(** X9. A legacy rule whose start and end nodes differ.  Its start node
    activates it when it is inactive, with its start time set to [now]
    and an activation notified that carries the timeout; when it is
    already active the start node changes nothing and notifies nothing:
    the timer is not restarted.  Its end node, when it is active,
    notifies a completion with the time elapsed since the start time and
    makes it inactive; when it is inactive the end node changes
    nothing.  Any other node changes nothing. *)
Theorem legacy_rule_start_and_end rules k rule node now :
  all_timed rules → NoDup (dict_keys rules) → dict_get rules k = Some rule →
  start_node rule ≠ end_node rule →
  (node = start_node rule → is_active rule = false →
   dict_get (fst (fst (check_legacy_rules rules node now))) k
   = Some (set_last_start_time (Some now) (set_is_active true rule))
   ∧ alerts_of k (snd (fst (check_legacy_rules rules node now)))
     = [RuleActivated k (or_NA (description rule)) (start_node rule)
                      (timeout_ms rule) now])
  ∧ (node = start_node rule → is_active rule = true →
     dict_get (fst (fst (check_legacy_rules rules node now))) k = Some rule
     ∧ alerts_of k (snd (fst (check_legacy_rules rules node now))) = [])
  ∧ (∀ last, node = end_node rule → is_active rule = true →
             last_start_time rule = Some last →
     dict_get (fst (fst (check_legacy_rules rules node now))) k
     = Some (set_last_start_time None (set_is_active false rule))
     ∧ alerts_of k (snd (fst (check_legacy_rules rules node now)))
       = [RuleCompleted k (end_node rule) (now - last) (timeout_ms rule) now])
  ∧ (node ≠ start_node rule → (node = end_node rule → is_active rule = false) →
     dict_get (fst (fst (check_legacy_rules rules node now))) k = Some rule
     ∧ alerts_of k (snd (fst (check_legacy_rules rules node now))) = []).
Proof.
  intros Ht Hnd Hg Hse.
  destruct (check_legacy_rules_lookup rules k rule node now Ht Hnd Hg)
    as (rule' & sent & E & G & A).
  rewrite G, A. unfold check_rule in E.
  apply String.eqb_neq in Hse as Hse'. rewrite Hse' in E. simpl in E.
  split; [|split; [|split]].
  - intros -> Ha. rewrite String.eqb_refl, Ha in E. simpl in E.
    by injection E as <- <-.
  - intros -> Ha. rewrite String.eqb_refl, Ha, Hse' in E. simpl in E.
    by injection E as <- <-.
  - intros last -> Ha Hl. rewrite String.eqb_sym, Hse', String.eqb_refl in E.
    rewrite Ha, Hl in E. simpl in E. by injection E as <- <-.
  - intros Hns Hne. apply String.eqb_neq in Hns. rewrite Hns in E.
    simpl in E. destruct (String.eqb node (end_node rule)) eqn:Ee.
    + apply String.eqb_eq in Ee. rewrite (Hne Ee) in E. simpl in E.
      by injection E as <- <-.
    + simpl in E. by injection E as <- <-.
Qed.

Lemma check_timeouts_lookup rules k rule now :
  NoDup (dict_keys rules) → dict_get rules k = Some rule →
  dict_get (fst (Legacy.check_timeouts rules now)) k
  = Some (fst (check_rule_timeout k rule now))
  ∧ alerts_of k (snd (Legacy.check_timeouts rules now))
    = snd (check_rule_timeout k rule now).
Proof.
  induction rules as [|[m rule0] rules IH]; intros Hnd Hg; [done|].
  simpl in Hnd. apply NoDup_cons in Hnd as [Hm Hnd]. simpl in Hg |- *.
  pose proof (check_rule_timeout_alerts m rule0 now) as Hs0.
  destruct (check_rule_timeout m rule0 now) as [r0' s0] eqn:E0.
  destruct (Legacy.check_timeouts rules now) as [rest' out] eqn:Er.
  simpl in *. destruct (String.eqb m k) eqn:E.
  - apply String.eqb_eq in E. subst m. injection Hg as ->.
    rewrite E0. simpl. split; [done|].
    rewrite alerts_of_app, (alerts_of_own k s0) by done.
    assert (alerts_of k out = []) as ->; [|apply app_nil_r].
    clear -Hm Er. revert rest' out Er.
    induction rules as [|[m r1] rules IH]; intros rest' out Er.
    + by injection Er as <- <-.
    + simpl in Er, Hm. apply not_elem_of_cons in Hm as [Hne Hm].
      pose proof (check_rule_timeout_alerts m r1 now) as Hs1.
      destruct (check_rule_timeout m r1 now) as [r1' s1].
      destruct (Legacy.check_timeouts rules now) as [rest1 out1].
      injection Er as <- <-. rewrite alerts_of_app.
      rewrite (alerts_of_other k m s1) by (done || congruence).
      by eapply IH.
  - apply String.eqb_neq in E. destruct (IH Hnd Hg) as [G A].
    split; [done|]. by rewrite alerts_of_app, (alerts_of_other k m s0), A.
Qed.

Lemma check_rule_timeout_again k rule now :
  check_rule_timeout k (fst (check_rule_timeout k rule now)) now
  = (fst (check_rule_timeout k rule now), []).
Proof.
  unfold check_rule_timeout.
  destruct (is_active rule) eqn:Ha, (last_start_time rule) as [last|] eqn:El;
    simpl; rewrite ?Ha, ?El; try done.
  destruct (Legacy.timed_out _ _) eqn:E; simpl; [done|]. by rewrite Ha, El, E.
Qed.

(** X10. The legacy sweep.  A rule that is active with a start time for
    which the test of [_check_timeouts] holds (the elapsed time, as the
    float [total_seconds() * 1000], is above the rule's timeout) is made
    inactive, and one timeout is notified for it that carries the rule's
    own end node and timeout, the elapsed time and the start time (the
    notification is built before the rule is reset).  A rule for which
    the test fails is left as it is and nothing is notified for it.  A
    second sweep at the same instant changes nothing and notifies
    nothing. *)
Theorem legacy_sweep rules k rule last now :
  NoDup (dict_keys rules) → dict_get rules k = Some rule →
  is_active rule = true → last_start_time rule = Some last →
  (Legacy.timed_out (now - last) rule = true →
   dict_get (fst (Legacy.check_timeouts rules now)) k
   = Some (set_last_start_time None (set_is_active false rule))
   ∧ alerts_of k (snd (Legacy.check_timeouts rules now))
     = [TimeoutAlert k (or_NA (description rule)) (start_node rule)
                     (end_node rule) (timeout_ms rule) (now - last)
                     (Some last) now])
  ∧ (Legacy.timed_out (now - last) rule = false →
     dict_get (fst (Legacy.check_timeouts rules now)) k = Some rule
     ∧ alerts_of k (snd (Legacy.check_timeouts rules now)) = [])
  ∧ Legacy.check_timeouts (fst (Legacy.check_timeouts rules now)) now
    = (fst (Legacy.check_timeouts rules now), []).
Proof.
  intros Hnd Hg Ha Hl.
  destruct (check_timeouts_lookup rules k rule now Hnd Hg) as [G A].
  rewrite G, A. unfold check_rule_timeout. rewrite Ha, Hl.
  split; [|split].
  - intros ->. simpl. unfold send_timeout_alert. by rewrite Hl.
  - by intros ->.
  - clear. induction rules as [|[m rule0] rules IH]; [done|]. simpl.
    pose proof (check_rule_timeout_again m rule0 now) as H0.
    destruct (check_rule_timeout m rule0 now) as [r0' s0].
    destruct (Legacy.check_timeouts rules now) as [rest' out].
    simpl in *. by rewrite H0, IH.
Qed.
End legacy_facts.

Lemma demo_rules_timed : Legacy.all_timed Legacy.demo_rules.
Proof. repeat constructor; by intros ?. Qed.

Lemma demo_rules_NoDup : NoDup (dict_keys Legacy.demo_rules).
Proof.
  apply NoDup_cons. split; [|apply NoDup_singleton].
  by intros ?%list_elem_of_singleton.
Qed.

Lemma demo_rules_started_timed :
  Legacy.all_timed
    (fst (fst (Legacy.check_legacy_rules Legacy.demo_rules "S" 0))).
Proof. apply check_legacy_rules_timed, demo_rules_timed. Qed.

(** The job started at 0 by "S": its end node "E" at 300 ms reaches the
    subtraction, which does not raise, and the completion is sent. *)
Lemma legacy_rules_never_raise_witness :
  snd (Legacy.check_legacy_rules
         (fst (fst (Legacy.check_legacy_rules Legacy.demo_rules "S" 0)))
         "E" 300000) = false
  ∧ dict_get (fst (fst (Legacy.check_legacy_rules Legacy.demo_rules "S" 0)))
             "job" = Some Legacy.job_started
  ∧ snd (fst (Legacy.check_legacy_rules
                (fst (fst (Legacy.check_legacy_rules Legacy.demo_rules "S" 0)))
                "E" 300000))
    = [Legacy.RuleCompleted "job" "E" 300000 500 300000].
Proof.
  split; [|split; reflexivity].
  exact (proj1 (legacy_rules_never_raise
                  (fst (fst (Legacy.check_legacy_rules Legacy.demo_rules
                                                       "S" 0)))
                  "E" 300000 demo_rules_started_timed)).
Defined.

Lemma legacy_heartbeat_restarts_timer_witness :
  dict_get (fst (fst (Legacy.check_legacy_rules Legacy.demo_rules "X" 5000)))
           "beat"
  = Some (Legacy.mkRule "beat" "X" 1000 "X" "heartbeat" (Some 5000) true)
  ∧ Legacy.alerts_of "beat"
      (snd (fst (Legacy.check_legacy_rules Legacy.demo_rules "X" 5000))) = [].
Proof.
  exact (legacy_heartbeat_restarts_timer Legacy.demo_rules "beat"
           (Legacy.new_rule "beat" "X" 1000 "X" "heartbeat") "X" 5000
           demo_rules_timed demo_rules_NoDup eq_refl eq_refl).
Defined.

Lemma legacy_rule_start_and_end_witness :
  Legacy.alerts_of "job"
    (snd (fst (Legacy.check_legacy_rules
                 (fst (fst (Legacy.check_legacy_rules Legacy.demo_rules "S" 0)))
                 "E" 300000)))
  = [Legacy.RuleCompleted "job" "E" 300000 500 300000].
Proof.
  destruct (legacy_rule_start_and_end
              (fst (fst (Legacy.check_legacy_rules Legacy.demo_rules "S" 0)))
              "job" Legacy.job_started "E" 300000
              demo_rules_started_timed demo_rules_NoDup eq_refl)
    as (_ & _ & H & _); [discriminate|].
  exact (proj2 (H 0 eq_refl eq_refl eq_refl)).
Defined.

Lemma legacy_sweep_witness :
  Legacy.alerts_of "job"
    (snd (Legacy.check_timeouts
            (fst (fst (Legacy.check_legacy_rules Legacy.demo_rules "S" 0)))
            700000))
  = [Legacy.TimeoutAlert "job" "a job" "S" "E" 500 700000 (Some 0) 700000].
Proof.
  destruct (legacy_sweep
              (fst (fst (Legacy.check_legacy_rules Legacy.demo_rules "S" 0)))
              "job" Legacy.job_started 0 700000
              demo_rules_NoDup eq_refl eq_refl eq_refl) as (H & _).
  apply H. reflexivity.
Defined.

(* ===================================================================== *)
(** ** Delivery with fallback                                             *)
(* ===================================================================== *)

Section notifier_facts.
Import Notifier.
Implicit Types (c : Settings) (w : WatchdogNotifier) (T : Transport)
         (p d : string).

Lemma telegram_built c w :
  truthy (bot_token c) && truthy (chat_id c) = true →
  ∃ b i, telegram_notifier (get_telegram_notifier w c) = Some (b, i).
Proof.
  intros H. unfold get_telegram_notifier.
  destruct (telegram_notifier w) as [[b i]|] eqn:E; [by exists b, i|].
  destruct (bot_token c) as [b|], (chat_id c) as [i|]; try done.
  - rewrite H. simpl. by exists b, i.
  - simpl in H. by rewrite andb_false_r in H.
Qed.

Lemma wechat_built c w :
  truthy (webhook_key c) = true →
  ∃ k, wechat_notifier (get_wechat_notifier w c) = Some k.
Proof.
  intros H. unfold get_wechat_notifier.
  destruct (wechat_notifier w) as [k|] eqn:E; [by exists k|].
  destruct (webhook_key c) as [k|]; [|done]. rewrite H. simpl. by exists k.
Qed.

Lemma telegram_after_wechat c w :
  telegram_notifier (get_telegram_notifier (get_wechat_notifier w c) c)
  = telegram_notifier (get_telegram_notifier w c).
Proof.
  destruct w as [tg wc]. unfold get_telegram_notifier, get_wechat_notifier.
  cbn [telegram_notifier wechat_notifier].
  destruct wc, (webhook_key c) as [k|]; try reflexivity.
  destruct (truthy (Some k)); [|reflexivity].
  cbn [telegram_notifier wechat_notifier].
  destruct tg, (bot_token c) as [b|], (chat_id c) as [i|]; try reflexivity.
  destruct (truthy (Some b) && truthy (Some i)); reflexivity.
Qed.

Lemma wechat_after_telegram c w :
  wechat_notifier (get_wechat_notifier (get_telegram_notifier w c) c)
  = wechat_notifier (get_wechat_notifier w c).
Proof.
  destruct w as [tg wc]. unfold get_telegram_notifier, get_wechat_notifier.
  cbn [telegram_notifier wechat_notifier].
  destruct tg, (bot_token c) as [b|], (chat_id c) as [i|]; try reflexivity.
  destruct (truthy (Some b) && truthy (Some i)); [|reflexivity].
  cbn [telegram_notifier wechat_notifier].
  destruct wc, (webhook_key c) as [k|]; try reflexivity.
  destruct (truthy (Some k)); reflexivity.
Qed.

(** The orders [try_order] can give. *)
Lemma try_order_cases c :
  (get_available_notifiers c = [] ∧ try_order c = [])
  ∨ (get_available_notifiers c = ["telegram"] ∧ try_order c = ["telegram"])
  ∨ (get_available_notifiers c = ["wechat"] ∧ try_order c = ["wechat"])
  ∨ (get_available_notifiers c = ["telegram"; "wechat"]
     ∧ ((default_ext_notify c = Some "wechat"
         ∧ try_order c = ["wechat"; "telegram"])
        ∨ (default_ext_notify c ≠ Some "wechat"
           ∧ try_order c = ["telegram"; "wechat"]))).
Proof.
  unfold try_order, get_available_notifiers.
  destruct (truthy (bot_token c) && truthy (chat_id c)),
           (truthy (webhook_key c)); simpl.
  - right. right. right. split; [done|].
    destruct (default_ext_notify c) as [d|]; [|by right].
    unfold mem. simpl. rewrite orb_false_r.
    destruct (String.eqb d "wechat") eqn:Ew.
    + apply String.eqb_eq in Ew. subst d. by left.
    + right. apply String.eqb_neq in Ew. split; [congruence|].
      destruct (String.eqb d "telegram") eqn:Et.
      * apply String.eqb_eq in Et. subst d. done.
      * rewrite andb_false_r. done.
  - right. left. split; [done|].
    destruct (default_ext_notify c) as [d|]; [|done].
    unfold mem. simpl. rewrite orb_false_r.
    destruct (String.eqb d "telegram") eqn:Et.
    + apply String.eqb_eq in Et. subst d. done.
    + by rewrite andb_false_r.
  - right. right. left. split; [done|].
    destruct (default_ext_notify c) as [d|]; [|done].
    unfold mem. simpl. rewrite orb_false_r.
    destruct (String.eqb d "wechat") eqn:Ew.
    + apply String.eqb_eq in Ew. subst d. done.
    + by rewrite andb_false_r.
  - left. split; [done|].
    destruct (default_ext_notify c) as [d|]; [|done].
    by rewrite andb_false_r.
Qed.

Lemma try_order_elem c p :
  p ∈ try_order c ↔ p ∈ get_available_notifiers c.
Proof.
  destruct (try_order_cases c)
    as [[-> ->]|[[-> ->]|[[-> ->]|[-> [[Hd ->]|[Hd ->]]]]]]; try done.
  rewrite !elem_of_cons. tauto.
Qed.

(** X11. The order in which [send_notification] tries the platforms:
    exactly the configured ones ("telegram" when both its token and chat
    id are set, "wechat" when its key is set), each once; the configured
    default comes first; a default that is not a configured platform is
    ignored and the order is then telegram, wechat. *)
Theorem try_order_is_default_first c :
  NoDup (try_order c)
  ∧ (∀ p, p ∈ try_order c ↔ p ∈ get_available_notifiers c)
  ∧ (∀ d, default_ext_notify c = Some d → d ∈ get_available_notifiers c →
          head (try_order c) = Some d)
  ∧ ((∀ d, default_ext_notify c = Some d → d ∉ get_available_notifiers c) →
     try_order c = get_available_notifiers c).
Proof.
  destruct (try_order_cases c)
    as [[-> ->]|[[-> ->]|[[-> ->]|[-> [[Hd ->]|[Hd ->]]]]]].
  - split; [apply NoDup_nil_2|]. split; [done|]. split; [|done].
    by intros d _ ?%elem_of_nil.
  - split; [apply NoDup_singleton|]. split; [done|]. split; [|done].
    by intros d _ ->%list_elem_of_singleton.
  - split; [apply NoDup_singleton|]. split; [done|]. split; [|done].
    by intros d _ ->%list_elem_of_singleton.
  - split; [|split; [|split]].
    + apply NoDup_cons. split; [|apply NoDup_singleton].
      by intros ?%list_elem_of_singleton.
    + intros p. rewrite !elem_of_cons. tauto.
    + intros d Hd' _. simpl. congruence.
    + intros H. exfalso. apply (H "wechat" Hd).
      apply list_elem_of_further, list_elem_of_here.
  - split; [|split; [|split]].
    + apply NoDup_cons. split; [|apply NoDup_singleton].
      by intros ?%list_elem_of_singleton.
    + done.
    + intros d Hd' [->|Hin]%elem_of_cons; [done|].
      apply list_elem_of_singleton in Hin. congruence.
    + done.
Qed.

Lemma available_telegram c :
  "telegram" ∈ get_available_notifiers c →
  truthy (bot_token c) && truthy (chat_id c) = true.
Proof.
  unfold get_available_notifiers.
  destruct (truthy (bot_token c) && truthy (chat_id c)); [done|].
  destruct (truthy (webhook_key c)); simpl; [|by intros ?%elem_of_nil].
  by intros ?%list_elem_of_singleton.
Qed.

Lemma available_wechat c :
  "wechat" ∈ get_available_notifiers c → truthy (webhook_key c) = true.
Proof.
  unfold get_available_notifiers.
  destruct (truthy (webhook_key c)); [done|]. rewrite app_nil_r.
  destruct (_ && _); [|by intros ?%elem_of_nil].
  by intros ?%list_elem_of_singleton.
Qed.

(** The loop tries the platforms in order up to the first that
    delivers. *)
Lemma send_notification_until_delivered T c w message :
  snd (fst (send_notification T c w message))
  = until_delivered (delivers T c w message) (try_order c)
  ∧ snd (send_notification T c w message)
    = existsb (delivers T c w message) (try_order c).
Proof.
  unfold send_notification.
  destruct (try_order_cases c)
    as [[Ha ->]|[[Ha ->]|[[Ha ->]|[Ha [[Hd ->]|[Hd ->]]]]]]; rewrite Ha.
  - done.
  - destruct (telegram_built c w) as (b & i & E).
    { apply available_telegram. rewrite Ha. apply list_elem_of_here. }
    unfold delivers. simpl. rewrite E.
    by destruct (telegram_send T b i message).
  - destruct (wechat_built c w) as (k & E).
    { apply available_wechat. rewrite Ha. apply list_elem_of_here. }
    unfold delivers. simpl. rewrite E.
    by destruct (wechat_send T k message).
  - destruct (wechat_built c w) as (k & E).
    { apply available_wechat. rewrite Ha.
      apply list_elem_of_further, list_elem_of_here. }
    destruct (telegram_built c w) as (b & i & E').
    { apply available_telegram. rewrite Ha. apply list_elem_of_here. }
    unfold delivers. simpl. rewrite E, telegram_after_wechat, E'.
    destruct (wechat_send T k message); [done|].
    by destruct (telegram_send T b i message).
  - destruct (wechat_built c w) as (k & E).
    { apply available_wechat. rewrite Ha.
      apply list_elem_of_further, list_elem_of_here. }
    destruct (telegram_built c w) as (b & i & E').
    { apply available_telegram. rewrite Ha. apply list_elem_of_here. }
    unfold delivers. simpl. rewrite E', wechat_after_telegram, E.
    destruct (telegram_send T b i message); [done|].
    by destruct (wechat_send T k message).
Qed.

Lemma until_delivered_split (dl : string → bool) order :
  existsb dl order = true →
  ∃ pre p, until_delivered dl order = pre ++ [p]
           ∧ dl p = true ∧ Forall (fun q => dl q = false) pre.
Proof.
  induction order as [|q order IH]; simpl; [done|].
  destruct (dl q) eqn:E.
  - intros _. exists [], q. by repeat split.
  - simpl. intros (pre & p & -> & Hp & Hpre)%IH.
    exists (q :: pre), p. repeat split; [done|]. by constructor.
Qed.

Lemma until_delivered_all (dl : string → bool) order :
  existsb dl order = false →
  until_delivered dl order = order ∧ Forall (fun q => dl q = false) order.
Proof.
  induction order as [|q order IH]; simpl; [done|].
  destruct (dl q) eqn:E; [done|]. simpl. intros [-> H]%IH.
  split; [done|by constructor].
Qed.

Lemma until_delivered_prefix (dl : string → bool) order :
  until_delivered dl order `prefix_of` order.
Proof.
  induction order as [|q order IH]; simpl; [done|].
  destruct (dl q); [by apply prefix_cons, prefix_nil|by apply prefix_cons].
Qed.

(** X12. [send_notification] calls the senders of the platforms in the
    order above and stops at the first that delivers: the platforms it
    calls are a prefix of that order; it returns [True] exactly when one
    of the configured platforms delivers, and then the last one called
    delivered and every one called before it failed; it returns [False]
    after calling every configured platform, each having failed (none at
    all when nothing is configured). *)
Theorem send_notification_falls_back T c w message :
  snd (fst (send_notification T c w message)) `prefix_of` try_order c
  ∧ (snd (send_notification T c w message) = true ↔
     ∃ p, p ∈ get_available_notifiers c ∧ delivers T c w message p = true)
  ∧ (snd (send_notification T c w message) = true →
     ∃ pre p, snd (fst (send_notification T c w message)) = pre ++ [p]
              ∧ delivers T c w message p = true
              ∧ Forall (fun q => delivers T c w message q = false) pre)
  ∧ (snd (send_notification T c w message) = false →
     snd (fst (send_notification T c w message)) = try_order c
     ∧ Forall (fun q => delivers T c w message q = false) (try_order c)).
Proof.
  destruct (send_notification_until_delivered T c w message) as [-> ->].
  pose proof (try_order_elem c) as Hmem.
  split; [apply until_delivered_prefix|]. split; [|split].
  - rewrite existsb_exists. split.
    + intros (p & Hp%list_elem_of_In%Hmem & Hd). by exists p.
    + intros (p & Hp%Hmem%list_elem_of_In & Hd). by exists p.
  - apply until_delivered_split.
  - apply until_delivered_all.
Qed.
End notifier_facts.

(* ===================================================================== *)
(** ** The loader                                                         *)
(* ===================================================================== *)

Section config_facts.
Import Config.
Variable int : string → option Z.

Lemma Forall_dict_set {V} (P : string * V → Prop) d k v :
  Forall P d → P (k, v) → Forall P (dict_set d k v).
Proof.
  intros Hd Hv. induction Hd as [|[k' v'] d Hx Hd IH]; simpl.
  - by constructor.
  - destruct (String.eqb k' k) eqn:E.
    + apply String.eqb_eq in E. subst k'. by constructor.
    + by constructor.
Qed.

Lemma parse_transitions_two p end_node rest' t :
  int p = Some t →
  ∃ tr ts, parse_transitions int (p :: end_node :: rest') = tr :: ts
           ∧ target_node tr = end_node ∧ timeout_ms tr = t.
Proof.
  intros Hp. cbn [parse_transitions]. rewrite Hp.
  destruct rest' as [|next rest'']; [by eexists _, _|].
  destruct (int next); by eexists _, _.
Qed.

Lemma length_labelled final steps :
  length (labelled final steps) = length steps.
Proof.
  induction steps as [|s [|s' steps] IH]; [done..|].
  change (labelled final (s :: s' :: steps))
    with (mkTransition (snd s) (snd (fst s)) ("Transition to " ++ snd s)%string
          :: labelled final (s' :: steps)).
  simpl length in *. by rewrite IH.
Qed.

Lemma length_step_parts steps :
  length (step_parts steps) = (2 * length steps)%nat.
Proof.
  unfold step_parts. induction steps as [|s steps IH]; simpl in *; lia.
Qed.

Lemma parse_transitions_steps steps tail :
  steps ≠ [] →
  Forall (fun s => int (fst (fst s)) = Some (snd (fst s))) steps →
  match tail with [] => True | d :: extra => int d = None ∨ extra = [] end →
  parse_transitions int (step_parts steps ++ tail)
  = labelled (last_is_final int tail) steps.
Proof.
  intros Hne Hsteps Htail. induction Hsteps as [|s steps Hs Hsteps IH]; [done|].
  destruct steps as [|s' steps].
  - clear IH. unfold step_parts. cbn [map concat app parse_transitions labelled].
    rewrite Hs. destruct tail as [|d extra]; [done|].
    cbn [last_is_final]. destruct (int d) eqn:Ed; [|done].
    destruct Htail as [?| ->]; [done|]. done.
  - specialize (IH ltac:(done)).
    change (labelled (last_is_final int tail) (s :: s' :: steps))
      with (mkTransition (snd s) (snd (fst s))
                         ("Transition to " ++ snd s)%string
            :: labelled (last_is_final int tail) (s' :: steps)).
    rewrite <- IH. inversion Hsteps as [|?? Hs' _]; subst.
    unfold step_parts. cbn [map concat app parse_transitions].
    rewrite Hs, Hs'. done.
Qed.

Lemma parse_state_config_fresh sm key parts :
  fresh sm → fresh (parse_state_config int sm key parts).
Proof.
  intros Hf. unfold parse_state_config.
  destruct (length parts <? 3)%nat; [done|].
  destruct parts as [|start_node rest]; [done|].
  destruct (parse_transitions int rest) as [|tr ts] eqn:E; [done|].
  destruct Hf as (Hwf & Hst & Ha & Hh).
  split; [|split; [|done]].
  - apply add_state_wf; [done..|]. cbn [new_state name]. by rewrite Ha.
  - by apply add_state_steady.
Qed.

Lemma parse_rule_config_as_loaded rules key parts :
  as_loaded rules → as_loaded (parse_rule_config int rules key parts).
Proof.
  intros [Hnd Hall]. unfold parse_rule_config.
  destruct (length parts <? 3)%nat; [done|].
  destruct parts as [|start_node [|p [|end_node rest]]]; try done.
  destruct (int p) as [t|]; [|done]. split.
  - by apply dict_keys_set_NoDup.
  - by apply Forall_dict_set.
Qed.

Lemma load_line_ready cfg l :
  as_loaded (fst cfg) ∧ fresh (snd cfg) →
  as_loaded (fst (load_line int cfg l)) ∧ fresh (snd (load_line int cfg l)).
Proof.
  intros [Hr Hs]. destruct l as [[[s|] key] parts]; simpl; [|done].
  destruct (String.eqb s "notification"); [done|].
  destruct (String.eqb s "monitoring"); [done|].
  destruct (String.eqb s "rules"); simpl.
  { split; [by apply parse_rule_config_as_loaded|done]. }
  destruct (String.eqb s "states"); simpl; [|done].
  split; [done|by apply parse_state_config_fresh].
Qed.

Lemma fold_load_line_ready ls cfg :
  as_loaded (fst cfg) ∧ fresh (snd cfg) →
  as_loaded (fst (fold_left (load_line int) ls cfg))
  ∧ fresh (snd (fold_left (load_line int) ls cfg)).
Proof.
  revert cfg. induction ls as [|l ls IH]; intros cfg H; [done|].
  cbn [fold_left]. by apply IH, load_line_ready.
Qed.

(** X13. Whatever the key-value lines of the configuration file are, and
    whatever [int] accepts, the loader ends with a machine that satisfies
    the engine's invariant, in which every registered rule has at least
    one step and is inactive with its index at 0, with nothing active
    and an empty history; and with legacy rules under distinct names,
    each stored under its own name and inactive without a start time. *)
Theorem loaded_configuration_is_ready
        (ls : list (option string * string * list string)) :
  wf (snd (load int ls)) ∧ steady (snd (load int ls))
  ∧ active_states (snd (load int ls)) = []
  ∧ state_history (snd (load int ls)) = []
  ∧ (∀ r st, objects (snd (load int ls)) !! r = Some st →
             transitions st ≠ [] ∧ is_active st = false
             ∧ current_transition_index st = 0%nat
             ∧ last_activation_time st = None)
  ∧ NoDup (dict_keys (fst (load int ls)))
  ∧ Legacy.all_timed (fst (load int ls))
  ∧ (∀ n rule, dict_get (fst (load int ls)) n = Some rule →
               Legacy.name rule = n ∧ Legacy.is_active rule = false
               ∧ Legacy.last_start_time rule = None).
Proof.
  destruct (fold_load_line_ready ls ([], init))
    as [[Hnd Hall] (Hwf & Hst & Ha & Hh)].
  { split; [split; [apply NoDup_nil_2|constructor]|].
    split; [apply wf_init|]. split; [apply steady_init|done]. }
  fold (load int ls) in *.
  split; [done|]. split; [done|]. split; [done|]. split; [done|].
  split; [|split; [done|split]].
  - intros r st Hr. pose proof (Hst r st Hr) as [Hts Hact].
    destruct (is_active st) eqn:E; [|by destruct Hact].
    pose proof (wf_live _ Hwf _ _ Hr E) as Hl. by rewrite Ha in Hl.
  - eapply Forall_impl; [exact Hall|]. intros kv (_ & Hi & _) Hact.
    congruence.
  - intros n rule Hg%dict_get_Some_elem.
    rewrite Forall_forall in Hall. apply (Hall _ Hg).
Qed.

(** X14. A state line written as the format asks is read back as
    written: after the start node, one step per timeout and node, in
    order, whatever the node names are; then nothing, or a description
    that [int] rejects (what follows it is ignored), or a single last
    part that [int] accepts, which is taken as the description.  The
    rule is registered under the key of the line, inactive, and every
    step but the last is labelled "Transition to", the last "Final
    transition to" unless a number follows it. *)
Theorem state_line_round_trip
        (sm : WatchdogStateMachine) (key start : string)
        (steps : list (string * Z * string)) (tail : list string) :
  steps ≠ [] →
  Forall (fun s => int (fst (fst s)) = Some (snd (fst s))) steps →
  match tail with [] => True | d :: extra => int d = None ∨ extra = [] end →
  parse_state_config int sm key (start :: step_parts steps ++ tail)
  = add_state sm (new_state key start
                            (labelled (last_is_final int tail) steps)
                            (match tail with d :: _ => d | [] => EmptyString end))
  ∧ ∃ r st,
      dict_get (states (parse_state_config int sm key
                          (start :: step_parts steps ++ tail))) key = Some r
      ∧ objects (parse_state_config int sm key
                   (start :: step_parts steps ++ tail)) !! r = Some st
      ∧ name st = key ∧ start_node st = start ∧ is_active st = false
      ∧ map (fun t => (timeout_ms t, target_node t)) (transitions st)
        = map (fun s => (snd (fst s), snd s)) steps.
Proof.
  intros Hne Hsteps Htail.
  assert (parse_state_config int sm key (start :: step_parts steps ++ tail)
          = add_state sm (new_state key start
                            (labelled (last_is_final int tail) steps)
                            (match tail with d :: _ => d | [] => EmptyString end)))
    as ->.
  { unfold parse_state_config.
    destruct (length (start :: step_parts steps ++ tail) <? 3)%nat eqn:El.
    { apply Nat.ltb_lt in El. simpl in El.
      rewrite length_app, length_step_parts in El.
      destruct steps; [done|]. simpl in El. lia. }
    rewrite parse_transitions_steps by done.
    rewrite length_labelled.
    assert ((start :: step_parts steps ++ tail) !! (1 + length steps * 2)%nat
            = tail !! 0%nat) as ->.
    { cbn [Nat.add]. rewrite lookup_cons_ne_0 by lia. cbn [Nat.pred].
      rewrite lookup_app_r by (rewrite length_step_parts; lia).
      rewrite length_step_parts. f_equal. lia. }
    destruct (labelled (last_is_final int tail) steps) eqn:E.
    { apply (f_equal length) in E. rewrite length_labelled in E.
      by destruct steps. }
    by destruct tail. }
  split; [done|]. eexists _, _. cbn [add_state states objects].
  split; [apply dict_get_set_eq|]. split.
  { rewrite lookup_app_r by lia. by rewrite Nat.sub_diag. }
  repeat split. cbn [new_state transitions].
  clear. induction steps as [|s [|s' steps] IH]; [done..|].
  change (labelled (last_is_final int tail) (s :: s' :: steps))
    with (mkTransition (snd s) (snd (fst s)) ("Transition to " ++ snd s)%string
          :: labelled (last_is_final int tail) (s' :: steps)).
  rewrite !map_cons. by rewrite IH.
Qed.

(** X15. A state line is dropped, leaving the machine as it was, exactly
    when it has fewer than three parts or [int] rejects its second part;
    any other line registers a rule under its key, inactive, started by
    its first part, whose first step waits for the third part with the
    second as timeout. *)
Theorem state_line_dropped_iff
        (sm : WatchdogStateMachine) (key : string) (parts : list string) :
  (parse_state_config int sm key parts = sm
   ↔ (length parts < 3)%nat ∨ ∃ p, parts !! 1%nat = Some p ∧ int p = None)
  ∧ (∀ start p end_node t,
        parts !! 0%nat = Some start → parts !! 1%nat = Some p →
        parts !! 2%nat = Some end_node → int p = Some t →
        ∃ st tr,
          dict_get (states (parse_state_config int sm key parts)) key
          = Some (length (objects sm))
          ∧ objects (parse_state_config int sm key parts)
            !! length (objects sm) = Some st
          ∧ name st = key ∧ start_node st = start ∧ is_active st = false
          ∧ transitions st !! 0%nat = Some tr
          ∧ target_node tr = end_node ∧ timeout_ms tr = t).
Proof.
  assert (∀ start p end_node rest t,
             parts = start :: p :: end_node :: rest → int p = Some t →
             ∃ tr ts, parse_state_config int sm key parts
                      = add_state sm (new_state key start (tr :: ts)
                           (match parts !! (1 + length (tr :: ts) * 2)%nat with
                            | Some d => d | None => EmptyString end))
                      ∧ target_node tr = end_node ∧ timeout_ms tr = t) as Hacc.
  { intros start p end_node rest t -> Hp.
    destruct (parse_transitions_two p end_node rest t Hp)
      as (tr & ts & E & Htr & Ht).
    exists tr, ts. split; [|done]. unfold parse_state_config.
    cbn [length Nat.ltb Nat.leb]. by rewrite E. }
  split.
  - split.
    + intros Heq.
      destruct parts as [|start [|p [|end_node rest]]];
        [left; simpl; lia..|].
      destruct (int p) as [t|] eqn:Hp; [|right; by exists p].
      destruct (Hacc _ _ _ _ _ eq_refl Hp) as (tr & ts & E & _).
      rewrite E in Heq. apply (f_equal (fun m => length (objects m))) in Heq.
      simpl in Heq. rewrite length_app in Heq. simpl in Heq. lia.
    + intros [Hlt|(p & Hp & Hint)].
      * unfold parse_state_config.
        apply Nat.ltb_lt in Hlt. by rewrite Hlt.
      * unfold parse_state_config.
        destruct (length parts <? 3)%nat; [done|].
        destruct parts as [|start [|p' [|end_node rest]]]; try done.
        simpl in Hp. injection Hp as ->. cbn [parse_transitions].
        by rewrite Hint.
  - intros start p end_node t H0 H1 H2 Hp.
    destruct parts as [|start' [|p' [|end_node' rest]]]; try done.
    simpl in H0, H1, H2. injection H0 as ->. injection H1 as ->.
    injection H2 as ->.
    destruct (Hacc _ _ _ _ _ eq_refl Hp) as (tr & ts & E & Htr & Ht).
    rewrite E. eexists _, tr. cbn [add_state states objects].
    split; [apply dict_get_set_eq|]. split.
    { rewrite lookup_app_r by lia. by rewrite Nat.sub_diag. }
    done.
Qed.
End config_facts.

(** Both platforms configured, wechat the default; telegram's sender
    fails. *)
Lemma try_order_is_default_first_witness :
  head (Notifier.try_order
          (Notifier.mkSettings (Some "token") (Some "42") (Some "key")
                               (Some "wechat")))
  = Some "wechat".
Proof.
  apply (try_order_is_default_first
           (Notifier.mkSettings (Some "token") (Some "42") (Some "key")
                                (Some "wechat"))).
  - reflexivity.
  - vm_compute. apply list_elem_of_further, list_elem_of_here.
Defined.

Lemma send_notification_falls_back_witness :
  ∃ pre p,
    snd (fst (Notifier.send_notification
                (Notifier.mkTransport (fun _ _ _ => false) (fun _ _ => true))
                (Notifier.mkSettings (Some "token") (Some "42") (Some "key")
                                     None)
                (Notifier.mkNotifier None None) "alert"))
    = pre ++ [p]
    ∧ Notifier.delivers
        (Notifier.mkTransport (fun _ _ _ => false) (fun _ _ => true))
        (Notifier.mkSettings (Some "token") (Some "42") (Some "key") None)
        (Notifier.mkNotifier None None) "alert" p = true
    ∧ Forall (fun q =>
                Notifier.delivers
                  (Notifier.mkTransport (fun _ _ _ => false) (fun _ _ => true))
                  (Notifier.mkSettings (Some "token") (Some "42") (Some "key")
                                       None)
                  (Notifier.mkNotifier None None) "alert" q = false) pre.
Proof.
  apply (send_notification_falls_back
           (Notifier.mkTransport (fun _ _ _ => false) (fun _ _ => true))
           (Notifier.mkSettings (Some "token") (Some "42") (Some "key") None)
           (Notifier.mkNotifier None None) "alert").
  reflexivity.
Defined.

(** The line [R={A, 100, B, 200, C, two steps}] of the section "states"
    gives the rule [rule_R]. *)
Lemma state_line_round_trip_witness :
  Config.parse_state_config Config.int10 init "R"
    ["A"; "100"; "B"; "200"; "C"; "two steps"]
  = machine_R.
Proof.
  apply (state_line_round_trip Config.int10 init "R" "A"
           [("100", 100, "B"); ("200", 200, "C")] ["two steps"]).
  - done.
  - repeat constructor.
  - by left.
Defined.

Lemma state_line_dropped_iff_witness :
  Config.parse_state_config Config.int10 machine_R "S" ["A"; "soon"; "B"]
  = machine_R
  ∧ ∃ st tr,
      dict_get (states (Config.parse_state_config Config.int10 machine_R "S"
                          ["A"; "100"; "B"; "200"])) "S" = Some 1%nat
      ∧ objects (Config.parse_state_config Config.int10 machine_R "S"
                   ["A"; "100"; "B"; "200"]) !! 1%nat = Some st
      ∧ name st = "S" ∧ start_node st = "A" ∧ is_active st = false
      ∧ transitions st !! 0%nat = Some tr
      ∧ target_node tr = "B" ∧ timeout_ms tr = 100.
Proof.
  split.
  - apply (state_line_dropped_iff Config.int10 machine_R "S"
             ["A"; "soon"; "B"]).
    right. by exists "soon".
  - apply (proj2 (state_line_dropped_iff Config.int10 machine_R "S"
                    ["A"; "100"; "B"; "200"]) "A" "100" "B" 100);
      reflexivity.
Defined.

(* ===================================================================== *)
(** ** The reader over several polls                                      *)
(* ===================================================================== *)

Section reader_polls.
Import Reader.

Lemma join_decompose (s : list ascii) :
  ∃ ls t, s = join ls t ∧ Forall no_newline ls ∧ no_newline t.
Proof.
  induction s as [|c s (ls & t & -> & Hls & Ht)].
  - exists [], []. repeat split; constructor.
  - destruct (is_newline c) eqn:E.
    + apply Ascii.eqb_eq in E. subst c.
      exists ([] :: ls), t. rewrite join_cons. repeat split; [|done].
      constructor; [constructor|done].
    + destruct ls as [|l ls].
      * exists [], (c :: t). repeat split; [done|]. by constructor.
      * exists ((c :: l) :: ls), t. rewrite !join_cons.
        inversion Hls; subst. repeat split; [|done].
        constructor; [by constructor|done].
Qed.

Lemma lines_of_join_nil ls :
  Forall no_newline ls → lines_of (join ls []) = List.filter keep ls.
Proof.
  intros Hls. unfold lines_of. rewrite split_join by (done || constructor).
  rewrite List.filter_app. cbn [List.filter]. rewrite keep_nil. apply app_nil_r.
Qed.

Lemma Forall_filter_keep ls :
  Forall no_newline ls →
  Forall (fun l => no_newline l ∧ strip l ≠ []) (List.filter keep ls).
Proof.
  intros Hls. rewrite List.Forall_forall. intros l [Hin Hk]%filter_In.
  rewrite List.Forall_forall in Hls. split; [by apply Hls|].
  unfold keep in Hk. by destruct (strip l).
Qed.

(** One poll of the text [new] that follows what has been read. *)
Lemma read_appended prefix new :
  no_cr new →
  ∃ consumed rest,
    new = consumed ++ rest
    ∧ no_newline rest
    ∧ read_new_log_lines (prefix ++ new) (Some (byte_length prefix))
      = (lines_of consumed,
         Some (byte_length (prefix ++ new) - length rest)%nat)
    ∧ Forall (fun l => no_newline l ∧ strip l ≠ []) (lines_of consumed)
    ∧ (no_newline new → rest = []).
Proof.
  intros Hcr.
  destruct (join_decompose new) as (ls & t & -> & Hls & Ht).
  destruct (decide (ls ≠ [] ∨ t = [])) as [Hcase|Hcase].
  - exists (join ls []), t. rewrite <- join_tail.
    rewrite read_terminated, lines_of_join_nil by done.
    split; [done|]. split; [done|]. split; [done|].
    split; [by apply Forall_filter_keep|].
    intros Hnn. destruct ls as [|l ls'].
    + by destruct Hcase.
    + exfalso. rewrite join_cons in Hnn. unfold no_newline in Hnn.
      apply Forall_app in Hnn as [_ Hnn]. inversion Hnn as [|?? Hc _]; subst.
      unfold is_newline in Hc. by rewrite Ascii.eqb_refl in Hc.
  - assert (ls = [] ∧ t ≠ []) as [-> Hne].
    { destruct ls; [split; [done|]|].
      - intros ->. apply Hcase. by right.
      - exfalso. apply Hcase. by left. }
    assert (join [] t = t) as Hj by done. rewrite Hj in *.
    exists t, []. rewrite app_nil_r.
    rewrite read_single_unterminated by done.
    unfold lines_of. rewrite split_no_newline by done.
    split; [done|]. split; [constructor|]. split.
    { do 2 f_equal. simpl. lia. }
    split; [|done]. apply Forall_filter_keep. by constructor.
Qed.

(** X16. One poll of a log whose new text has no carriage return, with
    the handle where the text already read ends: the poll consumes the
    new text up to the unterminated rest it leaves (up to the end when
    the new text has no newline at all) and returns exactly the lines of
    the consumed text that are not blank, none of them containing a
    newline.  The handle is moved back from the end by the number of
    characters of the rest; when the characters of the rest take one
    byte each, that is where the consumed text ends. *)
Theorem poll_returns_lines_of_consumed_text (prefix new : list ascii) :
  no_cr new →
  ∃ consumed rest,
    new = consumed ++ rest
    ∧ no_newline rest
    ∧ fst (read_new_log_lines (prefix ++ new) (Some (byte_length prefix)))
      = lines_of consumed
    ∧ snd (read_new_log_lines (prefix ++ new) (Some (byte_length prefix)))
      = Some (byte_length (prefix ++ new) - length rest)%nat
    ∧ Forall (fun l => no_newline l ∧ strip l ≠ [])
             (fst (read_new_log_lines (prefix ++ new)
                                      (Some (byte_length prefix))))
    ∧ (no_newline new → rest = [])
    ∧ (one_byte rest →
       snd (read_new_log_lines (prefix ++ new) (Some (byte_length prefix)))
       = Some (byte_length (prefix ++ consumed))).
Proof.
  intros Hcr.
  destruct (read_appended prefix new Hcr)
    as (consumed & rest & -> & Hrest & -> & Hall & Hend).
  exists consumed, rest. cbn [fst snd]. repeat split; try done.
  intros Hone. f_equal. rewrite app_assoc, (byte_length_app _ rest).
  rewrite (byte_length_one_byte rest Hone). lia.
Qed.

(** One poll of a log of one-byte characters without carriage return:
    byte offsets are character offsets. *)
Lemma read_consumes file p :
  no_cr file → one_byte file → (p ≤ length file)%nat →
  ∃ p', read_new_log_lines file (Some p)
        = (lines_of (take (p' - p) (drop p file)), Some p')
        ∧ (p ≤ p' ≤ length file)%nat
        ∧ take p file ++ take (p' - p) (drop p file) = take p' file
        ∧ no_newline (drop p' file).
Proof.
  intros Hcr Hone Hp.
  assert (length (take p file) = p) as Hlen by (rewrite length_take; lia).
  assert (byte_length (take p file) = p) as Hbl.
  { rewrite byte_length_one_byte; [done|].
    rewrite <- (take_drop p file) in Hone. unfold one_byte in *.
    by apply Forall_app in Hone as [? _]. }
  assert (no_cr (drop p file)) as Hcr'.
  { rewrite <- (take_drop p file) in Hcr. unfold no_cr in *.
    by apply Forall_app in Hcr as [_ ?]. }
  destruct (read_appended (take p file) (drop p file) Hcr')
    as (consumed & rest & Hnew & Hrest & Hread & _ & _).
  rewrite take_drop, Hbl, (byte_length_one_byte file Hone) in Hread.
  assert (length file = p + length consumed + length rest)%nat as Hsize.
  { rewrite <- (take_drop p file), length_app, Hlen, Hnew, length_app. lia. }
  exists (p + length consumed)%nat.
  replace (p + length consumed - p)%nat with (length consumed) by lia.
  assert (take (length consumed) (drop p file) = consumed) as Htk.
  { by rewrite Hnew, take_app_length. }
  rewrite Htk. split.
  { rewrite Hread. do 2 f_equal. lia. }
  split; [lia|]. split.
  - rewrite <- (take_drop p file) at 2.
    rewrite take_app, Hlen, take_take.
    replace ((p + length consumed) `min` p)%nat with p by lia.
    replace (p + length consumed - p)%nat with (length consumed) by lia.
    by rewrite Htk.
  - rewrite <- drop_drop, Hnew. by rewrite drop_app_length.
Qed.

Lemma last_cons_default (f f1 : list ascii) fs :
  List.last (f1 :: fs) f = List.last fs f1.
Proof.
  revert f f1. induction fs as [|f2 fs IH]; intros f f1; [done|].
  change (List.last (f1 :: f2 :: fs) f) with (List.last (f2 :: fs) f).
  rewrite IH. symmetry. apply IH.
Qed.

Lemma grows_prefix_last files : ∀ f,
  grows f files → f `prefix_of` List.last files f.
Proof.
  induction files as [|f1 fs IH]; intros f Hg; [done|].
  destruct Hg as [Hpre Hg]. rewrite last_cons_default.
  etrans; [exact Hpre|by apply IH].
Qed.

Lemma polls_tile files : ∀ f p,
  grows f files →
  no_cr (List.last files f) → one_byte (List.last files f) →
  (p ≤ length f)%nat → no_newline (drop p f) →
  ∃ segments p',
    Monitor.polls (Some p) files = (map lines_of segments, Some p')
    ∧ length segments = length files
    ∧ take p f ++ concat segments = take p' (List.last files f)
    ∧ (p' ≤ length (List.last files f))%nat
    ∧ no_newline (drop p' (List.last files f)).
Proof.
  induction files as [|f1 fs IH]; intros f p Hg Hcr Hone Hp Hnn.
  - exists [], p. simpl. by rewrite app_nil_r.
  - destruct Hg as [[ext ->] Hg]. rewrite last_cons_default in Hcr, Hone.
    assert (p ≤ length (f ++ ext))%nat as Hp1 by (rewrite length_app; lia).
    destruct (grows_prefix_last fs (f ++ ext) Hg) as [more Hlast].
    assert (no_cr (f ++ ext) ∧ one_byte (f ++ ext)) as [Hcr1 Hone1].
    { rewrite Hlast in Hcr, Hone. unfold no_cr, one_byte in *.
      apply Forall_app in Hcr as [? _]. by apply Forall_app in Hone as [? _]. }
    destruct (read_consumes (f ++ ext) p Hcr1 Hone1 Hp1)
      as (p1 & E1 & Hle1 & Ht1 & Hr1).
    destruct (IH (f ++ ext) p1 Hg Hcr Hone ltac:(lia) Hr1)
      as (segs & p' & E & Hlen & Htile & Hle & Hr).
    exists (take (p1 - p) (drop p (f ++ ext)) :: segs), p'.
    cbn [Monitor.polls]. rewrite E1, E. rewrite last_cons_default.
    split; [done|]. split; [simpl; by rewrite Hlen|].
    split; [|done]. simpl concat. rewrite <- Htile, <- Ht1.
    rewrite app_assoc. do 2 f_equal.
    rewrite take_app_le by done. done.
Qed.

(** X17. Monitoring started on a log of one-byte characters without
    carriage return that is then only appended to: the handle starts at
    the end of the log as it is, so nothing already in it is ever
    returned; every poll returns the lines of one segment of text, and
    the segments follow one another without gap or overlap from the
    starting point up to the final position of the handle; what lies
    beyond that position holds no newline. *)
Theorem polls_tile_appended_text
        (log_file_path : option string) (enable_stdout_capture : bool)
        (file0 : list ascii) (files : list (list ascii)) :
  Notifier.truthy log_file_path = true →
  grows file0 files →
  no_cr (List.last files file0) → one_byte (List.last files file0) →
  ∃ segments p,
    Monitor.polls
      (fst (Monitor.prepare_log_source log_file_path enable_stdout_capture
                                       (Some file0))) files
    = (map lines_of segments, Some p)
    ∧ length segments = length files
    ∧ file0 ++ concat segments = take p (List.last files file0)
    ∧ (p ≤ length (List.last files file0))%nat
    ∧ no_newline (drop p (List.last files file0)).
Proof.
  intros Hpath Hg Hcr Hone. unfold Monitor.prepare_log_source.
  rewrite Hpath. cbn [fst].
  assert (one_byte file0) as Hone0.
  { destruct (grows_prefix_last files file0 Hg) as [more Hlast].
    rewrite Hlast in Hone. unfold one_byte in *.
    by apply Forall_app in Hone as [? _]. }
  rewrite (byte_length_one_byte file0 Hone0).
  destruct (polls_tile files file0 (length file0) Hg Hcr Hone ltac:(lia))
    as (segs & p & E & Hlen & Htile & Hle & Hr).
  { rewrite drop_all. constructor. }
  exists segs, p. rewrite firstn_all in Htile. done.
Qed.

(** X18. In a log without carriage return, an unterminated rest of
    one-byte characters that a poll has held back is returned by the
    next poll even if nothing has been appended to it, and the handle
    moves to the end of the log; when the line is completed afterwards,
    the completion is returned as a line of its own.  A line written in
    two parts, with two polls between them, is thus returned as two
    lines. *)
Theorem held_back_rest_is_returned_unfinished
        (prefix : list ascii) (ls : list line) (t rest : line) :
  Forall no_newline ls → no_newline t → no_newline rest →
  no_cr (join ls t) → no_cr rest → one_byte t →
  ls ≠ [] → t ≠ [] →
  read_new_log_lines (prefix ++ join ls t) (Some (byte_length prefix))
  = (List.filter keep ls,
     Some (byte_length (prefix ++ join ls t) - length t)%nat)
  ∧ read_new_log_lines
      (prefix ++ join ls t)
      (Some (byte_length (prefix ++ join ls t) - length t)%nat)
    = (List.filter keep [t], Some (byte_length (prefix ++ join ls t)))
  ∧ read_new_log_lines
      ((prefix ++ join ls t) ++ rest ++ [newline])
      (Some (byte_length (prefix ++ join ls t)))
    = (List.filter keep [rest],
       Some (byte_length ((prefix ++ join ls t) ++ rest ++ [newline]))).
Proof.
  intros Hls Ht Hrest Hcr Hcrest Hone Hne Htne.
  split; [apply read_terminated; auto|].
  rewrite rest_position by done. split.
  - rewrite (join_tail ls t), app_assoc.
    apply read_single_unterminated; [done| |done].
    by destruct (no_cr_join_nil ls t Hcr).
  - assert (rest ++ [newline] = join [rest] []) as ->.
    { unfold join. simpl. by rewrite !app_nil_r. }
    rewrite (read_terminated (prefix ++ join ls t) [rest] []).
    + do 2 f_equal. simpl. lia.
    + by constructor.
    + constructor.
    + unfold join. simpl. rewrite !app_nil_r. unfold no_cr in *.
      apply Forall_app. split; [done|]. by repeat constructor.
    + by left.
Qed.

(** Reading from [k] bytes after the end of [prefix]. *)
Lemma decode_from_app_add prefix s k :
  decode_from (byte_length prefix + k) (prefix ++ s) = decode_from k s.
Proof.
  induction prefix as [|c prefix IH]; simpl; [done|].
  pose proof (utf8_length_pos c).
  destruct (utf8_length c + byte_length prefix + k =? 0)%nat eqn:E0.
  { apply Nat.eqb_eq in E0. lia. }
  destruct (utf8_length c <=? utf8_length c + byte_length prefix + k)%nat
    eqn:E1; [|apply Nat.leb_gt in E1; lia].
  rewrite <- IH. f_equal. lia.
Qed.

(** A byte offset inside [t] is the end of a non-empty part of [t], or
    falls inside a character. *)
Lemma decode_from_inside t : ∀ k,
  (0 < k < byte_length t)%nat →
  (∃ t1 t2, t = t1 ++ t2 ∧ t1 ≠ [] ∧ t2 ≠ [] ∧ k = byte_length t1)
  ∨ (∀ s, decode_from k (t ++ s) = None).
Proof.
  induction t as [|c t IH]; intros k Hk; simpl in *; [lia|].
  destruct (k =? 0)%nat eqn:E0; [apply Nat.eqb_eq in E0; lia|].
  destruct (utf8_length c <=? k)%nat eqn:E1.
  - apply Nat.leb_le in E1.
    destruct (decide (k = utf8_length c)) as [->|Hne].
    + left. exists [c], t. split; [done|]. split; [done|]. split.
      * intros ->. simpl in Hk. lia.
      * simpl. lia.
    + destruct (IH (k - utf8_length c)%nat ltac:(lia))
        as [(t1 & t2 & -> & H1 & H2 & Hb)|Hnone].
      * left. exists (c :: t1), t2. split; [done|]. split; [done|].
        split; [done|]. simpl. lia.
      * right. intros s. apply Hnone.
  - right. by intros s.
Qed.

Lemma not_one_byte_longer t : ¬ one_byte t → (length t < byte_length t)%nat.
Proof.
  intros Hn. destruct (decide (length t < byte_length t)%nat); [done|].
  exfalso. apply Hn. clear Hn.
  induction t as [|c t IH]; [constructor|]. simpl in *.
  pose proof (utf8_length_pos c). pose proof (length_le_byte_length t).
  constructor; [lia|]. apply IH. lia.
Qed.

(** X23. In a log without carriage return, an unterminated rest that
    holds a character of more than one byte is not put back: the handle
    is moved back by the number of characters of the rest, which is less
    than its bytes, and stands past its first byte.  The next poll does
    not return the rest, and if the line has been completed by then it
    does not return the completed line: it returns no line at all for
    it (the offset falls inside a character and the read raises), or a
    line that lacks its first characters. *)
Theorem wide_rest_is_not_put_back
        (prefix : list ascii) (ls : list line) (t rest : line) :
  Forall no_newline ls → no_newline t → no_newline rest →
  no_cr (join ls t) → no_cr rest → ls ≠ [] → ¬ one_byte t →
  ∃ k, (0 < k)%nat
    ∧ snd (read_new_log_lines (prefix ++ join ls t)
                              (Some (byte_length prefix)))
      = Some (byte_length (prefix ++ join ls []) + k)%nat
    ∧ fst (read_new_log_lines
             (prefix ++ join ls t)
             (Some (byte_length (prefix ++ join ls []) + k)%nat)) ≠ [t]
    ∧ fst (read_new_log_lines
             ((prefix ++ join ls t) ++ rest ++ [newline])
             (Some (byte_length (prefix ++ join ls []) + k)%nat))
      ≠ [t ++ rest].
Proof.
  intros Hls Ht Hrest Hcr Hcrest Hne Hwide.
  pose proof (not_one_byte_longer t Hwide) as Hlong.
  assert (t ≠ []) as Htne.
  { intros ->. apply Hwide. constructor. }
  assert (0 < length t)%nat as Hlen by (destruct t; [done|simpl; lia]).
  destruct (no_cr_join_nil ls t Hcr) as [Hcr1 Hcr2].
  set (P := prefix ++ join ls []).
  assert (prefix ++ join ls t = P ++ t) as HP.
  { unfold P. by rewrite (join_tail ls t), app_assoc. }
  exists (byte_length t - length t)%nat. split; [lia|]. split.
  { rewrite read_terminated by auto. cbn [snd]. f_equal.
    rewrite HP, byte_length_app. lia. }
  rewrite HP.
  destruct (decode_from_inside t (byte_length t - length t)%nat ltac:(lia))
    as [(t1 & t2 & Et & H1 & H2 & Hb)|Hnone].
  - assert (no_newline t2 ∧ no_cr t2) as [Hn2 Hc2].
    { rewrite Et in Ht, Hcr2. unfold no_newline, no_cr in *.
      apply Forall_app in Ht as [_ ?]. by apply Forall_app in Hcr2 as [_ ?]. }
    assert (0 < length t1)%nat as Hshort.
    { destruct t1; [done|]. simpl. lia. }
    rewrite Hb, <- byte_length_app. rewrite Et.
    rewrite !(app_assoc P t1). split.
    + rewrite read_single_unterminated by done. cbn [fst List.filter].
      destruct (keep t2); [|done].
      intros [= E]. apply (f_equal length) in E.
      rewrite length_app in E. lia.
    + assert (((P ++ t1) ++ t2) ++ rest ++ [newline]
              = (P ++ t1) ++ join [t2 ++ rest] []) as ->.
      { unfold join. simpl. by rewrite !app_nil_r, <- !app_assoc. }
      rewrite read_terminated.
      * cbn [fst List.filter]. destruct (keep (t2 ++ rest)); [|done].
        intros [= E]. apply (f_equal length) in E.
        rewrite !length_app in E. lia.
      * constructor; [|constructor]. unfold no_newline in *.
        apply Forall_app. by split.
      * constructor.
      * unfold join. simpl. rewrite !app_nil_r. unfold no_cr in *.
        rewrite <- app_assoc. apply Forall_app. split; [done|].
        apply Forall_app. split; [done|]. by repeat constructor.
      * by left.
  - split.
    + unfold read_new_log_lines.
      destruct (byte_length (P ++ t) <=? _)%nat eqn:E.
      { apply Nat.leb_le in E. rewrite byte_length_app in E. lia. }
      rewrite decode_from_app_add.
      pose proof (Hnone []) as Hn. rewrite app_nil_r in Hn.
      by rewrite Hn.
    + unfold read_new_log_lines.
      destruct (byte_length ((P ++ t) ++ rest ++ [newline]) <=? _)%nat eqn:E.
      { apply Nat.leb_le in E. rewrite !byte_length_app in E. lia. }
      rewrite <- app_assoc, decode_from_app_add. by rewrite Hnone.
Qed.
End reader_polls.

(** The log "ab", newline, "cd", read from its beginning. *)
Lemma poll_returns_lines_of_consumed_text_witness :
  fst (Reader.read_new_log_lines
         (Reader.join [Reader.text "ab"] (Reader.text "cd")) (Some 0%nat))
  = [Reader.text "ab"]
  ∧ ∃ consumed rest,
      Reader.join [Reader.text "ab"] (Reader.text "cd") = consumed ++ rest
      ∧ Reader.no_newline rest
      ∧ fst (Reader.read_new_log_lines
               ([] ++ Reader.join [Reader.text "ab"] (Reader.text "cd"))
               (Some (Reader.byte_length [])))
        = lines_of consumed
      ∧ snd (Reader.read_new_log_lines
               ([] ++ Reader.join [Reader.text "ab"] (Reader.text "cd"))
               (Some (Reader.byte_length [])))
        = Some (Reader.byte_length
                  ([] ++ Reader.join [Reader.text "ab"] (Reader.text "cd"))
                - length rest)%nat.
Proof.
  split; [reflexivity|].
  destruct (poll_returns_lines_of_consumed_text
              [] (Reader.join [Reader.text "ab"] (Reader.text "cd")))
    as (consumed & rest & H1 & H2 & H3 & H4 & _).
  - repeat constructor.
  - by exists consumed, rest.
Defined.

(** Monitoring starts on a log holding "old" and a newline; "ab" and a
    newline are appended before the first poll, "cd" before the
    second. *)
Lemma polls_tile_appended_text_witness :
  ∃ segments p,
    Monitor.polls
      (fst (Monitor.prepare_log_source
              (Some "app.log") false
              (Some (Reader.join [Reader.text "old"] []))))
      [Reader.join [Reader.text "old"; Reader.text "ab"] [];
       Reader.join [Reader.text "old"; Reader.text "ab"] (Reader.text "cd")]
    = (map lines_of segments, Some p)
    ∧ length segments = 2%nat
    ∧ Reader.join [Reader.text "old"] [] ++ concat segments
      = take p (Reader.join [Reader.text "old"; Reader.text "ab"]
                            (Reader.text "cd"))
    ∧ (p ≤ 9)%nat
    ∧ Reader.no_newline
        (drop p (Reader.join [Reader.text "old"; Reader.text "ab"]
                             (Reader.text "cd"))).
Proof.
  apply (polls_tile_appended_text
           (Some "app.log") false (Reader.join [Reader.text "old"] [])
           [Reader.join [Reader.text "old"; Reader.text "ab"] [];
            Reader.join [Reader.text "old"; Reader.text "ab"]
                        (Reader.text "cd")]).
  - reflexivity.
  - split; [by exists (Reader.join [Reader.text "ab"] [])|].
    split; [by exists (Reader.text "cd")|done].
  - repeat constructor.
  - repeat constructor.
Defined.

(** The line "hello world" written as "hello " and, two polls later,
    "world". *)
Lemma held_back_rest_is_returned_unfinished_witness :
  Reader.read_new_log_lines
    (Reader.join [Reader.text "ab"] (Reader.text "hello ")) (Some 3%nat)
  = ([Reader.text "hello "], Some 9%nat)
  ∧ Reader.read_new_log_lines
      (Reader.join [Reader.text "ab"] (Reader.text "hello ")
       ++ Reader.text "world" ++ [Reader.newline]) (Some 9%nat)
    = ([Reader.text "world"], Some 15%nat).
Proof.
  destruct (held_back_rest_is_returned_unfinished
              [] [Reader.text "ab"] (Reader.text "hello ")
              (Reader.text "world"))
    as (_ & H2 & H3).
  - repeat constructor.
  - repeat constructor.
  - repeat constructor.
  - repeat constructor.
  - repeat constructor.
  - repeat constructor.
  - done.
  - done.
  - split; [exact H2|exact H3].
Defined.

(** The rest is "é" (code point 233, two bytes) after the line "ab": the
    handle, which should go back to byte 3, goes to byte 4, inside the
    character; the next poll returns nothing, with or without the
    completion "x", and its handle stands at the end. *)
Lemma wide_rest_is_not_put_back_witness :
  Reader.read_new_log_lines
    (Reader.join [Reader.text "ab"] ["233"%char]) (Some 0%nat)
  = ([Reader.text "ab"], Some 4%nat)
  ∧ Reader.read_new_log_lines
      (Reader.join [Reader.text "ab"] ["233"%char]
       ++ Reader.text "x" ++ [Reader.newline]) (Some 4%nat)
    = ([], Some 7%nat)
  ∧ ∃ k, (0 < k)%nat
      ∧ fst (Reader.read_new_log_lines
               (([] ++ Reader.join [Reader.text "ab"] ["233"%char])
                ++ Reader.text "x" ++ [Reader.newline])
               (Some (Reader.byte_length
                        ([] ++ Reader.join [Reader.text "ab"] []) + k)%nat))
        ≠ [["233"%char] ++ Reader.text "x"].
Proof.
  split; [reflexivity|]. split; [reflexivity|].
  destruct (wide_rest_is_not_put_back
              [] [Reader.text "ab"] ["233"%char] (Reader.text "x"))
    as (k & Hk & _ & _ & H).
  - repeat constructor.
  - repeat constructor.
  - repeat constructor.
  - repeat constructor.
  - repeat constructor.
  - done.
  - intros Hone. inversion Hone as [|?? Hc _]. by vm_compute in Hc.
  - by exists k.
Defined.


(* ===================================================================== *)
(** ** What the status shows                                              *)
(* ===================================================================== *)

Section status_facts.

Lemma run_states es sm : states (fst (run sm es)) = states sm.
Proof.
  revert sm. induction es as [|e es IH]; intros sm; [done|].
  rewrite run_cons. cbn [fst]. rewrite IH. apply step_keeps.
Qed.

Lemma dict_key_get {V} (d : list (string * V)) k :
  k ∈ dict_keys d → ∃ v, dict_get d k = Some v.
Proof.
  intros Hk. destruct (dict_get d k) as [v|] eqn:E; [by exists v|].
  by apply dict_get_None in E.
Qed.

Lemma active_keys_registered sm n :
  wf sm → n ∈ dict_keys (active_states sm) → n ∈ dict_keys (states sm).
Proof.
  intros Hwf [r Hr]%dict_key_get.
  eapply dict_get_Some_key, wf_active_states; eauto.
Qed.

(** X20. After any run of events and sweeps from a machine as the loader
    makes it, the counts and names of [get_status] agree: the active
    state rules it names are distinct, are all registered rules, and are
    no more than the registered rules, whose number the run has not
    changed; the active legacy rules are no more than the legacy
    rules. *)
Theorem status_counts_agree
        (is_running : bool) (rules : list (string * Legacy.WatchdogRule))
        (sm : WatchdogStateMachine) (es : list Event)
        (log_file_path : option string) (c : Notifier.Settings) :
  wf sm →
  NoDup (Monitor.active_state_rule_names
           (Monitor.get_status is_running rules (fst (run sm es))
                               log_file_path c))
  ∧ (∀ n, n ∈ Monitor.active_state_rule_names
                (Monitor.get_status is_running rules (fst (run sm es))
                                    log_file_path c) →
          n ∈ dict_keys (states sm))
  ∧ (Monitor.active_state_rules
       (Monitor.get_status is_running rules (fst (run sm es)) log_file_path c)
     ≤ Monitor.total_state_rules
         (Monitor.get_status is_running rules (fst (run sm es))
                             log_file_path c))%nat
  ∧ Monitor.total_state_rules
      (Monitor.get_status is_running rules (fst (run sm es)) log_file_path c)
    = length (states sm)
  ∧ (Monitor.active_legacy_rules
       (Monitor.get_status is_running rules (fst (run sm es)) log_file_path c)
     ≤ Monitor.total_legacy_rules
         (Monitor.get_status is_running rules (fst (run sm es))
                             log_file_path c))%nat.
Proof.
  intros Hwf. pose proof (run_wf es sm Hwf) as Hwf'.
  cbn [Monitor.get_status Monitor.active_state_rule_names
       Monitor.active_state_rules Monitor.total_state_rules
       Monitor.active_legacy_rules Monitor.total_legacy_rules].
  assert (∀ n, n ∈ dict_keys (active_states (fst (run sm es))) →
               n ∈ dict_keys (states sm)) as Hsub.
  { intros n Hn. rewrite <- (run_states es sm).
    by apply active_keys_registered. }
  split; [apply (wf_active_keys _ Hwf')|]. split; [done|]. split.
  - rewrite run_states. rewrite <- (length_map fst (states sm)).
    apply submseteq_length, NoDup_submseteq; [apply (wf_active_keys _ Hwf')|].
    done.
  - split; [by rewrite run_states|].
    rewrite length_map. apply List.filter_length_le.
Qed.

(** X21. After any run from a machine as the loader makes it,
    [get_detailed_status] has one entry per registered rule, in order,
    and none is missing its status.  The entry of a rule is flagged
    active exactly when [get_status] names the rule among the active
    ones; an active entry has its step index, pointing to one of the
    listed steps, the target and timeout of that step, the elapsed time
    and the remaining time [max(0, timeout - elapsed)]; an inactive entry
    has none of these. *)
Theorem detailed_status_is_complete
        (is_running : bool) (rules : list (string * Legacy.WatchdogRule))
        (sm : WatchdogStateMachine) (es : list Event)
        (log_file_path : option string) (c : Notifier.Settings)
        (now : datetime) :
  wf sm → steady sm →
  map fst (Monitor.state_details (fst (run sm es)) now)
  = dict_keys (states sm)
  ∧ ∀ n o, (n, o) ∈ Monitor.state_details (fst (run sm es)) now →
     ∃ s, o = Some s ∧ status_name s = n
       ∧ (status_is_active s = true
          ↔ n ∈ Monitor.active_state_rule_names
                  (Monitor.get_status is_running rules (fst (run sm es))
                                      log_file_path c))
       ∧ (status_is_active s = true →
          ∃ i target timeout descr e,
            status_current_transition_index s = Some i
            ∧ status_transitions s !! i = Some (target, timeout, descr)
            ∧ status_current_target s = Some target
            ∧ status_current_timeout s = Some timeout
            ∧ status_elapsed_ms s = Some e
            ∧ status_remaining_ms s = Some (Z.max 0 (timeout - e)))
       ∧ (status_is_active s = false →
          status_current_transition_index s = None
          ∧ status_current_target s = None
          ∧ status_current_timeout s = None
          ∧ status_elapsed_ms s = None
          ∧ status_remaining_ms s = None).
Proof.
  intros Hwf Hs. pose proof (run_wf es sm Hwf) as Hwf'.
  pose proof (run_steady es sm Hwf Hs) as Hs'.
  set (sm' := fst (run sm es)) in *. split.
  { unfold Monitor.state_details. rewrite map_map. cbn [fst].
    unfold sm'. by rewrite run_states. }
  intros n o Hin. unfold Monitor.state_details in Hin.
  apply list_elem_of_fmap in Hin as ([n' r] & Heq & Hin).
  cbn [fst] in Heq. injection Heq as -> ->.
  pose proof (dict_get_elem _ _ _ (wf_states_keys _ Hwf') Hin) as Hg.
  destruct (wf_states_obj _ Hwf' _ _ Hg) as (st & Hl & Hname).
  unfold get_state_status. rewrite Hg, Hl. eexists. split; [done|].
  cbn [status_name status_is_active status_current_transition_index
       status_transitions status_current_target status_current_timeout
       status_elapsed_ms status_remaining_ms
       Monitor.get_status Monitor.active_state_rule_names].
  split; [done|]. split; [|split].
  - split.
    + intros Ha. pose proof (wf_live _ Hwf' _ _ Hl Ha) as Hlive.
      rewrite Hname in Hlive. by apply dict_get_Some_key in Hlive.
    + intros [r2 Hr2]%dict_key_get.
      pose proof (wf_active_states _ Hwf' _ _ Hr2) as Hg2.
      rewrite Hg in Hg2. injection Hg2 as <-.
      destruct (wf_active_obj _ Hwf' _ _ Hr2) as (st2 & Hl2 & Ha2).
      congruence.
  - intros Ha. destruct (Hs' r st Hl) as [_ Hst]. rewrite Ha in Hst |- *.
    destruct Hst as [Hlt Hlast].
    destruct (lookup_lt_is_Some_2 _ _ Hlt) as [t Ht]. rewrite Ht.
    destruct (last_activation_time st) as [last|]; [|done].
    exists (current_transition_index st), (target_node t), (timeout_ms t),
           (transition_description t), (int_ms (now - last)).
    split; [done|]. split; [|done].
    by rewrite list_lookup_fmap, Ht.
  - intros Ha. by rewrite Ha.
Qed.
End status_facts.

Lemma status_counts_agree_witness :
  Monitor.active_state_rule_names
    (Monitor.get_status true Legacy.demo_rules
       (fst (run machine_R [Node "A" 0; Node "B" 50000])) (Some "app.log")
       (Notifier.mkSettings None None None None))
  = ["R"]
  ∧ Nat.le
      (Monitor.active_state_rules
         (Monitor.get_status true Legacy.demo_rules
            (fst (run machine_R [Node "A" 0; Node "B" 50000]))
            (Some "app.log")
            (Notifier.mkSettings None None None None)))
      (Monitor.total_state_rules
         (Monitor.get_status true Legacy.demo_rules
            (fst (run machine_R [Node "A" 0; Node "B" 50000]))
            (Some "app.log")
            (Notifier.mkSettings None None None None))).
Proof.
  split; [reflexivity|].
  apply (status_counts_agree true Legacy.demo_rules machine_R
           [Node "A" 0; Node "B" 50000] (Some "app.log")
           (Notifier.mkSettings None None None None) wf_machine_R).
Defined.

Lemma detailed_status_is_complete_witness :
  map fst (Monitor.state_details
             (fst (run machine_R [Node "A" 0; Node "B" 50000])) 100000)
  = dict_keys (states machine_R).
Proof.
  apply (detailed_status_is_complete true Legacy.demo_rules machine_R
           [Node "A" 0; Node "B" 50000] (Some "app.log")
           (Notifier.mkSettings None None None None) 100000
           wf_machine_R steady_machine_R).
Defined.

(** X22. [is_notification_configured] is true (as a truth value) exactly
    when [get_available_notifiers] names a platform, that is, exactly
    when [send_notification] has a platform to try; what it returns is
    not a boolean but the chat id when telegram is configured, and the
    webhook key otherwise.  When it is false, [send_notification] calls
    no sender and returns [False]. *)
Theorem notification_configured_iff_available
        (T : Notifier.Transport) (c : Notifier.Settings)
        (w : Notifier.WatchdogNotifier) (message : string) :
  (Notifier.truthy (Notifier.is_notification_configured c) = true
   ↔ Notifier.get_available_notifiers c ≠ [])
  ∧ ("telegram" ∈ Notifier.get_available_notifiers c →
     Notifier.is_notification_configured c = Notifier.chat_id c)
  ∧ ("telegram" ∉ Notifier.get_available_notifiers c →
     "wechat" ∈ Notifier.get_available_notifiers c →
     Notifier.is_notification_configured c = Notifier.webhook_key c)
  ∧ (Notifier.truthy (Notifier.is_notification_configured c) = false →
     Notifier.send_notification T c w message = (w, [], false)).
Proof.
  unfold Notifier.is_notification_configured, Notifier.get_available_notifiers,
    Notifier.send_notification, Notifier.get_available_notifiers,
    Notifier.py_or, Notifier.py_and.
  destruct (Notifier.truthy (Notifier.bot_token c)) eqn:Eb;
    destruct (Notifier.truthy (Notifier.chat_id c)) eqn:Ec;
    destruct (Notifier.truthy (Notifier.webhook_key c)) eqn:Ew;
    cbn [andb app]; rewrite ?Eb, ?Ec, ?Ew;
    repeat split; intros; try done;
    repeat match goal with
           | H : _ ∈ [] |- _ => by apply elem_of_nil in H
           | H : _ ∈ [_] |- _ => by apply list_elem_of_singleton in H
           | H : _ ∉ _ :: _ |- _ => exfalso; apply H; apply list_elem_of_here
           | H : [] ≠ [] |- _ => by destruct H
           end.
Qed.

Lemma notification_configured_iff_available_witness :
  Notifier.is_notification_configured
    (Notifier.mkSettings (Some "token") (Some "42") (Some "key") None)
  = Some "42".
Proof.
  apply (notification_configured_iff_available
           (Notifier.mkTransport (fun _ _ _ => false) (fun _ _ => true))
           (Notifier.mkSettings (Some "token") (Some "42") (Some "key") None)
           (Notifier.mkNotifier None None) "alert").
  vm_compute. apply list_elem_of_here.
Defined.
